(** * nb.binterpolate~ : per-bin interpolation of FFT frames

    A shallow embedding of [nb.binterpolate~.c] and the properties of its
    configuration arithmetic, its per-bin tables and its perform routine.

    Modelling conventions.
    - [float] and [double] values ([t_double] samples, seconds, increments)
      are exact rationals [Q]: every finite IEEE value is a rational, and
      the rounding of each operation, NaN and the infinities are left out.
      Where the rounding decides an integer result, in [secondsToFrames],
      a second definition with the suffix [_f32] rounds each [float]
      operation to single precision ([f32]).
    - [int] and [long] values are [Z]; a conversion from a floating value
      to an integer truncates toward zero ([Qtrunc]) and is assumed to fit
      the integer type.  Where the index input can exceed the range of
      [int], the value of the conversion is made explicit ([int_cast]).
    - [fftSize] is declared [double] in the struct but only ever holds an
      integer ([x_fftsize] of the enclosing pfft~ or [DEFAULT_FFT_SIZE]);
      it is a [Z] here.
    - Each [t_atom*] table is a [list t_atom]; reading or writing an
      offset outside the table is a memory fault, [None] in the monad [M].
    - [random()] is a stream of integers [rng] consumed one draw at a time.
    - A block of the three signal inlets is a list of frames [sample];
      [sampleframes] is its length and the two outlets receive a list of
      pairs. *)

From Stdlib Require Import ZArith QArith Qround Qabs Lia List.
From stdpp Require Import base list.
Import ListNotations.

Local Open Scope Z_scope.

(** ** C conversions and Max SDK helpers *)

(** Conversion of a floating value to an integer type: the fractional part
    is discarded (truncation toward zero). *)
Definition Qtrunc (q : Q) : Z :=
  if Qle_bool 0%Q q then Qfloor q else Qceiling q.

(** [a < b] on floating values. *)
Definition Qltb (a b : Q) : bool := negb (Qle_bool b a).

(** Modelled from the spec: the [CLAMP] macro comes from the Max SDK headers,
    which are not part of the sources; it remaps a value below [lo] to [lo]
    and a value above [hi] to [hi] (the SDK writes it as
    [(a)>(lo) ? ((a)<(hi) ? (a) : (hi)) : (lo)]). *)
Definition CLAMP (a lo hi : Q) : Q :=
  if Qltb lo a then (if Qltb a hi then a else hi) else lo.

Definition DEFAULT_FFT_SIZE : Z := 4096.
Definition DEFAULT_LENGTH : Q := 10.
Definition MAX_LENGTH : Q := 30.
Definition MIN_LENGTH : Q := 0.
Definition DEFAULT_VARIANCE : Q := 2.
Definition MAX_VARIANCE : Q := 15.
Definition MIN_VARIANCE : Q := 0.
Definition MIN_INTERP_FRAMES : Z := 1.

(** [RAND_MAX] of the C library that provides [random()]: 2^31 - 1. *)
Definition RAND_MAX : Z := 2147483647.

(** A Max atom is a tagged word.  Memory handed out by
    [sysmem_newptrclear] is all zero, which is the tag [A_NOTHING]. *)
Inductive t_atom : Type :=
  | A_NOTHING
  | A_LONG (n : Z)
  | A_FLOAT (f : Q).

(** [atom_getfloat]: the value of a float atom, a long atom converted,
    0 for anything else. *)
Definition atom_getfloat (a : t_atom) : Q :=
  match a with
  | A_FLOAT f => f
  | A_LONG n => inject_Z n
  | A_NOTHING => 0%Q
  end.

(** [atom_getlong]: the value of a long atom, a float atom truncated,
    0 for anything else. *)
Definition atom_getlong (a : t_atom) : Z :=
  match a with
  | A_LONG n => n
  | A_FLOAT f => Qtrunc f
  | A_NOTHING => 0
  end.

(** ** The object struct *)

Record t_interp : Type := mk_interp {
  fftSize : Z;
  sampleRate : Z;
  currMag : list t_atom;
  currPhase : list t_atom;
  targetMag : list t_atom;
  targetPhase : list t_atom;
  incMag : list t_atom;
  incPhase : list t_atom;
  totalFrames : list t_atom;
  frameCount : list t_atom;
  updateTargetFlags : list t_atom;   (* the field [updateTarget] *)
  interpLengthSecs : Q;
  interpVarianceSecs : Q;
  interpLengthFrames : Z;
  interpVarianceFrames : Z;
  interpMin : Z;
  interpMax : Z
}.

(** The nine per-bin tables of the struct. *)
Inductive table : Type :=
  | CurrMag | CurrPhase | TargetMag | TargetPhase | IncMag | IncPhase
  | TotalFrames | FrameCount | UpdateTarget.

Definition tbl (x : t_interp) (t : table) : list t_atom :=
  match t with
  | CurrMag => currMag x
  | CurrPhase => currPhase x
  | TargetMag => targetMag x
  | TargetPhase => targetPhase x
  | IncMag => incMag x
  | IncPhase => incPhase x
  | TotalFrames => totalFrames x
  | FrameCount => frameCount x
  | UpdateTarget => updateTargetFlags x
  end.

Definition set_tbl (x : t_interp) (t : table) (l : list t_atom) : t_interp :=
  let 'mk_interp fs sr cm cp tm tp im ip tf fc ut ls vs lf vf mn mx := x in
  match t with
  | CurrMag => mk_interp fs sr l cp tm tp im ip tf fc ut ls vs lf vf mn mx
  | CurrPhase => mk_interp fs sr cm l tm tp im ip tf fc ut ls vs lf vf mn mx
  | TargetMag => mk_interp fs sr cm cp l tp im ip tf fc ut ls vs lf vf mn mx
  | TargetPhase => mk_interp fs sr cm cp tm l im ip tf fc ut ls vs lf vf mn mx
  | IncMag => mk_interp fs sr cm cp tm tp l ip tf fc ut ls vs lf vf mn mx
  | IncPhase => mk_interp fs sr cm cp tm tp im l tf fc ut ls vs lf vf mn mx
  | TotalFrames => mk_interp fs sr cm cp tm tp im ip l fc ut ls vs lf vf mn mx
  | FrameCount => mk_interp fs sr cm cp tm tp im ip tf l ut ls vs lf vf mn mx
  | UpdateTarget => mk_interp fs sr cm cp tm tp im ip tf fc l ls vs lf vf mn mx
  end.

(** ** Configuration *)

(** [getFFTSize]: the FFT size of the enclosing pfft~, if there is one. *)
Definition getFFTSize (pfft : option Z) : Z :=
  match pfft with
  | Some x_fftsize => x_fftsize
  | None => DEFAULT_FFT_SIZE
  end.

Definition secondsToFrames (seconds : Q) (sampleRate fftSize : Z) : Z :=
  Qtrunc ((seconds * inject_Z sampleRate) / inject_Z fftSize)%Q.

Definition setInterpolationTime (x : t_interp)
    (interpLengthSecs' interpVarianceSecs' : Q) : t_interp :=
  let 'mk_interp fs sr cm cp tm tp im ip tf fc ut _ _ _ _ _ _ := x in
  let ls := CLAMP interpLengthSecs' MIN_LENGTH MAX_LENGTH in
  let lf := secondsToFrames ls sr fs in
  let lf := if lf <? MIN_INTERP_FRAMES then MIN_INTERP_FRAMES else lf in
  let vs := CLAMP interpVarianceSecs' MIN_VARIANCE MAX_VARIANCE in
  let vf := secondsToFrames vs sr fs in
  let minVar := lf - vf in
  let mn := if minVar <=? 0 then 1 else minVar in
  let mx := lf + vf in
  mk_interp fs sr cm cp tm tp im ip tf fc ut ls vs lf vf mn mx.

(** [irand] with the value [r] returned by its call of [random()]. *)
Definition irand (r : Z) (min max : Z) : Z :=
  let scale := (inject_Z r / inject_Z RAND_MAX)%Q in
  Qtrunc (inject_Z min + scale * inject_Z (max - min))%Q.

(** [sysmem_newptrclear (sizeof(t_atom) * n)]: [n] zeroed atoms. *)
Definition sysmem_newptrclear (n : Z) : list t_atom :=
  repeat A_NOTHING (Z.to_nat n).

(** [interp_new]: [sr] is the value of [sys_getsr()], [pfft] the enclosing
    pfft~ and [argv] the creation arguments. *)
Definition interp_new (sr : Z) (pfft : option Z) (argv : list t_atom) : t_interp :=
  let fs := getFFTSize pfft in
  let interpLength :=
    match argv with a :: _ => atom_getfloat a | [] => DEFAULT_LENGTH end in
  let interpVariance :=
    match argv with _ :: a :: _ => atom_getfloat a | _ => DEFAULT_VARIANCE end in
  let x := mk_interp fs sr [] [] [] [] [] [] [] [] [] 0 0 0 0 0 0 in
  let x := setInterpolationTime x interpLength interpVariance in
  let x := set_tbl x CurrMag (sysmem_newptrclear fs) in
  let x := set_tbl x CurrPhase (sysmem_newptrclear fs) in
  let x := set_tbl x TargetMag (sysmem_newptrclear fs) in
  let x := set_tbl x TargetPhase (sysmem_newptrclear fs) in
  let x := set_tbl x IncMag (sysmem_newptrclear fs) in
  let x := set_tbl x IncPhase (sysmem_newptrclear fs) in
  let x := set_tbl x TotalFrames (sysmem_newptrclear fs) in
  let x := set_tbl x FrameCount (sysmem_newptrclear fs) in
  set_tbl x UpdateTarget (sysmem_newptrclear fs).

(** [interp_float]: a float received in inlet 0 sets the length, in inlet 1
    the variance; other inlets ignore it. *)
Definition interp_float (x : t_interp) (inlet : Z) (f : Q) : t_interp :=
  if inlet =? 0 then setInterpolationTime x f (interpVarianceSecs x)
  else if inlet =? 1 then setInterpolationTime x (interpLengthSecs x) f
  else x.

Definition interp_int (x : t_interp) (inlet : Z) (n : Z) : t_interp :=
  interp_float x inlet (inject_Z n).

(** ** Configuration in single precision *)

(** [2^e] as a rational. *)
Definition Qpow2 (e : Z) : Q :=
  match e with
  | Z0 => 1%Q
  | Zpos p => inject_Z (Z.pow_pos 2 p)
  | Zneg p => (1 # Pos.pow 2 p)%Q
  end.

(** [floor (log2 q)] of a positive rational. *)
Definition Qilog2 (q : Q) : Z :=
  let k := Z.log2 (Qnum q) - Z.log2 (Zpos (Qden q)) in
  if Qle_bool (Qpow2 k) q then k else k - 1.

(** The integer nearest to [q]; the even one of the two when [q] lies
    half way between them. *)
Definition round_half_even (q : Q) : Z :=
  let f := Qfloor q in
  match ((q - inject_Z f) ?= (1 # 2))%Q with
  | Lt => f
  | Gt => f + 1
  | Eq => if Z.even f then f else f + 1
  end.

(** The [float] nearest to [q] (IEEE binary32, round to nearest even):
    24 significant bits, steps of [2^-149] below [2^-126].  The exponent
    is not bounded above: a value beyond the largest [float], which the
    hardware turns into an infinity, stays finite here; [CLAMP] sends
    both to the same bound. *)
Definition f32 (q : Q) : Q :=
  match (q ?= 0)%Q with
  | Eq => 0%Q
  | _ =>
      let e := Z.max (Qilog2 (Qabs q) - 23) (-149) in
      (inject_Z (round_half_even (q / Qpow2 e)) * Qpow2 e)%Q
  end.

(** [a * b] and [a / b] on [float] operands. *)
Definition f32_mul (a b : Q) : Q := f32 (a * b).
Definition f32_div (a b : Q) : Q := f32 (a / b).

(** [secondsToFrames] with its arithmetic in single precision: the two
    [int] parameters are converted to [float], the product and the
    quotient are rounded, the quotient is truncated by the cast. *)
Definition secondsToFrames_f32 (seconds : Q) (sampleRate fftSize : Z) : Z :=
  Qtrunc (f32_div (f32_mul seconds (f32 (inject_Z sampleRate)))
                  (f32 (inject_Z fftSize))).

(** [setInterpolationTime] in single precision: its two parameters are
    [float], so each argument is converted at the call. *)
Definition setInterpolationTime_f32 (x : t_interp)
    (interpLengthSecs' interpVarianceSecs' : Q) : t_interp :=
  let 'mk_interp fs sr cm cp tm tp im ip tf fc ut _ _ _ _ _ _ := x in
  let ls := CLAMP (f32 interpLengthSecs') MIN_LENGTH MAX_LENGTH in
  let lf := secondsToFrames_f32 ls sr fs in
  let lf := if lf <? MIN_INTERP_FRAMES then MIN_INTERP_FRAMES else lf in
  let vs := CLAMP (f32 interpVarianceSecs') MIN_VARIANCE MAX_VARIANCE in
  let vf := secondsToFrames_f32 vs sr fs in
  let minVar := lf - vf in
  let mn := if minVar <=? 0 then 1 else minVar in
  let mx := lf + vf in
  mk_interp fs sr cm cp tm tp im ip tf fc ut ls vs lf vf mn mx.

(** ** Memory faults and the random source: the monad [M] *)

(** The future results of [random()], next one first. *)
Definition rng : Type := nat -> Z.

(** A computation on the object and the random source that may fault. *)
Definition M (A : Type) : Type :=
  t_interp * rng -> option (A * (t_interp * rng)).

Definition ret {A : Type} (a : A) : M A := fun w => Some (a, w).

Definition bind {A B : Type} (m : M A) (k : A -> M B) : M B :=
  fun w => match m w with
           | Some (a, w') => k a w'
           | None => None
           end.

Declare Scope interp_scope.
Delimit Scope interp_scope with interp.
Notation "'do' v <- m ; k" := (bind m (fun v => k))
  (at level 10, v name, m at level 100, k at level 200) : interp_scope.
Notation "'do' ' m ; k" := (bind m (fun _ => k))
  (at level 10, m at level 100, k at level 200) : interp_scope.
Local Open Scope interp_scope.

(** The struct as it is now ([x->field] reads). *)
Definition this : M t_interp := fun w => Some (fst w, w).

(** The random source after one draw. *)
Definition rng_tail (g : rng) : rng := fun n => g (S n).

(** One call of [random()]. *)
Definition random : M Z :=
  fun w => Some (snd w 0%nat, (fst w, rng_tail (snd w))).

(** Offsets [0 .. length l - 1] are inside a table. *)
Definition tbl_get (l : list t_atom) (i : Z) : option t_atom :=
  if i <? 0 then None else l !! Z.to_nat i.

Definition tbl_put (l : list t_atom) (i : Z) (a : t_atom) : option (list t_atom) :=
  if (0 <=? i) && (i <? Z.of_nat (length l))
  then Some (<[Z.to_nat i := a]> l) else None.

Definition load (t : table) (i : Z) : M t_atom :=
  fun w => match tbl_get (tbl (fst w) t) i with
           | Some a => Some (a, w)
           | None => None
           end.

Definition store (t : table) (i : Z) (a : t_atom) : M unit :=
  fun w => match tbl_put (tbl (fst w) t) i a with
           | Some l => Some (tt, (set_tbl (fst w) t l, snd w))
           | None => None
           end.

(** [atom_getfloat(x->t + i)] and its three siblings. *)
Definition getfloat (t : table) (i : Z) : M Q :=
  do a <- load t i; ret (atom_getfloat a).

Definition getlong (t : table) (i : Z) : M Z :=
  do a <- load t i; ret (atom_getlong a).

Definition setfloat (t : table) (i : Z) (f : Q) : M unit := store t i (A_FLOAT f).

Definition setlong (t : table) (i : Z) (n : Z) : M unit := store t i (A_LONG n).

(** ** Target acquisition *)

(** The bin [updateTarget] works on: [int bin = CLAMP(fftBin, 0, x->fftSize-1)]. *)
Definition target_bin (x : t_interp) (fftBin : Q) : Z :=
  Qtrunc (CLAMP fftBin 0 (inject_Z (fftSize x) - 1)).

Definition updateTarget (mag phase fftBin : Q) : M unit :=
  do x <- this;
  let bin := target_bin x fftBin in
  do ' setfloat TargetMag bin mag;
  do ' setfloat TargetPhase bin phase;
  do r <- random;
  do ' setlong TotalFrames bin (irand r (interpMin x) (interpMax x));
  do cm <- getfloat CurrMag bin;
  let magDelta := (mag - cm)%Q in
  do cp <- getfloat CurrPhase bin;
  let phaseDelta := (phase - cp)%Q in
  do tf <- getlong TotalFrames bin;
  let magDelta := (magDelta / inject_Z tf)%Q in
  do tf' <- getlong TotalFrames bin;
  let phaseDelta := (phaseDelta / inject_Z tf')%Q in
  do ' setfloat IncMag bin magDelta;
  do ' setfloat IncPhase bin phaseDelta;
  do ' setlong UpdateTarget bin 0;
  setlong FrameCount bin 0.

(** ** DSP *)

(** One sample frame of the three signal inlets. *)
Record sample : Type := mk_sample {
  in_mag : Q;
  in_phase : Q;
  in_index : Q
}.

Definition set_sampleRate (sr : Z) : M unit :=
  fun w =>
    let 'mk_interp fs _ cm cp tm tp im ip tf fc ut ls vs lf vf mn mx := fst w in
    Some (tt, (mk_interp fs sr cm cp tm tp im ip tf fc ut ls vs lf vf mn mx, snd w)).

(** The loop of [interp_dsp64], [n] iterations left, at offset [i]. *)
Fixpoint dsp64_loop (n : nat) (i : Z) : M unit :=
  match n with
  | O => ret tt
  | S n' => do ' setlong UpdateTarget i 1; dsp64_loop n' (i + 1)
  end.

Definition interp_dsp64 (samplerate : Q) : M unit :=
  do ' set_sampleRate (Qtrunc samplerate);
  do x <- this;
  dsp64_loop (Z.to_nat (fftSize x)) 0.

(** The body of the first loop of [interp_perform64] at position [i].
    The test [x->updateTarget+i != NULL] always holds for an allocated
    table, which leaves the flag. *)
Definition refresh_at (i : Z) (s : sample) : M unit :=
  do flag <- getlong UpdateTarget i;
  if negb (flag =? 0) then
    do tm <- getfloat TargetMag i;
    do ' setfloat CurrMag i tm;
    do tp <- getfloat TargetPhase i;
    do ' setfloat CurrPhase i tp;
    updateTarget (in_mag s) (in_phase s) (in_index s)
  else ret tt.

(** The first loop, from position [i] on, over the rest of the block. *)
Fixpoint refresh_loop (i : Z) (blk : list sample) : M unit :=
  match blk with
  | [] => ret tt
  | s :: rest => do ' refresh_at i s; refresh_loop (i + 1) rest
  end.

(** The bin the second loop works on:
    [int bin = CLAMP((int)(in_index[k]), 0, x->fftSize-1)]. *)
Definition step_bin (x : t_interp) (index : Q) : Z :=
  Qtrunc (CLAMP (inject_Z (Qtrunc index)) 0 (inject_Z (fftSize x) - 1)).

(** The body of the second loop for one frame; the result is the pair
    written to the two outlets. *)
Definition step_frame (s : sample) : M (Q * Q) :=
  do x <- this;
  let bin := step_bin x (in_index s) in
  do incM <- getfloat IncMag bin;
  do incP <- getfloat IncPhase bin;
  do cm <- getfloat CurrMag bin;
  do ' setfloat CurrMag bin (cm + incM)%Q;
  do cp <- getfloat CurrPhase bin;
  do ' setfloat CurrPhase bin (cp + incP)%Q;
  do out_mag <- getfloat CurrMag bin;
  do out_phase <- getfloat CurrPhase bin;
  do fc <- getlong FrameCount bin;
  let framePos := fc + 1 in
  do ' setlong FrameCount bin framePos;
  do tf <- getlong TotalFrames bin;
  do ' (if framePos >=? tf then
          do ' setlong UpdateTarget bin 1;
          setlong FrameCount bin 0
        else ret tt);
  ret (out_mag, out_phase).

Fixpoint step_loop (blk : list sample) : M (list (Q * Q)) :=
  match blk with
  | [] => ret []
  | s :: rest =>
      do o <- step_frame s;
      do os <- step_loop rest;
      ret (o :: os)
  end.

(** [interp_perform64] on a block of [sampleframes = length blk] frames. *)
Definition interp_perform64 (blk : list sample) : M (list (Q * Q)) :=
  do ' refresh_loop 0 blk;
  step_loop blk.

(** ** The index input beyond the range of [int] *)

Definition INT_MIN : Z := -2147483648.
Definition INT_MAX : Z := 2147483647.

Definition fits_int (z : Z) : Prop := INT_MIN <= z <= INT_MAX.

(** [c] is a value that the conversion [(int)q] can have: the truncated
    value when it fits an [int]; otherwise C leaves the conversion
    undefined, and [c] is whatever [int] the hardware delivers. *)
Definition int_cast (q : Q) (c : Z) : Prop :=
  fits_int c /\ (fits_int (Qtrunc q) -> c = Qtrunc q).

(** The conversion on x86-64 ([cvttsd2si]): a value that does not fit
    yields [INT_MIN]. *)
Definition cvttsd2si (q : Q) : Z :=
  if (INT_MIN <=? Qtrunc q) && (Qtrunc q <=? INT_MAX) then Qtrunc q
  else INT_MIN.



(** ** Well-formed objects and their cells *)

#[local] Instance table_eq_dec : EqDecision table.
Proof. solve_decision. Defined.

(** The object as the constructor leaves its shape: at least one bin and
    nine tables of [fftSize] atoms each. *)
Definition wf (x : t_interp) : Prop :=
  1 <= fftSize x /\ forall t, length (tbl x t) = Z.to_nat (fftSize x).

(** The atom at offset [i] of table [t]. *)
Definition cell (x : t_interp) (t : table) (i : Z) : t_atom :=
  default A_NOTHING (tbl x t !! Z.to_nat i).

(** The object after the atom at offset [i] of table [t] is overwritten. *)
Definition poke (x : t_interp) (t : table) (i : Z) (a : t_atom) : t_interp :=
  set_tbl x t (<[Z.to_nat i := a]> (tbl x t)).

(** The configuration fields of two objects agree. *)
Definition same_config (x y : t_interp) : Prop :=
  fftSize y = fftSize x /\ sampleRate y = sampleRate x /\
  interpLengthSecs y = interpLengthSecs x /\
  interpVarianceSecs y = interpVarianceSecs x /\
  interpLengthFrames y = interpLengthFrames x /\
  interpVarianceFrames y = interpVarianceFrames x /\
  interpMin y = interpMin x /\ interpMax y = interpMax x.

(** ** Postconditions of the three steps *)

(** The state [y] of bin [b] after [updateTarget] drew the duration [T]
    for the new target [(mag, phase)] on the object [x]. *)
Definition acquired (x : t_interp) (b T : Z) (mag phase : Q) (y : t_interp) : Prop :=
  wf y /\ same_config x y /\
  cell y TargetMag b = A_FLOAT mag /\
  cell y TargetPhase b = A_FLOAT phase /\
  cell y TotalFrames b = A_LONG T /\
  cell y IncMag b =
    A_FLOAT ((mag - atom_getfloat (cell x CurrMag b)) / inject_Z T) /\
  cell y IncPhase b =
    A_FLOAT ((phase - atom_getfloat (cell x CurrPhase b)) / inject_Z T) /\
  cell y UpdateTarget b = A_LONG 0 /\
  cell y FrameCount b = A_LONG 0 /\
  (forall j, cell y CurrMag j = cell x CurrMag j) /\
  (forall j, cell y CurrPhase j = cell x CurrPhase j) /\
  (forall t j, 0 <= j -> j <> b -> cell y t j = cell x t j).

(** The object [y] and the outlet pair [out] after the step loop handled
    one frame that resolved to bin [b] on the object [x]. *)
Definition stepped (x : t_interp) (b : Z) (out : Q * Q) (y : t_interp) : Prop :=
  let m := (atom_getfloat (cell x CurrMag b) + atom_getfloat (cell x IncMag b))%Q in
  let p := (atom_getfloat (cell x CurrPhase b) + atom_getfloat (cell x IncPhase b))%Q in
  let framePos := atom_getlong (cell x FrameCount b) + 1 in
  wf y /\ same_config x y /\
  cell y CurrMag b = A_FLOAT m /\
  cell y CurrPhase b = A_FLOAT p /\
  out = (m, p) /\
  (if framePos >=? atom_getlong (cell x TotalFrames b)
   then cell y UpdateTarget b = A_LONG 1 /\ cell y FrameCount b = A_LONG 0
   else cell y UpdateTarget b = cell x UpdateTarget b /\
        cell y FrameCount b = A_LONG framePos) /\
  (forall t j, t <> CurrMag -> t <> CurrPhase -> t <> FrameCount ->
               t <> UpdateTarget -> cell y t j = cell x t j) /\
  (forall t j, 0 <= j -> j <> b -> cell y t j = cell x t j).

(** The object after the refresh loop carried the target of position [i]
    into its current value. *)
Definition carry (x : t_interp) (i : Z) : t_interp :=
  poke (poke x CurrMag i (A_FLOAT (atom_getfloat (cell x TargetMag i))))
       CurrPhase i (A_FLOAT (atom_getfloat (cell x TargetPhase i))).

(** The index inlet carries the position of each frame, counted from
    [i0] at the head of the block: the convention inside pfft~. *)
Definition indexed_by_position (x : t_interp) (i0 : Z) (blk : list sample) : Prop :=
  forall (k : nat) (s : sample),
    blk !! k = Some s -> target_bin x (in_index s) = i0 + Z.of_nat k.

(** The cells of position [j] in [y] after the refresh loop visited [j]
    with the frame [s] on the object [x]. *)
Definition refreshed (x y : t_interp) (j : Z) (s : sample) : Prop :=
  (atom_getlong (cell x UpdateTarget j) = 0 ->
   forall t, cell y t j = cell x t j) /\
  (atom_getlong (cell x UpdateTarget j) <> 0 ->
   cell y CurrMag j = A_FLOAT (atom_getfloat (cell x TargetMag j)) /\
   cell y CurrPhase j = A_FLOAT (atom_getfloat (cell x TargetPhase j)) /\
   cell y TargetMag j = A_FLOAT (in_mag s) /\
   cell y TargetPhase j = A_FLOAT (in_phase s) /\
   cell y IncMag j =
     A_FLOAT ((in_mag s - atom_getfloat (cell x TargetMag j)) /
              inject_Z (atom_getlong (cell y TotalFrames j))) /\
   cell y IncPhase j =
     A_FLOAT ((in_phase s - atom_getfloat (cell x TargetPhase j)) /
              inject_Z (atom_getlong (cell y TotalFrames j))) /\
   cell y UpdateTarget j = A_LONG 0 /\
   cell y FrameCount j = A_LONG 0).

(** The refresh loop has opened in [y] a leg of [T] frames for bin [j]:
    it starts from the target that [j] had in [x] and heads for the
    inputs of the frame [s]. *)
Definition leg_opened (x y : t_interp) (j : Z) (s : sample) (T : Z) : Prop :=
  cell y CurrMag j = A_FLOAT (atom_getfloat (cell x TargetMag j)) /\
  cell y CurrPhase j = A_FLOAT (atom_getfloat (cell x TargetPhase j)) /\
  cell y TargetMag j = A_FLOAT (in_mag s) /\
  cell y TargetPhase j = A_FLOAT (in_phase s) /\
  cell y TotalFrames j = A_LONG T /\
  cell y IncMag j =
    A_FLOAT ((in_mag s - atom_getfloat (cell x TargetMag j)) / inject_Z T) /\
  cell y IncPhase j =
    A_FLOAT ((in_phase s - atom_getfloat (cell x TargetPhase j)) / inject_Z T) /\
  cell y UpdateTarget j = A_LONG 0 /\
  cell y FrameCount j = A_LONG 0.

(** The number of frames of a block that the step loop resolves to bin [b]. *)
Definition count_bin (x : t_interp) (b : Z) (blk : list sample) : nat :=
  length (filter (fun s => step_bin x (in_index s) = b) blk).

(** The current value of bin [b] in [y] is the target value it had in [x]. *)
Definition continuous_boundary (x y : t_interp) (b : Z) : Prop :=
  (atom_getfloat (cell y CurrMag b) == atom_getfloat (cell x TargetMag b))%Q /\
  (atom_getfloat (cell y CurrPhase b) == atom_getfloat (cell x TargetPhase b))%Q.

(** The object a computation leaves behind ([x] itself after a fault). *)
Definition state_after {A : Type} (m : M A) (x : t_interp) (g : rng) : t_interp :=
  match m (x, g) with
  | Some (_, (y, _)) => y
  | None => x
  end.

(** ** The specification's wording of the steps it words differently *)

(** The refresh step as the specification words it: the acquisition is
    made for the bin [i] of the position itself. *)
Definition refresh_at_spec (i : Z) (s : sample) : M unit :=
  do flag <- getlong UpdateTarget i;
  if negb (flag =? 0) then
    do tm <- getfloat TargetMag i;
    do ' setfloat CurrMag i tm;
    do tp <- getfloat TargetPhase i;
    do ' setfloat CurrPhase i tp;
    updateTarget (in_mag s) (in_phase s) (inject_Z i)
  else ret tt.

(** Rounding to the nearest integer, as the specification words the
    conversion of seconds to frames. *)
Definition spec_round (q : Q) : Z := Qfloor (q + (1 # 2))%Q.

(** The frame count of the specification for [seconds] at the rate and
    FFT size of [x]. *)
Definition spec_frames (x : t_interp) (seconds : Q) : Z :=
  spec_round (seconds * inject_Z (sampleRate x) / inject_Z (fftSize x))%Q.

(** The frame count the code derives: the quotient truncated. *)
Definition trunc_frames (x : t_interp) (seconds : Q) : Z :=
  Qtrunc (seconds * inject_Z (sampleRate x) / inject_Z (fftSize x))%Q.

(** The claim C6 as the specification words it, with rounding. *)
Definition derived_frames_round_claim : Prop :=
  forall (x : t_interp) (l v : Q),
    1 <= fftSize x ->
    let y := setInterpolationTime_f32 x l v in
    interpLengthFrames y = Z.max (spec_frames x (interpLengthSecs y)) 1 /\
    interpVarianceFrames y = spec_frames x (interpVarianceSecs y).



(** The claim C4 as the specification words it: every flag is set as soon
    as the object is constructed. *)
Definition flags_set_at_construction_claim : Prop :=
  forall (sr : Z) (pfft : option Z) (argv : list t_atom) (j : Z),
    0 <= j < getFFTSize pfft ->
    atom_getlong (cell (interp_new sr pfft argv) UpdateTarget j) <> 0.

(** The claim C1 as the specification words it: whenever the refresh loop
    opens a new leg, the bin of that leg starts from its previous target. *)
Definition continuity_claim : Prop :=
  forall (x : t_interp) (g : rng) (i : Z) (s : sample) (y : t_interp) (g' : rng),
    wf x ->
    atom_getlong (cell x UpdateTarget i) <> 0 ->
    refresh_at i s (x, g) = Some (tt, (y, g')) ->
    continuous_boundary x y (target_bin x (in_index s)).

(** The claim C2 as the specification words it: the refresh step is the
    one that acquires the target for the bin of the position. *)
Definition refresh_by_position_claim : Prop :=
  forall (x : t_interp) (g : rng) (i : Z) (s : sample),
    wf x -> refresh_at i s (x, g) = refresh_at_spec i s (x, g).

(** ** Objects, random sources and blocks of the examples *)

(** A random source whose every draw is 0. *)
Definition g_zero : rng := fun _ => 0.

(** A random source whose every draw is [RAND_MAX]. *)
Definition g_max : rng := fun _ => RAND_MAX.

(** A block of [n] copies of one frame. *)
Definition constant_block (n : nat) (s : sample) : list sample := repeat s n.

(** The object of the unit tests below: 44100 Hz, no pfft~ around it
    (4096 bins), default length (10 s) and variance (2 s). *)
Definition x_default : t_interp := interp_new 44100 None [].

(** An object with four bins at 8 Hz, so that a second is two frames;
    the length is 1 s and the variance 0.5 s (between 1 and 3 frames). *)
Definition x_small : t_interp :=
  interp_new 8 (Some 4) [A_FLOAT 1; A_FLOAT (1 # 2)].

(** Two bins at 4 Hz: the length of 1 s is two frames, the variance 0. *)
Definition x_two : t_interp := interp_new 4 (Some 2) [A_FLOAT 1; A_FLOAT 0].

(** [x_two] once audio is started: both flags are set. *)
Definition x_started : t_interp :=
  Eval vm_compute in state_after (interp_dsp64 4) x_two g_zero.

(** [x_started] after a block of one frame whose index input is 1: the
    frame sits at position 0, the leg it opens is the one of bin 1. *)
Definition x_midleg : t_interp :=
  Eval vm_compute in
    state_after (interp_perform64 [mk_sample 5 0 1]) x_started g_zero.

(** [x_midleg] once audio is started again: bin 1 is still half way
    (at 5/2) to its target 5, and both flags are set. *)
Definition x_restarted : t_interp :=
  Eval vm_compute in state_after (interp_dsp64 4) x_midleg g_zero.

(** ** The calls of the host *)

(** A change of the struct that no table access can fault on. *)
Definition modify (f : t_interp -> t_interp) : M unit :=
  fun w => Some (tt, (f (fst w), snd w)).

(** The methods [ext_main] registers, and the perform routine that
    [interp_dsp64] adds to the DSP chain, as the host calls them.
    [interp_bang] only posts to the Max console and [interp_assist] only
    fills the assistance string: neither touches the object. *)
Inductive call : Type :=
  | call_bang
  | call_int (inlet n : Z)
  | call_float (inlet : Z) (f : Q)
  | call_assist
  | call_dsp64 (samplerate : Q)
  | call_perform64 (blk : list sample).

(** One call; the result is what it writes to the two outlets. *)
Definition dispatch (c : call) : M (list (Q * Q)) :=
  match c with
  | call_bang => ret []
  | call_int inlet n => do ' modify (fun x => interp_int x inlet n); ret []
  | call_float inlet f => do ' modify (fun x => interp_float x inlet f); ret []
  | call_assist => ret []
  | call_dsp64 samplerate => do ' interp_dsp64 samplerate; ret []
  | call_perform64 blk => interp_perform64 blk
  end.

(** A sequence of calls, with the outlet signal of each. *)
Fixpoint session (cs : list call) : M (list (list (Q * Q))) :=
  match cs with
  | [] => ret []
  | c :: rest =>
      do o <- dispatch c;
      do os <- session rest;
      ret (o :: os)
  end.

(** A call the host can make on an object of [n] bins: a sample rate is
    not negative and a signal vector is at most [n] frames long. *)
Definition admissible (n : Z) (c : call) : Prop :=
  match c with
  | call_dsp64 samplerate => (0 <= samplerate)%Q
  | call_perform64 blk => Z.of_nat (length blk) <= n
  | _ => True
  end.

(** The result of a computation once the object it leaves is changed by [f]. *)
Definition then_config {A : Type} (f : t_interp -> t_interp)
    (r : option (A * (t_interp * rng))) : option (A * (t_interp * rng)) :=
  match r with
  | Some (a, (y, g)) => Some (a, (f y, g))
  | None => None
  end.

(** Running [m] after the change [f] is running [m] and then applying [f]. *)
Definition commutes_with (f : t_interp -> t_interp) {A : Type} (m : M A) : Prop :=
  forall x g, m (f x, g) = then_config f (m (x, g)).

(** The cells of bin [b] in [y] and the outlet pair [out] after the step
    loop handled one frame for [b], the cells of [b] being those of [x]
    before it. *)
Definition stepped_bin (x y : t_interp) (b : Z) (out : Q * Q) : Prop :=
  let m := (atom_getfloat (cell x CurrMag b) + atom_getfloat (cell x IncMag b))%Q in
  let p := (atom_getfloat (cell x CurrPhase b) + atom_getfloat (cell x IncPhase b))%Q in
  let framePos := atom_getlong (cell x FrameCount b) + 1 in
  cell y CurrMag b = A_FLOAT m /\
  cell y CurrPhase b = A_FLOAT p /\
  out = (m, p) /\
  (if framePos >=? atom_getlong (cell x TotalFrames b)
   then cell y UpdateTarget b = A_LONG 1 /\ cell y FrameCount b = A_LONG 0
   else cell y UpdateTarget b = cell x UpdateTarget b /\
        cell y FrameCount b = A_LONG framePos) /\
  cell y TargetMag b = cell x TargetMag b /\
  cell y TargetPhase b = cell x TargetPhase b /\
  cell y IncMag b = cell x IncMag b /\
  cell y IncPhase b = cell x IncPhase b /\
  cell y TotalFrames b = cell x TotalFrames b.

(** Every value of [random()] lies in [0, RAND_MAX]. *)
Definition rng_in_range (g : rng) : Prop :=
  forall n : nat, 0 <= g n <= RAND_MAX.

(** What every call keeps of an object of [n] bins: its shape, its size,
    a sample rate that is not negative and a range of durations that
    starts at one frame or more. *)
Definition engine_ok (n : Z) (x : t_interp) : Prop :=
  wf x /\ fftSize x = n /\ 0 <= sampleRate x /\
  1 <= interpMin x <= interpMax x.

(** A call and what it writes to the outlets: a pair for each frame of a
    signal vector, nothing for the other calls. *)
Definition outlets_of (c : call) (o : list (Q * Q)) : Prop :=
  match c with
  | call_perform64 blk => length o = length blk
  | _ => o = []
  end.

(** Bin [j] is [c] frames into a leg of [T] frames that runs from
    [(m0, p0)] to the target [(m, p)]. *)
Definition midleg (x : t_interp) (j : Z) (m0 p0 m p : Q) (T c : Z) : Prop :=
  cell x TargetMag j = A_FLOAT m /\
  cell x TargetPhase j = A_FLOAT p /\
  cell x TotalFrames j = A_LONG T /\
  cell x IncMag j = A_FLOAT ((m - m0) / inject_Z T) /\
  cell x IncPhase j = A_FLOAT ((p - p0) / inject_Z T) /\
  (atom_getfloat (cell x CurrMag j) ==
     m0 + inject_Z c * ((m - m0) / inject_Z T))%Q /\
  (atom_getfloat (cell x CurrPhase j) ==
     p0 + inject_Z c * ((p - p0) / inject_Z T))%Q /\
  atom_getlong (cell x FrameCount j) = c /\
  atom_getlong (cell x UpdateTarget j) = 0.

(** Bin [j] has reached its target [(m, p)] and asks for a new one. *)
Definition leg_done (x : t_interp) (j : Z) (m p : Q) : Prop :=
  cell x TargetMag j = A_FLOAT m /\
  cell x TargetPhase j = A_FLOAT p /\
  (atom_getfloat (cell x CurrMag j) == m)%Q /\
  (atom_getfloat (cell x CurrPhase j) == p)%Q /\
  cell x UpdateTarget j = A_LONG 1 /\
  cell x FrameCount j = A_LONG 0.

(** The outlet pair [out] is [r] frames up the ramp of [T] frames from
    [(m0, p0)] to [(m, p)]. *)
Definition on_ramp (m0 p0 m p : Q) (T r : Z) (out : Q * Q) : Prop :=
  (fst out == m0 + inject_Z r * ((m - m0) / inject_Z T))%Q /\
  (snd out == p0 + inject_Z r * ((p - p0) / inject_Z T))%Q.

(** A signal vector that fits the tables of [x], is indexed by position
    and has a frame at position [k]. *)
Definition block_with (x : t_interp) (k : nat) (blk : list sample) : Prop :=
  Z.of_nat (length blk) <= fftSize x /\
  indexed_by_position x 0 blk /\
  (k < length blk)%nat.

(** A signal vector whose index input fits an [int] at every frame, so
    that the conversion of the second loop is the truncation. *)
Definition int_indexed (blk : list sample) : Prop :=
  Forall (fun s => fits_int (Qtrunc (in_index s))) blk.

(** * Properties *)

(** ** Truncation and clamping *)

Section Conversions.

Lemma Qtrunc_comp (p q : Q) : (p == q)%Q -> Qtrunc p = Qtrunc q.
Proof.
  intros E. unfold Qtrunc.
  assert (Qle_bool 0%Q p = Qle_bool 0%Q q) as ->.
  { destruct (Qle_bool 0%Q q) eqn:Hq.
    - apply Qle_bool_iff. rewrite E. now apply Qle_bool_iff.
    - destruct (Qle_bool 0%Q p) eqn:Hp; [|reflexivity].
      apply Qle_bool_iff in Hp. rewrite E in Hp.
      apply Qle_bool_iff in Hp. congruence. }
  destruct (Qle_bool 0%Q q); [now apply Qfloor_comp | now apply Qceiling_comp].
Qed.

Lemma Qtrunc_inject_Z (z : Z) : Qtrunc (inject_Z z) = z.
Proof.
  unfold Qtrunc. destruct (Qle_bool 0%Q (inject_Z z));
    [apply Qfloor_Z | apply Qceiling_Z].
Qed.

Lemma Qtrunc_mono (p q : Q) : (p <= q)%Q -> Qtrunc p <= Qtrunc q.
Proof.
  intros L. unfold Qtrunc.
  destruct (Qle_bool 0%Q p) eqn:Hp, (Qle_bool 0%Q q) eqn:Hq.
  - now apply Qfloor_resp_le.
  - apply Qle_bool_iff in Hp.
    assert (0 <= q)%Q as Hq' by (eapply Qle_trans; eauto).
    apply Qle_bool_iff in Hq'. congruence.
  - apply Qle_bool_iff in Hq.
    assert (Qceiling p <= 0).
    { rewrite <- (Qceiling_Z 0). apply Qceiling_resp_le.
      apply Qlt_le_weak, Qnot_le_lt. intros C.
      change (inject_Z 0) with 0%Q in C.
      apply Qle_bool_iff in C. congruence. }
    assert (0 <= Qfloor q).
    { rewrite <- (Qfloor_Z 0). apply Qfloor_resp_le. exact Hq. }
    lia.
  - now apply Qceiling_resp_le.
Qed.

(** A value between two integers truncates to an integer between them. *)
Lemma Qtrunc_between (a b : Z) (q : Q) :
  (inject_Z a <= q)%Q -> (q <= inject_Z b)%Q -> a <= Qtrunc q <= b.
Proof.
  intros Ha Hb. split.
  - rewrite <- (Qtrunc_inject_Z a). now apply Qtrunc_mono.
  - rewrite <- (Qtrunc_inject_Z b). now apply Qtrunc_mono.
Qed.

Lemma Qltb_true (a b : Q) : Qltb a b = true <-> (a < b)%Q.
Proof.
  unfold Qltb. rewrite negb_true_iff. split.
  - intros H. apply Qnot_le_lt. intros C. apply Qle_bool_iff in C. congruence.
  - intros H. destruct (Qle_bool b a) eqn:E; [|reflexivity].
    apply Qle_bool_iff in E. exfalso. eapply Qlt_not_le; eauto.
Qed.

Lemma Qltb_false (a b : Q) : Qltb a b = false <-> (b <= a)%Q.
Proof.
  unfold Qltb. rewrite negb_false_iff. apply Qle_bool_iff.
Qed.

(** [CLAMP] lands between its bounds. *)
Lemma CLAMP_range (a lo hi : Q) :
  (lo <= hi)%Q -> (lo <= CLAMP a lo hi)%Q /\ (CLAMP a lo hi <= hi)%Q.
Proof.
  intros L. unfold CLAMP.
  destruct (Qltb lo a) eqn:H1.
  - apply Qltb_true in H1. destruct (Qltb a hi) eqn:H2.
    + apply Qltb_true in H2. split; now apply Qlt_le_weak.
    + split; [exact L | apply Qle_refl].
  - split; [apply Qle_refl | exact L].
Qed.

(** [CLAMP] leaves a value inside the bounds alone. *)
Lemma CLAMP_inside (a lo hi : Q) :
  (lo <= a)%Q -> (a <= hi)%Q -> (CLAMP a lo hi == a)%Q.
Proof.
  intros L H. unfold CLAMP.
  destruct (Qltb lo a) eqn:H1.
  - destruct (Qltb a hi) eqn:H2; [reflexivity|].
    apply Qltb_false in H2. now apply Qle_antisym.
  - apply Qltb_false in H1. now apply Qle_antisym.
Qed.

Lemma inject_Z_pred (z : Z) : (inject_Z z - 1 == inject_Z (z - 1))%Q.
Proof.
  unfold Z.sub. rewrite inject_Z_plus. reflexivity.
Qed.

Lemma last_bin_nonneg (n : Z) : 1 <= n -> (0 <= inject_Z n - 1)%Q.
Proof.
  intros H. rewrite inject_Z_pred. change 0%Q with (inject_Z 0).
  rewrite <- Zle_Qle. lia.
Qed.

End Conversions.

(** Both ways of resolving a bin index land inside the tables. *)
Lemma target_bin_range (x : t_interp) (fftBin : Q) :
  1 <= fftSize x -> 0 <= target_bin x fftBin <= fftSize x - 1.
Proof.
  intros Hfs. unfold target_bin.
  pose proof (last_bin_nonneg _ Hfs) as Hhi.
  destruct (CLAMP_range fftBin 0 (inject_Z (fftSize x) - 1) Hhi) as [L H].
  apply Qtrunc_between; [exact L | now rewrite <- inject_Z_pred].
Qed.

Lemma step_bin_range (x : t_interp) (index : Q) :
  1 <= fftSize x -> 0 <= step_bin x index <= fftSize x - 1.
Proof.
  intros Hfs. unfold step_bin.
  pose proof (last_bin_nonneg _ Hfs) as Hhi.
  destruct (CLAMP_range (inject_Z (Qtrunc index)) 0
              (inject_Z (fftSize x) - 1) Hhi) as [L H].
  apply Qtrunc_between; [exact L | now rewrite <- inject_Z_pred].
Qed.

(** An index that already names a bin resolves to that bin. *)
Lemma target_bin_inject (x : t_interp) (i : Z) :
  0 <= i < fftSize x -> target_bin x (inject_Z i) = i.
Proof.
  intros Hi. unfold target_bin.
  rewrite (Qtrunc_comp _ (inject_Z i)); [apply Qtrunc_inject_Z|].
  apply CLAMP_inside.
  - change 0%Q with (inject_Z 0). rewrite <- Zle_Qle. lia.
  - rewrite inject_Z_pred, <- Zle_Qle. lia.
Qed.

Lemma step_bin_inject (x : t_interp) (i : Z) :
  0 <= i < fftSize x -> step_bin x (inject_Z i) = i.
Proof.
  intros Hi. unfold step_bin. rewrite Qtrunc_inject_Z.
  apply (target_bin_inject x i Hi).
Qed.

(** ** Tables: well-formed objects, reading and writing a cell *)

Section Tables.

Lemma tbl_set_tbl_eq x t l : tbl (set_tbl x t l) t = l.
Proof. destruct x, t; reflexivity. Qed.

Lemma tbl_set_tbl_ne x t t' l : t <> t' -> tbl (set_tbl x t l) t' = tbl x t'.
Proof. destruct x, t, t'; intros H; try reflexivity; congruence. Qed.

Lemma same_config_refl x : same_config x x.
Proof. repeat split. Qed.

Lemma same_config_trans x y z :
  same_config x y -> same_config y z -> same_config x z.
Proof. unfold same_config. intuition congruence. Qed.

Lemma same_config_set_tbl x t l : same_config x (set_tbl x t l).
Proof. destruct x, t; repeat split. Qed.

Lemma same_config_poke x t i a : same_config x (poke x t i a).
Proof. apply same_config_set_tbl. Qed.

Lemma fftSize_poke x t i a : fftSize (poke x t i a) = fftSize x.
Proof. apply (same_config_poke x t i a). Qed.

Lemma wf_poke x t i a : wf x -> wf (poke x t i a).
Proof.
  intros [Hfs Hlen]. split; [now rewrite fftSize_poke|].
  intros t'. rewrite fftSize_poke. unfold poke.
  destruct (decide (t = t')) as [<-|Hne].
  - rewrite tbl_set_tbl_eq, length_insert. apply Hlen.
  - rewrite tbl_set_tbl_ne by exact Hne. apply Hlen.
Qed.

Lemma cell_poke_eq x t i a :
  wf x -> 0 <= i < fftSize x -> cell (poke x t i a) t i = a.
Proof.
  intros [_ Hlen] Hi. unfold cell, poke.
  rewrite tbl_set_tbl_eq, list_lookup_insert_eq; [reflexivity|].
  rewrite Hlen. lia.
Qed.

Lemma cell_poke_tbl x t t' i j a :
  t <> t' -> cell (poke x t i a) t' j = cell x t' j.
Proof.
  intros Hne. unfold cell, poke. now rewrite tbl_set_tbl_ne.
Qed.

Lemma cell_poke_bin x t t' i j a :
  0 <= i -> 0 <= j -> i <> j -> cell (poke x t i a) t' j = cell x t' j.
Proof.
  intros Hi Hj Hne. unfold cell, poke.
  destruct (decide (t = t')) as [<-|Ht].
  - rewrite tbl_set_tbl_eq, list_lookup_insert_ne; [reflexivity | lia].
  - now rewrite tbl_set_tbl_ne.
Qed.

Lemma tbl_get_inside (l : list t_atom) (i : Z) :
  0 <= i < Z.of_nat (length l) ->
  tbl_get l i = Some (default A_NOTHING (l !! Z.to_nat i)).
Proof.
  intros Hi. unfold tbl_get.
  destruct (i <? 0) eqn:E; [lia|].
  destruct (lookup_lt_is_Some_2 l (Z.to_nat i)) as [a Ha]; [lia|].
  now rewrite Ha.
Qed.

Lemma tbl_get_outside (l : list t_atom) (i : Z) :
  ~ 0 <= i < Z.of_nat (length l) -> tbl_get l i = None.
Proof.
  intros Hi. unfold tbl_get.
  destruct (i <? 0) eqn:E; [reflexivity|].
  apply lookup_ge_None. lia.
Qed.

Lemma load_ok x g t i :
  wf x -> 0 <= i < fftSize x -> load t i (x, g) = Some (cell x t i, (x, g)).
Proof.
  intros [Hfs Hlen] Hi. unfold load, cell. simpl fst.
  rewrite tbl_get_inside; [reflexivity|]. rewrite Hlen. lia.
Qed.

Lemma load_fault x g t i :
  wf x -> ~ 0 <= i < fftSize x -> load t i (x, g) = None.
Proof.
  intros [Hfs Hlen] Hi. unfold load. simpl fst.
  rewrite tbl_get_outside; [reflexivity|]. rewrite Hlen. lia.
Qed.

Lemma store_ok x g t i a :
  wf x -> 0 <= i < fftSize x ->
  store t i a (x, g) = Some (tt, (poke x t i a, g)).
Proof.
  intros [Hfs Hlen] Hi. unfold store, tbl_put, poke. simpl fst. simpl snd.
  rewrite Hlen.
  destruct (Z.leb_spec 0 i); [|lia].
  destruct (Z.ltb_spec i (Z.of_nat (Z.to_nat (fftSize x)))); [|lia].
  reflexivity.
Qed.

(** Running the first action of a sequence. *)
Lemma run_this {B} (k : t_interp -> M B) x g :
  bind this k (x, g) = k x (x, g).
Proof. reflexivity. Qed.

Lemma run_random {B} (k : Z -> M B) x g :
  bind random k (x, g) = k (g 0%nat) (x, rng_tail g).
Proof. reflexivity. Qed.

Lemma run_ret {A B} (a : A) (k : A -> M B) w : bind (ret a) k w = k a w.
Proof. reflexivity. Qed.

Lemma run_assoc {A B C} (m : M A) (f : A -> M B) (k : B -> M C) w :
  bind (bind m f) k w = bind m (fun a => bind (f a) k) w.
Proof. unfold bind. destruct (m w) as [[a w']|]; reflexivity. Qed.

Lemma run_getfloat {B} t i (k : Q -> M B) x g :
  wf x -> 0 <= i < fftSize x ->
  bind (getfloat t i) k (x, g) = k (atom_getfloat (cell x t i)) (x, g).
Proof.
  intros Hwf Hi. unfold getfloat, bind. now rewrite load_ok.
Qed.

Lemma run_getlong {B} t i (k : Z -> M B) x g :
  wf x -> 0 <= i < fftSize x ->
  bind (getlong t i) k (x, g) = k (atom_getlong (cell x t i)) (x, g).
Proof.
  intros Hwf Hi. unfold getlong, bind. now rewrite load_ok.
Qed.

Lemma run_setfloat {B} t i f (k : unit -> M B) x g :
  wf x -> 0 <= i < fftSize x ->
  bind (setfloat t i f) k (x, g) = k tt (poke x t i (A_FLOAT f), g).
Proof.
  intros Hwf Hi. unfold setfloat, bind. now rewrite store_ok.
Qed.

Lemma run_setlong {B} t i n (k : unit -> M B) x g :
  wf x -> 0 <= i < fftSize x ->
  bind (setlong t i n) k (x, g) = k tt (poke x t i (A_LONG n), g).
Proof.
  intros Hwf Hi. unfold setlong, bind. now rewrite store_ok.
Qed.

Lemma end_setlong t i n x g :
  wf x -> 0 <= i < fftSize x ->
  setlong t i n (x, g) = Some (tt, (poke x t i (A_LONG n), g)).
Proof. intros Hwf Hi. unfold setlong. now rewrite store_ok. Qed.

End Tables.

(** Side conditions of a run: the object is well formed and the offset
    lies in the tables. *)
Ltac in_tables :=
  solve [ repeat apply wf_poke; assumption
        | rewrite ?fftSize_poke; (assumption || lia) ].

(** One action of a sequence run on a well-formed object. *)
Ltac run_step :=
  first [ rewrite run_assoc
        | rewrite run_this
        | rewrite run_random
        | rewrite run_ret
        | rewrite run_getfloat by in_tables
        | rewrite run_getlong by in_tables
        | rewrite run_setfloat by in_tables
        | rewrite run_setlong by in_tables
        | rewrite end_setlong by in_tables ];
  cbv beta zeta.

(** The configuration survives a chain of [poke]s. *)
Ltac same_config_chain :=
  repeat (eapply same_config_trans; [|apply same_config_poke]);
  apply same_config_refl.

(** Cells of an object reached by a chain of [poke]s. *)
Ltac cells :=
  repeat first
    [ rewrite cell_poke_eq by in_tables
    | rewrite cell_poke_tbl by (discriminate || congruence)
    | rewrite cell_poke_bin by lia ].

(** ** The random duration *)

Section Draw.

Lemma scale_range (r : Z) :
  0 <= r <= RAND_MAX ->
  (0 <= inject_Z r / inject_Z RAND_MAX)%Q /\
  (inject_Z r / inject_Z RAND_MAX <= 1)%Q.
Proof.
  intros [H0 H1].
  assert (0 < inject_Z RAND_MAX)%Q as Hpos by reflexivity.
  split.
  - apply Qle_shift_div_l; [exact Hpos|].
    rewrite Qmult_0_l. change 0%Q with (inject_Z 0). now rewrite <- Zle_Qle.
  - apply Qle_shift_div_r; [exact Hpos|].
    rewrite Qmult_1_l. now rewrite <- Zle_Qle.
Qed.

Lemma irand_bounds (r min max : Z) :
  0 <= r <= RAND_MAX -> min <= max -> min <= irand r min max <= max.
Proof.
  intros Hr Hmm. unfold irand.
  destruct (scale_range r Hr) as [S0 S1].
  set (scale := (inject_Z r / inject_Z RAND_MAX)%Q) in *.
  assert (0 <= inject_Z (max - min))%Q as Hd.
  { change 0%Q with (inject_Z 0). rewrite <- Zle_Qle. lia. }
  apply Qtrunc_between.
  - rewrite <- (Qplus_0_r (inject_Z min)) at 1.
    apply Qplus_le_r. now apply Qmult_le_0_compat.
  - assert (inject_Z max == inject_Z min + 1 * inject_Z (max - min))%Q as ->.
    { rewrite Qmult_1_l, <- inject_Z_plus. f_equiv. lia. }
    apply Qplus_le_r. now apply Qmult_le_compat_r.
Qed.

Lemma irand_degenerate (r m : Z) : irand r m m = m.
Proof.
  unfold irand. rewrite Z.sub_diag.
  rewrite (Qtrunc_comp _ (inject_Z m)); [apply Qtrunc_inject_Z|].
  change (inject_Z 0) with 0%Q. rewrite Qmult_0_r. apply Qplus_0_r.
Qed.

End Draw.

(** ** What one target acquisition leaves behind *)

Lemma updateTarget_runs (x : t_interp) (g : rng) (mag phase fftBin : Q) :
  wf x ->
  exists y,
    updateTarget mag phase fftBin (x, g) = Some (tt, (y, rng_tail g)) /\
    acquired x (target_bin x fftBin)
      (irand (g 0%nat) (interpMin x) (interpMax x)) mag phase y.
Proof.
  intros Hwf.
  pose proof (target_bin_range x fftBin (proj1 Hwf)) as Hb.
  unfold updateTarget. run_step.
  set (b := target_bin x fftBin) in *.
  repeat run_step. cells.
  eexists; split; [reflexivity|].
  unfold acquired. cells.
  split; [in_tables|]. split; [same_config_chain|].
  repeat (split; [reflexivity|]).
  split; [|split].
  - intros j. now cells.
  - intros j. now cells.
  - intros t j Hj Hne. now cells.
Qed.

(** ** What one frame of the step loop leaves behind *)

Lemma step_frame_runs (x : t_interp) (g : rng) (s : sample) :
  wf x ->
  exists out y,
    step_frame s (x, g) = Some (out, (y, g)) /\
    stepped x (step_bin x (in_index s)) out y.
Proof.
  intros Hwf.
  pose proof (step_bin_range x (in_index s) (proj1 Hwf)) as Hb.
  unfold step_frame. run_step.
  set (b := step_bin x (in_index s)) in *.
  repeat run_step. cells. unfold stepped. cbv zeta.
  destruct (atom_getlong (cell x FrameCount b) + 1 >=?
            atom_getlong (cell x TotalFrames b)) eqn:E.
  - repeat run_step. unfold ret.
    eexists _, _; split; [reflexivity|]. cells.
    split; [in_tables|]. split; [same_config_chain|].
    repeat (split; [reflexivity|]).
    split; [split; reflexivity|]. split.
    + intros t j ? ? ? ?. now cells.
    + intros t j ? ?. now cells.
  - repeat run_step. unfold ret.
    eexists _, _; split; [reflexivity|]. cells.
    split; [in_tables|]. split; [same_config_chain|].
    repeat (split; [reflexivity|]).
    split; [split; reflexivity|]. split.
    + intros t j ? ? ? ?. now cells.
    + intros t j ? ?. now cells.
Qed.

(** ** The refresh loop *)

Section Refresh.

Lemma wf_carry x i : wf x -> wf (carry x i).
Proof. intros H. unfold carry. in_tables. Qed.

Lemma same_config_carry x i : same_config x (carry x i).
Proof. unfold carry. same_config_chain. Qed.

Lemma target_bin_config x y q :
  same_config x y -> target_bin y q = target_bin x q.
Proof. intros [E _]. unfold target_bin. now rewrite E. Qed.

Lemma step_bin_config x y q :
  same_config x y -> step_bin y q = step_bin x q.
Proof. intros [E _]. unfold step_bin. now rewrite E. Qed.

(** A position whose flag is clear is left alone. *)
Lemma refresh_at_idle x g i s :
  wf x -> 0 <= i < fftSize x ->
  atom_getlong (cell x UpdateTarget i) = 0 ->
  refresh_at i s (x, g) = Some (tt, (x, g)).
Proof.
  intros Hwf Hi Hflag. unfold refresh_at. run_step.
  rewrite Hflag. reflexivity.
Qed.

(** A position whose flag is set: the carry, then the acquisition. *)
Lemma refresh_at_fires x g i s :
  wf x -> 0 <= i < fftSize x ->
  atom_getlong (cell x UpdateTarget i) <> 0 ->
  refresh_at i s (x, g) =
    updateTarget (in_mag s) (in_phase s) (in_index s) (carry x i, g).
Proof.
  intros Hwf Hi Hflag. unfold refresh_at. run_step.
  destruct (Z.eqb_spec (atom_getlong (cell x UpdateTarget i)) 0) as [E|_];
    [contradiction|].
  cbn [negb]. repeat run_step. cells. reflexivity.
Qed.

Lemma refresh_at_spec_fires x g i s :
  wf x -> 0 <= i < fftSize x ->
  atom_getlong (cell x UpdateTarget i) <> 0 ->
  refresh_at_spec i s (x, g) =
    updateTarget (in_mag s) (in_phase s) (inject_Z i) (carry x i, g).
Proof.
  intros Hwf Hi Hflag. unfold refresh_at_spec. run_step.
  destruct (Z.eqb_spec (atom_getlong (cell x UpdateTarget i)) 0) as [E|_];
    [contradiction|].
  cbn [negb]. repeat run_step. cells. reflexivity.
Qed.

(** A position past the end of the tables: the flag read faults. *)
Lemma refresh_at_fault x g i s :
  wf x -> ~ 0 <= i < fftSize x -> refresh_at i s (x, g) = None.
Proof.
  intros Hwf Hi. unfold refresh_at, getlong.
  rewrite run_assoc. unfold bind at 1. now rewrite load_fault.
Qed.

(** [updateTarget] only looks at the bin its index resolves to. *)
Lemma updateTarget_bin x g mag phase q q' :
  target_bin x q = target_bin x q' ->
  updateTarget mag phase q (x, g) = updateTarget mag phase q' (x, g).
Proof.
  intros E. unfold updateTarget. rewrite !run_this. cbv zeta.
  now rewrite E.
Qed.

Lemma refresh_at_runs x g i s :
  wf x -> 0 <= i < fftSize x ->
  exists y g', refresh_at i s (x, g) = Some (tt, (y, g')) /\
               wf y /\ same_config x y.
Proof.
  intros Hwf Hi.
  destruct (Z.eq_dec (atom_getlong (cell x UpdateTarget i)) 0) as [E|E].
  - exists x, g. rewrite refresh_at_idle by assumption.
    auto using same_config_refl.
  - rewrite refresh_at_fires by assumption.
    destruct (updateTarget_runs (carry x i) g (in_mag s) (in_phase s)
                (in_index s) (wf_carry x i Hwf)) as (y & Hrun & Hy & Hc & _).
    exists y, (rng_tail g). split; [exact Hrun|]. split; [exact Hy|].
    eapply same_config_trans; [apply same_config_carry | exact Hc].
Qed.

(** The whole loop runs without a fault exactly when the positions it
    still has to visit all lie inside the tables. *)
Lemma refresh_loop_runs_iff blk : forall i x g,
  wf x -> 0 <= i ->
  (is_Some (refresh_loop i blk (x, g)) <->
   blk = [] \/ i + Z.of_nat (length blk) <= fftSize x).
Proof.
  induction blk as [|s rest IH]; intros i x g Hwf Hi.
  - split; [now left | intros _; now eexists].
  - cbn [refresh_loop length]. unfold bind.
    destruct (Z_lt_le_dec i (fftSize x)) as [Hin|Hout].
    + destruct (refresh_at_runs x g i s Hwf (conj Hi Hin))
        as (y & g' & -> & Hy & Hc).
      rewrite (IH (i + 1) y g' Hy ltac:(lia)).
      destruct Hc as [-> _]. split.
      * intros [->|H]; right; cbn [length]; lia.
      * intros [H|H]; [discriminate|].
        destruct rest; [now left | right; cbn [length] in *; lia].
    + rewrite refresh_at_fault by (assumption || lia). split.
      * intros [? H]. discriminate.
      * intros [H|H]; [discriminate|lia].
Qed.

End Refresh.

(** ** The refresh loop on a block indexed by position *)

Section ByPosition.

Lemma indexed_by_position_tail x i0 s rest :
  indexed_by_position x i0 (s :: rest) ->
  target_bin x (in_index s) = i0 /\ indexed_by_position x (i0 + 1) rest.
Proof.
  intros H. split.
  - rewrite (H 0%nat s eq_refl). lia.
  - intros k s' Hk. rewrite (H (S k) s' Hk). lia.
Qed.

Lemma indexed_by_position_fftSize x y i0 blk :
  fftSize y = fftSize x -> indexed_by_position x i0 blk ->
  indexed_by_position y i0 blk.
Proof.
  intros E H k s Hk. unfold target_bin. rewrite E. now apply H.
Qed.

Lemma indexed_by_position_config x y i0 blk :
  same_config x y -> indexed_by_position x i0 blk ->
  indexed_by_position y i0 blk.
Proof. intros [E _]. now apply indexed_by_position_fftSize. Qed.

(** A flagged position whose index resolves to it. *)
Lemma refresh_at_own_bin x g i s :
  wf x -> 0 <= i < fftSize x ->
  atom_getlong (cell x UpdateTarget i) <> 0 ->
  target_bin x (in_index s) = i ->
  exists y,
    refresh_at i s (x, g) = Some (tt, (y, rng_tail g)) /\
    wf y /\ same_config x y /\ refreshed x y i s /\
    (forall t j, 0 <= j -> j <> i -> cell y t j = cell x t j).
Proof.
  intros Hwf Hi Hflag Hbin.
  rewrite refresh_at_fires by assumption.
  destruct (updateTarget_runs (carry x i) g (in_mag s) (in_phase s)
              (in_index s) (wf_carry x i Hwf))
    as (y & Hrun & Hy & Hc & HtM & HtP & HT & HiM & HiP & HU & HF
          & HcM & HcP & Hoth).
  rewrite (target_bin_config x _ _ (same_config_carry x i)), Hbin in *.
  exists y. split; [exact Hrun|]. split; [exact Hy|].
  split; [eapply same_config_trans; [apply same_config_carry | exact Hc]|].
  assert (cell (carry x i) CurrMag i =
          A_FLOAT (atom_getfloat (cell x TargetMag i))) as EM
    by (unfold carry; now cells).
  assert (cell (carry x i) CurrPhase i =
          A_FLOAT (atom_getfloat (cell x TargetPhase i))) as EP
    by (unfold carry; now cells).
  rewrite EM in HiM. rewrite EP in HiP. split.
  - split; [intros E; contradiction|]. intros _.
    rewrite (HcM i), (HcP i), EM, EP, HtM, HtP, HiM, HiP, HT, HU, HF.
    cbn [atom_getfloat atom_getlong]. repeat split; reflexivity.
  - intros t j Hj Hne. rewrite Hoth by assumption. unfold carry. now cells.
Qed.

(** On a block indexed by position that fits the tables, the refresh loop
    runs, leaves the positions outside the block alone and refreshes each
    position of the block from the state the block started in. *)
Lemma refresh_loop_by_position blk : forall i0 x g,
  wf x -> 0 <= i0 -> i0 + Z.of_nat (length blk) <= fftSize x ->
  indexed_by_position x i0 blk ->
  exists y g',
    refresh_loop i0 blk (x, g) = Some (tt, (y, g')) /\
    wf y /\ same_config x y /\
    (forall t j, 0 <= j < i0 -> cell y t j = cell x t j) /\
    (forall (k : nat) s, blk !! k = Some s ->
       refreshed x y (i0 + Z.of_nat k) s).
Proof.
  induction blk as [|s rest IH]; intros i0 x g Hwf Hi0 Hlen Hidx.
  - exists x, g. split; [reflexivity|]. split; [exact Hwf|].
    split; [apply same_config_refl|]. split; [reflexivity|].
    intros k s Hk. discriminate Hk.
  - cbn [length] in Hlen. cbn [refresh_loop]. unfold bind.
    destruct (indexed_by_position_tail x i0 s rest Hidx) as [Hbin Hrest].
    assert (exists y1 g1,
              refresh_at i0 s (x, g) = Some (tt, (y1, g1)) /\
              wf y1 /\ same_config x y1 /\ refreshed x y1 i0 s /\
              (forall t j, 0 <= j -> j <> i0 -> cell y1 t j = cell x t j))
      as (y1 & g1 & -> & Hy1 & Hc1 & Hr1 & Hoth1).
    { destruct (Z.eq_dec (atom_getlong (cell x UpdateTarget i0)) 0) as [E|E].
      - exists x, g. rewrite refresh_at_idle by (assumption || lia).
        split; [reflexivity|]. split; [exact Hwf|].
        split; [apply same_config_refl|]. split; [|reflexivity].
        split; [reflexivity | intros C; contradiction].
      - destruct (refresh_at_own_bin x g i0 s Hwf ltac:(lia) E Hbin)
          as (y1 & H1 & H2 & H3 & H4 & H5).
        now exists y1, (rng_tail g). }
    destruct (IH (i0 + 1) y1 g1 Hy1 ltac:(lia)
                ltac:(destruct Hc1 as [-> _]; lia)
                (indexed_by_position_config x y1 _ _ Hc1 Hrest))
      as (y & g' & Hrun & Hy & Hc & Hlow & Hpos).
    exists y, g'. split; [exact Hrun|]. split; [exact Hy|].
    split; [eapply same_config_trans; eassumption|]. split.
    + intros t j Hj. rewrite Hlow by lia. apply Hoth1; lia.
    + intros [|k] s' Hk.
      * cbn in Hk. injection Hk as <-.
        replace (i0 + Z.of_nat 0) with i0 by lia.
        destruct Hr1 as [Hidle Hfire]. split.
        -- intros E t. rewrite Hlow by lia. now apply Hidle.
        -- intros E. rewrite !(Hlow _ i0) by lia. now apply Hfire.
      * cbn in Hk. specialize (Hpos k s' Hk).
        replace (i0 + Z.of_nat (S k)) with (i0 + 1 + Z.of_nat k) by lia.
        set (j := i0 + 1 + Z.of_nat k) in *.
        assert (forall t, cell y1 t j = cell x t j) as E1
          by (intros t; apply Hoth1; lia).
        destruct Hpos as [Hidle Hfire]. split.
        -- intros E t. rewrite <- E1. apply Hidle. now rewrite E1.
        -- intros E. rewrite <- (E1 UpdateTarget) in E.
           specialize (Hfire E). now rewrite !E1 in Hfire.
Qed.

(** The step loop runs on a well-formed object and touches neither the
    targets nor the increments nor the durations. *)
Lemma step_loop_runs blk : forall x g,
  wf x ->
  exists outs y,
    step_loop blk (x, g) = Some (outs, (y, g)) /\
    wf y /\ same_config x y /\
    (forall t j, t <> CurrMag -> t <> CurrPhase -> t <> FrameCount ->
                 t <> UpdateTarget -> cell y t j = cell x t j).
Proof.
  induction blk as [|s rest IH]; intros x g Hwf.
  - exists [], x. split; [reflexivity|]. split; [exact Hwf|].
    split; [apply same_config_refl | reflexivity].
  - cbn [step_loop].
    destruct (step_frame_runs x g s Hwf)
      as (out & y1 & Hrun & Hy1 & Hc1 & _ & _ & _ & _ & Hoth & _).
    destruct (IH y1 g Hy1) as (outs & y & Hrun' & Hy & Hc & Hoth').
    exists (out :: outs), y.
    split; [unfold bind; rewrite Hrun, Hrun'; reflexivity|].
    split; [exact Hy|].
    split; [eapply same_config_trans; eassumption|].
    intros t j ? ? ? ?. rewrite Hoth' by assumption. now apply Hoth.
Qed.

(** A whole block indexed by position on an object whose flags are all
    set: every position of the block acquires its inputs as targets. *)
Lemma perform_captures_inputs x g blk :
  wf x -> Z.of_nat (length blk) <= fftSize x ->
  indexed_by_position x 0 blk ->
  (forall j, 0 <= j < fftSize x -> atom_getlong (cell x UpdateTarget j) <> 0) ->
  exists outs z g',
    interp_perform64 blk (x, g) = Some (outs, (z, g')) /\
    forall (k : nat) s, blk !! k = Some s ->
      cell z TargetMag (Z.of_nat k) = A_FLOAT (in_mag s) /\
      cell z TargetPhase (Z.of_nat k) = A_FLOAT (in_phase s).
Proof.
  intros Hwf Hlen Hidx Hflags.
  destruct (refresh_loop_by_position blk 0 x g Hwf ltac:(lia) ltac:(lia) Hidx)
    as (y & g' & Hrun & Hy & _ & _ & Hpos).
  destruct (step_loop_runs blk y g' Hy) as (outs & z & Hrun' & _ & _ & Hoth).
  exists outs, z, g'. split.
  - unfold interp_perform64, bind. now rewrite Hrun.
  - intros k s Hk.
    pose proof (lookup_lt_Some _ _ _ Hk) as Hlt.
    destruct (Hpos k s Hk) as [_ Hfire].
    destruct Hfire as (_ & _ & HtM & HtP & _); [apply Hflags; lia|].
    rewrite !Hoth by discriminate. now split.
Qed.

End ByPosition.

(** ** Starting the DSP chain *)

Lemma dsp64_loop_runs n : forall i x g,
  wf x -> 0 <= i -> i + Z.of_nat n = fftSize x ->
  exists y,
    dsp64_loop n i (x, g) = Some (tt, (y, g)) /\
    wf y /\ same_config x y /\
    (forall j, i <= j < fftSize x -> cell y UpdateTarget j = A_LONG 1) /\
    (forall j, 0 <= j < i -> cell y UpdateTarget j = cell x UpdateTarget j) /\
    (forall t j, t <> UpdateTarget -> cell y t j = cell x t j).
Proof.
  induction n as [|n IH]; intros i x g Hwf Hi Hn.
  - exists x. repeat split; try apply Hwf; auto. intros j Hj. lia.
  - cbn [dsp64_loop]. run_step.
    destruct (IH (i + 1) (poke x UpdateTarget i (A_LONG 1)) g)
      as (y & Hrun & Hy & Hc & Hset & Hkeep & Hoth).
    { in_tables. } { lia. } { rewrite fftSize_poke. lia. }
    exists y. split; [exact Hrun|]. split; [exact Hy|].
    split; [eapply same_config_trans; [apply same_config_poke | exact Hc]|].
    rewrite fftSize_poke in Hset. split; [|split].
    + intros j Hj. destruct (Z.eq_dec j i) as [->|Hne].
      * rewrite Hkeep by lia. now cells.
      * apply Hset. lia.
    + intros j Hj. rewrite Hkeep by lia. now cells.
    + intros t j Ht. rewrite Hoth by exact Ht. now cells.
Qed.

Lemma interp_dsp64_runs x g samplerate :
  wf x ->
  exists y,
    interp_dsp64 samplerate (x, g) = Some (tt, (y, g)) /\
    wf y /\ sampleRate y = Qtrunc samplerate /\ fftSize y = fftSize x /\
    interpLengthSecs y = interpLengthSecs x /\
    interpVarianceSecs y = interpVarianceSecs x /\
    interpLengthFrames y = interpLengthFrames x /\
    interpVarianceFrames y = interpVarianceFrames x /\
    interpMin y = interpMin x /\ interpMax y = interpMax x /\
    (forall j, 0 <= j < fftSize x -> cell y UpdateTarget j = A_LONG 1) /\
    (forall t j, t <> UpdateTarget -> cell y t j = cell x t j).
Proof.
  intros Hwf. unfold interp_dsp64.
  destruct x as [fs sr cm cp tm tp im ip tf fc ut ls vs lf vf mn mx].
  set (x1 := mk_interp fs (Qtrunc samplerate) cm cp tm tp im ip tf fc ut
               ls vs lf vf mn mx).
  assert (wf x1) as Hwf1 by exact Hwf.
  change (bind (set_sampleRate (Qtrunc samplerate)) ?k (?x, g))
    with (k tt (x1, g)).
  cbv beta. run_step.
  destruct (dsp64_loop_runs (Z.to_nat (fftSize x1)) 0 x1 g Hwf1)
    as (y & Hrun & Hy & Hc & Hset & _ & Hoth).
  { lia. } { destruct Hwf1. lia. }
  exists y. split; [exact Hrun|]. split; [exact Hy|].
  destruct Hc as (? & ? & ? & ? & ? & ? & ? & ?).
  repeat split; try assumption.
Qed.

(** ** Configuration: the derived frame counts *)

Lemma secondsToFrames_nonneg (seconds : Q) (sr fs : Z) :
  (0 <= seconds)%Q -> 0 <= sr -> 1 <= fs -> 0 <= secondsToFrames seconds sr fs.
Proof.
  intros Hs Hsr Hfs. unfold secondsToFrames.
  rewrite <- (Qtrunc_inject_Z 0). apply Qtrunc_mono.
  change (inject_Z 0) with 0%Q.
  apply Qle_shift_div_l.
  - change 0%Q with (inject_Z 0). rewrite <- Zlt_Qlt. lia.
  - rewrite Qmult_0_l. apply Qmult_le_0_compat; [exact Hs|].
    change 0%Q with (inject_Z 0). now rewrite <- Zle_Qle.
Qed.

Lemma setInterpolationTime_bounds (x : t_interp) (l v : Q) :
  0 <= sampleRate x -> 1 <= fftSize x ->
  1 <= interpMin (setInterpolationTime x l v)
    <= interpMax (setInterpolationTime x l v).
Proof.
  intros Hsr Hfs.
  destruct x as [fs sr cm cp tm tp im ip tf fc ut ls vs lf vf mn mx].
  cbn [sampleRate fftSize] in *.
  cbn [setInterpolationTime interpMin interpMax].
  assert (0 <= secondsToFrames (CLAMP v MIN_VARIANCE MAX_VARIANCE) sr fs) as Hv.
  { apply secondsToFrames_nonneg; try assumption.
    apply (CLAMP_range v MIN_VARIANCE MAX_VARIANCE). discriminate. }
  set (V := secondsToFrames (CLAMP v MIN_VARIANCE MAX_VARIANCE) sr fs) in *.
  set (L0 := secondsToFrames (CLAMP l MIN_LENGTH MAX_LENGTH) sr fs).
  unfold MIN_INTERP_FRAMES.
  destruct (Z.ltb_spec L0 1); destruct (Z.leb_spec (1 - V) 0);
    destruct (Z.leb_spec (L0 - V) 0); lia.
Qed.

Lemma interp_new_config (sr : Z) (pfft : option Z) (argv : list t_atom) :
  exists l v x,
    fftSize x = getFFTSize pfft /\ sampleRate x = sr /\
    same_config (setInterpolationTime x l v) (interp_new sr pfft argv).
Proof.
  unfold interp_new. cbv zeta.
  eexists _, _, (mk_interp (getFFTSize pfft) sr [] [] [] [] [] [] [] [] []
                   0 0 0 0 0 0).
  split; [reflexivity|]. split; [reflexivity|].
  repeat (eapply same_config_trans; [|apply same_config_set_tbl]).
  apply same_config_refl.
Qed.

(** ** Single precision: [f32] is rounding to the nearest [float] *)

Section SinglePrecision.

Lemma Qpow2_nonneg_exp (e : Z) : 0 <= e -> Qpow2 e = inject_Z (2 ^ e).
Proof.
  intros H. destruct e as [|p|p]; [reflexivity | reflexivity | lia].
Qed.

Lemma Qpow2_neg_exp (e : Z) : e < 0 -> (Qpow2 e == / inject_Z (2 ^ (- e)))%Q.
Proof.
  intros H. destruct e as [|p|p]; try lia. cbn [Qpow2].
  change (2 ^ (- Z.neg p)) with (Z.pow_pos 2 p).
  rewrite <- (Pos2Z.inj_pow_pos 2 p). reflexivity.
Qed.

Lemma Qpow2_pos (e : Z) : (0 < Qpow2 e)%Q.
Proof.
  destruct (Z_lt_le_dec e 0) as [H|H].
  - rewrite (Qpow2_neg_exp e H). apply Qinv_lt_0_compat.
    change 0%Q with (inject_Z 0). rewrite <- Zlt_Qlt. lia.
  - rewrite (Qpow2_nonneg_exp e H).
    change 0%Q with (inject_Z 0). rewrite <- Zlt_Qlt. lia.
Qed.

Lemma Qpow2_succ (e : Z) : (Qpow2 (e + 1) == 2 * Qpow2 e)%Q.
Proof.
  destruct (Z_lt_le_dec e 0) as [H|H].
  - destruct (Z.eq_dec e (-1)) as [->|Hne]; [reflexivity|].
    rewrite (Qpow2_neg_exp e H), (Qpow2_neg_exp (e + 1)) by lia.
    replace (- e) with (- (e + 1) + 1) by lia.
    rewrite Z.pow_add_r, inject_Z_mult by lia.
    change (inject_Z (2 ^ 1)) with 2%Q.
    field. change 0%Q with (inject_Z 0). rewrite inject_Z_injective. lia.
  - rewrite !Qpow2_nonneg_exp by lia.
    rewrite Z.pow_add_r, inject_Z_mult by lia.
    change (inject_Z (2 ^ 1)) with 2%Q. ring.
Qed.

Lemma Qpow2_add (a b : Z) : (Qpow2 (a + b) == Qpow2 a * Qpow2 b)%Q.
Proof.
  assert (forall (n : nat) a,
            (Qpow2 (a + Z.of_nat n) == Qpow2 a * Qpow2 (Z.of_nat n))%Q) as Hn.
  { induction n as [|n IH]; intros a0.
    - change (Z.of_nat 0) with 0. rewrite Z.add_0_r.
      change (Qpow2 0) with 1%Q. ring.
    - rewrite Nat2Z.inj_succ. unfold Z.succ.
      rewrite Z.add_assoc, !Qpow2_succ, IH. ring. }
  destruct (Z_lt_le_dec b 0) as [H|H].
  - specialize (Hn (Z.to_nat (- b)) (a + b)).
    rewrite Z2Nat.id in Hn by lia.
    replace (a + b + - b) with a in Hn by lia.
    pose proof (Hn' := Hn).
    assert (Qpow2 b * Qpow2 (- b) == 1)%Q as E.
    { rewrite (Qpow2_neg_exp b H), (Qpow2_nonneg_exp (- b)) by lia.
      field. change 0%Q with (inject_Z 0). rewrite inject_Z_injective. lia. }
    rewrite Hn. rewrite <- Qmult_assoc, (Qmult_comm (Qpow2 (- b))), E. ring.
  - specialize (Hn (Z.to_nat b) a). now rewrite Z2Nat.id in Hn by lia.
Qed.

Lemma Qpow2_mono (a b : Z) : a <= b -> (Qpow2 a <= Qpow2 b)%Q.
Proof.
  intros H. replace b with (a + (b - a)) by lia.
  rewrite Qpow2_add, (Qpow2_nonneg_exp (b - a)) by lia.
  rewrite <- (Qmult_1_r (Qpow2 a)) at 1.
  apply Qmult_le_l; [apply Qpow2_pos|].
  change 1%Q with (inject_Z 1). rewrite <- Zle_Qle. lia.
Qed.

Lemma Qpow2_quot (a b : Z) :
  0 <= a -> 0 <= b -> (Qpow2 (a - b) == inject_Z (2 ^ a) / inject_Z (2 ^ b))%Q.
Proof.
  intros Ha Hb.
  rewrite <- (Qpow2_nonneg_exp a Ha).
  replace a with ((a - b) + b) at 2 by lia.
  rewrite (Qpow2_add (a - b) b), (Qpow2_nonneg_exp b Hb).
  field. change 0%Q with (inject_Z 0). rewrite inject_Z_injective. lia.
Qed.

Lemma Zquot_Qlt (n d m e : Z) :
  0 < d -> 0 < e -> n * e < m * d ->
  (inject_Z n / inject_Z d < inject_Z m / inject_Z e)%Q.
Proof.
  intros Hd He H.
  assert (0 < inject_Z d)%Q as Hd'
    by (change 0%Q with (inject_Z 0); now rewrite <- Zlt_Qlt).
  assert (0 < inject_Z e)%Q as He'
    by (change 0%Q with (inject_Z 0); now rewrite <- Zlt_Qlt).
  apply Qlt_shift_div_r; [exact Hd'|].
  setoid_replace (inject_Z m / inject_Z e * inject_Z d)%Q
    with ((inject_Z m * inject_Z d) / inject_Z e)%Q using relation Qeq
    by (field; intros C; rewrite C in He'; discriminate).
  apply Qlt_shift_div_l; [exact He'|].
  rewrite <- !inject_Z_mult, <- Zlt_Qlt. exact H.
Qed.

Lemma Zquot_Qle (n d m e : Z) :
  0 < d -> 0 < e -> n * e <= m * d ->
  (inject_Z n / inject_Z d <= inject_Z m / inject_Z e)%Q.
Proof.
  intros Hd He H.
  assert (0 < inject_Z d)%Q as Hd'
    by (change 0%Q with (inject_Z 0); now rewrite <- Zlt_Qlt).
  assert (0 < inject_Z e)%Q as He'
    by (change 0%Q with (inject_Z 0); now rewrite <- Zlt_Qlt).
  apply Qle_shift_div_r; [exact Hd'|].
  setoid_replace (inject_Z m / inject_Z e * inject_Z d)%Q
    with ((inject_Z m * inject_Z d) / inject_Z e)%Q using relation Qeq
    by (field; intros C; rewrite C in He'; discriminate).
  apply Qle_shift_div_l; [exact He'|].
  rewrite <- !inject_Z_mult, <- Zle_Qle. exact H.
Qed.

(** [Qilog2 q] is the exponent of the binade of [q]. *)
Lemma Qilog2_spec (q : Q) :
  (0 < q)%Q ->
  (Qpow2 (Qilog2 q) <= q)%Q /\ (q < Qpow2 (Qilog2 q + 1))%Q.
Proof.
  intros Hq. destruct q as [n d]. unfold Qilog2. cbn [Qnum Qden].
  assert (0 < n) as Hn by (unfold Qlt in Hq; cbn in Hq; lia).
  destruct (Z.log2_spec n Hn) as [Ha1 Ha2].
  destruct (Z.log2_spec (Z.pos d) ltac:(lia)) as [Hb1 Hb2].
  pose proof (Z.log2_nonneg n) as Ha0.
  pose proof (Z.log2_nonneg (Z.pos d)) as Hb0.
  set (a := Z.log2 n) in *. set (b := Z.log2 (Z.pos d)) in *.
  unfold Z.succ in *.
  assert (n # d == inject_Z n / inject_Z (Z.pos d))%Q as Eq by apply Qmake_Qdiv.
  assert (0 < 2 ^ a /\ 0 < 2 ^ b) as [Hpa Hpb] by (split; lia).
  assert (2 ^ (a + 1) = 2 * 2 ^ a) as Ea by (rewrite Z.pow_add_r by lia; lia).
  assert (2 ^ (b + 1) = 2 * 2 ^ b) as Eb by (rewrite Z.pow_add_r by lia; lia).
  destruct (Qle_bool (Qpow2 (a - b)) (n # d)) eqn:E.
  - apply Qle_bool_iff in E. split; [exact E|].
    replace (a - b + 1) with ((a + 1) - b) by lia.
    rewrite Qpow2_quot, Eq by lia.
    apply Zquot_Qlt; nia.
  - assert (~ (Qpow2 (a - b) <= n # d)%Q) as E'.
    { intros C. apply Qle_bool_iff in C. congruence. }
    apply Qnot_le_lt in E'. split.
    + replace (a - b - 1) with (a - (b + 1)) by lia.
      rewrite Qpow2_quot, Eq by lia.
      apply Zquot_Qle; nia.
    + now replace (a - b - 1 + 1) with (a - b) by lia.
Qed.

Lemma Qilog2_unique (q : Q) (k : Z) :
  (Qpow2 k <= q)%Q -> (q < Qpow2 (k + 1))%Q -> Qilog2 q = k.
Proof.
  intros H1 H2.
  assert (0 < q)%Q as Hq
    by (eapply Qlt_le_trans; [apply (Qpow2_pos k) | exact H1]).
  destruct (Qilog2_spec q Hq) as [S1 S2].
  destruct (Z_lt_le_dec (Qilog2 q) k) as [C|C].
  - exfalso. apply (Qlt_irrefl q).
    eapply Qlt_le_trans; [exact S2|].
    eapply Qle_trans; [apply (Qpow2_mono _ k); lia | exact H1].
  - destruct (Z_lt_le_dec k (Qilog2 q)) as [C'|C']; [|lia].
    exfalso. apply (Qlt_irrefl q).
    eapply Qlt_le_trans; [exact H2|].
    eapply Qle_trans; [apply (Qpow2_mono _ (Qilog2 q)); lia | exact S1].
Qed.

Lemma Qilog2_comp (p q : Q) : (0 < p)%Q -> (p == q)%Q -> Qilog2 p = Qilog2 q.
Proof.
  intros Hp E. symmetry. destruct (Qilog2_spec p Hp) as [S1 S2].
  apply Qilog2_unique; now rewrite <- E.
Qed.

Lemma round_half_even_comp (p q : Q) :
  (p == q)%Q -> round_half_even p = round_half_even q.
Proof.
  intros E. unfold round_half_even.
  rewrite (Qfloor_comp _ _ E).
  assert (((p - inject_Z (Qfloor q)) ?= (1 # 2))%Q =
          ((q - inject_Z (Qfloor q)) ?= (1 # 2))%Q) as ->
    by (apply Qcompare_comp; [now rewrite E | reflexivity]).
  reflexivity.
Qed.

(** The rounded value is the floor or the next integer, and is at most
    one half away. *)
Lemma round_half_even_near (q : Q) :
  (Qabs (inject_Z (round_half_even q) - q) <= 1 # 2)%Q.
Proof.
  unfold round_half_even.
  pose proof (Qfloor_le q) as H1. pose proof (Qlt_floor q) as H2.
  set (f := Qfloor q) in *. rewrite inject_Z_plus in H2.
  change (inject_Z 1) with 1%Q in H2.
  assert (forall (a : Q) (b : Z),
            inject_Z b - a == - (a - inject_Z b))%Q as down by (intros; ring).
  assert (forall (a : Q) (b : Z),
            inject_Z b + 1 - a == 1 - (a - inject_Z b))%Q as up by (intros; ring).
  assert (forall a : Q, 0 == a - a)%Q as zero by (intros; ring).
  apply Qabs_Qle_condition.
  destruct ((q - inject_Z f) ?= (1 # 2))%Q eqn:E.
  - apply Qeq_alt in E.
    destruct (Z.even f); [|rewrite inject_Z_plus; change (inject_Z 1) with 1%Q];
      split.
    + rewrite (down q f), E. discriminate.
    + rewrite (down q f), E. discriminate.
    + rewrite (up q f), E. discriminate.
    + rewrite (up q f), E. discriminate.
  - apply Qlt_alt in E. split.
    + apply Qlt_le_weak. rewrite (down q f).
      now apply Qopp_lt_compat in E.
    + apply Qle_trans with 0%Q; [|discriminate].
      rewrite (zero q). unfold Qminus. now apply Qplus_le_l.
  - apply Qgt_alt in E. rewrite inject_Z_plus. change (inject_Z 1) with 1%Q. split.
    + apply Qle_trans with 0%Q; [discriminate|].
      rewrite (zero q). unfold Qminus. apply Qplus_le_l.
      now apply Qlt_le_weak.
    + apply Qlt_le_weak. rewrite (up q f).
      change (1 # 2)%Q with (1 - (1 # 2))%Q.
      unfold Qminus at 1 3. apply Qplus_lt_r. now apply Qopp_lt_compat.
Qed.

Lemma round_half_even_inject_Z (z : Z) : round_half_even (inject_Z z) = z.
Proof.
  unfold round_half_even. rewrite Qfloor_Z.
  assert (((inject_Z z - inject_Z z) ?= (1 # 2))%Q = Lt) as ->.
  { apply Qlt_alt. unfold Qminus. now rewrite Qplus_opp_r. }
  reflexivity.
Qed.

Lemma round_half_even_ge (q : Q) (n : Z) :
  (inject_Z n <= q)%Q -> n <= round_half_even q.
Proof.
  intros H. apply Qfloor_resp_le in H. rewrite Qfloor_Z in H.
  unfold round_half_even.
  destruct ((q - inject_Z (Qfloor q)) ?= (1 # 2))%Q; [destruct (Z.even _)| |]; lia.
Qed.

Lemma round_half_even_le (q : Q) (n : Z) :
  (q <= inject_Z n)%Q -> round_half_even q <= n.
Proof.
  intros H. pose proof H as H'.
  apply Qfloor_resp_le in H'. rewrite Qfloor_Z in H'.
  destruct (Z.eq_dec (Qfloor q) n) as [E|E].
  - assert (q == inject_Z n)%Q as Eq.
    { apply Qle_antisym; [exact H|]. rewrite <- E. apply Qfloor_le. }
    rewrite (round_half_even_comp _ _ Eq), round_half_even_inject_Z. lia.
  - unfold round_half_even.
    destruct ((q - inject_Z (Qfloor q)) ?= (1 # 2))%Q; [destruct (Z.even _)| |]; lia.
Qed.

Lemma f32_zero (q : Q) : (q == 0)%Q -> f32 q = 0%Q.
Proof. intros E. unfold f32. apply Qeq_alt in E. now rewrite E. Qed.

Lemma f32_nonzero (q : Q) :
  ~ (q == 0)%Q ->
  f32 q = (inject_Z (round_half_even
                       (q / Qpow2 (Z.max (Qilog2 (Qabs q) - 23) (-149))))
           * Qpow2 (Z.max (Qilog2 (Qabs q) - 23) (-149)))%Q.
Proof.
  intros H. unfold f32.
  destruct (q ?= 0)%Q eqn:E; [apply Qeq_alt in E; contradiction| |]; reflexivity.
Qed.

(** [f32 q] lies on the grid of the binade of [q], with a significand
    of at most 24 bits, and half a step of that grid away from [q] at
    most: it is a [float] nearest to [q]. *)
Lemma f32_spec (q : Q) :
  ~ (q == 0)%Q ->
  let e := Z.max (Qilog2 (Qabs q) - 23) (-149) in
  exists m : Z,
    f32 q = (inject_Z m * Qpow2 e)%Q /\
    Z.abs m <= 2 ^ 24 /\
    (Qabs (f32 q - q) <= (1 # 2) * Qpow2 e)%Q /\
    (Qabs q < Qpow2 (e + 24))%Q /\
    (-149 < e -> (Qpow2 (e + 23) <= Qabs q)%Q).
Proof.
  intros Hq e.
  assert (0 < Qabs q)%Q as Hpos.
  { destruct (Qlt_le_dec 0 q) as [C|C].
    - now rewrite Qabs_pos by now apply Qlt_le_weak.
    - rewrite Qabs_neg by exact C.
      destruct (Qle_lt_or_eq _ _ C) as [C'|C']; [|contradiction].
      change 0%Q with (- 0)%Q. now apply Qopp_lt_compat. }
  destruct (Qilog2_spec (Qabs q) Hpos) as [S1 S2].
  pose proof (Qpow2_pos e) as He.
  assert (Qabs q < Qpow2 (e + 24))%Q as Hlt.
  { eapply Qlt_le_trans; [exact S2|]. apply Qpow2_mono. lia. }
  exists (round_half_even (q / Qpow2 e)).
  split; [now apply f32_nonzero|].
  assert (Qpow2 (e + 24) == inject_Z (2 ^ 24) * Qpow2 e)%Q as E24.
  { rewrite Z.add_comm, Qpow2_add. reflexivity. }
  assert (Qabs (q / Qpow2 e) <= inject_Z (2 ^ 24))%Q as Hm.
  { unfold Qdiv. rewrite Qabs_Qmult.
    rewrite (Qabs_pos (/ Qpow2 e)) by (apply Qlt_le_weak, Qinv_lt_0_compat, He).
    apply Qle_shift_div_r; [exact He|]. rewrite <- E24.
    now apply Qlt_le_weak. }
  apply Qabs_Qle_condition in Hm as [Hm1 Hm2].
  split; [|split; [|split]].
  - rewrite <- inject_Z_opp in Hm1.
    apply round_half_even_ge in Hm1. apply round_half_even_le in Hm2. lia.
  - rewrite (f32_nonzero q Hq). fold e.
    set (m := round_half_even (q / Qpow2 e)).
    setoid_replace (inject_Z m * Qpow2 e - q)%Q
      with ((inject_Z m - q / Qpow2 e) * Qpow2 e)%Q using relation Qeq
      by (field; intros C; rewrite C in He; discriminate).
    rewrite Qabs_Qmult, (Qabs_pos (Qpow2 e)) by now apply Qlt_le_weak.
    apply Qmult_le_compat_r; [apply round_half_even_near | now apply Qlt_le_weak].
  - exact Hlt.
  - intros Hn. replace (e + 23) with (Qilog2 (Qabs q)) by lia. exact S1.
Qed.

End SinglePrecision.

(** The rounding shows in the result: 10.24 s is the [float]
    10.2399997711181640625; at 44100 Hz with 1024 bins the exact quotient
    of that value is just below 441 and truncates to 440, while the
    [float] product rounds to 451584 and the code stores 441. *)
Example f32_of_10_24 :
  (f32 (1024 # 100) == 10737418 # 1048576)%Q.
Proof. reflexivity. Qed.

Example frames_of_10_24 :
  secondsToFrames_f32 (f32 (1024 # 100)) 44100 1024 = 441 /\
  secondsToFrames (f32 (1024 # 100)) 44100 1024 = 440.
Proof. split; reflexivity. Qed.

(** Other values of [f32]: [2^24 + 1] lies half way between two floats
    and goes to the even one, [2^24 + 3] goes up to [2^24 + 4], and half
    of the smallest positive [float] goes to 0. *)
Example f32_ties :
  (f32 16777217 == 16777216)%Q /\ (f32 16777219 == 16777220)%Q /\
  (f32 (1 # 2 ^ 150) == 0)%Q /\ (f32 (3 # 2 ^ 150) == 1 # 2 ^ 148)%Q.
Proof. repeat split. Qed.

(** C6, as amended: [setInterpolationTime] converts both arguments to
    [float] and stores them clamped to [0, 30] and [0, 15]; the base
    frame count is the single-precision quotient
    [(seconds * sampleRate) / fftSize] truncated toward zero (not
    rounded) and raised to 1, the variance frame count is that quotient
    truncated, [interpMin] is [max (base - variance) 1] and [interpMax]
    is [base + variance]. *)
Theorem derived_frames_truncate (x : t_interp) (l v : Q) :
  1 <= fftSize x ->
  let y := setInterpolationTime_f32 x l v in
  let sr := f32 (inject_Z (sampleRate x)) in
  let fs := f32 (inject_Z (fftSize x)) in
  interpLengthSecs y = CLAMP (f32 l) 0 30 /\
  interpVarianceSecs y = CLAMP (f32 v) 0 15 /\
  interpLengthFrames y =
    Z.max (Qtrunc (f32_div (f32_mul (interpLengthSecs y) sr) fs)) 1 /\
  interpVarianceFrames y =
    Qtrunc (f32_div (f32_mul (interpVarianceSecs y) sr) fs) /\
  interpMin y = Z.max (interpLengthFrames y - interpVarianceFrames y) 1 /\
  interpMax y = interpLengthFrames y + interpVarianceFrames y.
Proof.
  intros _.
  destruct x as [fs sr cm cp tm tp im ip tf fc ut ls vs lf vf mn mx].
  cbn [setInterpolationTime_f32 interpLengthSecs interpVarianceSecs
       interpLengthFrames interpVarianceFrames interpMin interpMax].
  unfold secondsToFrames_f32, MIN_INTERP_FRAMES.
  cbn [sampleRate fftSize].
  split; [reflexivity|]. split; [reflexivity|]. split; [|split; [reflexivity|]].
  - match goal with |- (if ?a <? 1 then _ else _) = _ =>
      destruct (Z.ltb_spec a 1); lia end.
  - split; [|reflexivity].
    match goal with |- (if ?a <=? 0 then _ else _) = _ =>
      destruct (Z.leb_spec a 0); lia end.
Qed.

Lemma derived_frames_truncate_witness :
  let y := setInterpolationTime_f32 (interp_new 44100 (Some 1024) [])
             (1024 # 100) (5 # 2) in
  (interpLengthSecs y == 10737418 # 1048576)%Q /\
  interpLengthFrames y = 441 /\ interpVarianceFrames y = 107 /\
  interpMin y = 334 /\ interpMax y = 548.
Proof.
  destruct (derived_frames_truncate (interp_new 44100 (Some 1024) [])
              (1024 # 100) (5 # 2) ltac:(vm_compute; congruence))
    as (E1 & _ & E2 & E3 & E4 & E5).
  cbv zeta. rewrite E4, E5, E2, E3, E1.
  repeat split.
Defined.

(** C6 fails as stated: at 44100 Hz with 4096 bins, 10 s are 107.67 frames
    (product and quotient are exact in single precision), which the code
    turns into 107 and rounding into 108. *)
Lemma derived_frames_round_fails : ~ derived_frames_round_claim.
Proof.
  intros H.
  destruct (H x_default 10%Q 2%Q ltac:(vm_compute; congruence)) as [H1 _].
  vm_compute in H1. discriminate H1.
Qed.

(** C7: with a nonnegative sample rate and at least one bin, every call of
    [setInterpolationTime], and so the constructor, leaves
    [1 <= interpMin <= interpMax]. *)
Theorem frame_bounds_invariant (x : t_interp) (l v : Q)
    (sr : Z) (pfft : option Z) (argv : list t_atom) :
  0 <= sampleRate x -> 1 <= fftSize x ->
  0 <= sr -> 1 <= getFFTSize pfft ->
  (1 <= interpMin (setInterpolationTime x l v)
     <= interpMax (setInterpolationTime x l v)) /\
  (1 <= interpMin (interp_new sr pfft argv)
     <= interpMax (interp_new sr pfft argv)).
Proof.
  intros Hsr Hfs Hsr' Hfs'. split.
  - now apply setInterpolationTime_bounds.
  - destruct (interp_new_config sr pfft argv) as (l' & v' & x' & E1 & E2 & Hc).
    destruct Hc as (_ & _ & _ & _ & _ & _ & -> & ->).
    apply setInterpolationTime_bounds; [rewrite E2 | rewrite E1]; assumption.
Qed.

Lemma frame_bounds_invariant_witness :
  (1 <= interpMin (setInterpolationTime x_default 3 20)
     <= interpMax (setInterpolationTime x_default 3 20)) /\
  (1 <= interpMin (interp_new 48000 (Some 1024) [A_FLOAT 0; A_LONG 1])
     <= interpMax (interp_new 48000 (Some 1024) [A_FLOAT 0; A_LONG 1])).
Proof.
  apply (frame_bounds_invariant x_default 3 20 48000 (Some 1024)
           [A_FLOAT 0; A_LONG 1]); vm_compute; congruence.
Defined.

(** ** Duration bounds *)

Lemma fftSize_interp_new (sr : Z) (pfft : option Z) (argv : list t_atom) :
  fftSize (interp_new sr pfft argv) = getFFTSize pfft.
Proof. reflexivity. Qed.

Lemma wf_interp_new (sr : Z) (pfft : option Z) (argv : list t_atom) :
  1 <= getFFTSize pfft -> wf (interp_new sr pfft argv).
Proof.
  intros Hfs. split; [now rewrite fftSize_interp_new|].
  intros t. rewrite fftSize_interp_new.
  destruct t; apply repeat_length.
Qed.

(** C5: on a well-formed object whose configuration satisfies
    [interpMin <= interpMax], with a draw of [random()] in [0, RAND_MAX],
    [updateTarget] runs and the [totalFrames] it stores for the bin lies
    between [interpMin] and [interpMax]; when the two are equal it is
    exactly that value. *)
Theorem duration_bounds (x : t_interp) (g : rng) (mag phase fftBin : Q) :
  wf x -> interpMin x <= interpMax x -> 0 <= g 0%nat <= RAND_MAX ->
  exists y,
    updateTarget mag phase fftBin (x, g) = Some (tt, (y, rng_tail g)) /\
    interpMin x
      <= atom_getlong (cell y TotalFrames (target_bin x fftBin))
      <= interpMax x /\
    (interpMax x = interpMin x ->
     atom_getlong (cell y TotalFrames (target_bin x fftBin)) = interpMin x).
Proof.
  intros Hwf Hmm Hr.
  destruct (updateTarget_runs x g mag phase fftBin Hwf)
    as (y & Hrun & _ & _ & _ & _ & HT & _).
  exists y. split; [exact Hrun|]. rewrite HT. cbn [atom_getlong]. split.
  - now apply irand_bounds.
  - intros ->. apply irand_degenerate.
Qed.

Lemma duration_bounds_witness :
  exists y,
    updateTarget 1 0 2 (x_small, g_max) = Some (tt, (y, rng_tail g_max)) /\
    interpMin x_small
      <= atom_getlong (cell y TotalFrames (target_bin x_small 2))
      <= interpMax x_small /\
    (interpMax x_small = interpMin x_small ->
     atom_getlong (cell y TotalFrames (target_bin x_small 2)) =
       interpMin x_small).
Proof.
  apply (duration_bounds x_small g_max 1 0 2).
  - apply wf_interp_new. vm_compute. congruence.
  - vm_compute. congruence.
  - vm_compute. split; congruence.
Defined.

(** ** Sample rate and construction *)

(** C3 at the failing input: the default object is built at 44100 Hz
    (107 frames of length, 21 of variance) and the DSP chain is started at
    88200 Hz.  [interp_dsp64] stores the new rate and leaves the four
    frame counts as they were, although at the stored rate the same
    seconds are 215 and 43 frames. *)
Theorem dsp64_keeps_stale_frames :
  exists y,
    interp_dsp64 88200 (x_default, g_zero) = Some (tt, (y, g_zero)) /\
    sampleRate y = 88200 /\
    interpLengthFrames y = 107 /\ interpVarianceFrames y = 21 /\
    interpMin y = 86 /\ interpMax y = 128 /\
    let z := setInterpolationTime y (interpLengthSecs y) (interpVarianceSecs y) in
    interpLengthFrames z = 215 /\ interpVarianceFrames z = 43 /\
    interpMin z = 172 /\ interpMax z = 258.
Proof.
  destruct (interp_dsp64_runs x_default g_zero 88200) as
    (y & Hrun & _ & Hsr & Hfs & Hls & Hvs & Hlf & Hvf & Hmn & Hmx & _).
  { apply wf_interp_new. vm_compute. congruence. }
  exists y. split; [exact Hrun|].
  split; [rewrite Hsr; reflexivity|].
  split; [rewrite Hlf; reflexivity|].
  split; [rewrite Hvf; reflexivity|].
  split; [rewrite Hmn; reflexivity|].
  split; [rewrite Hmx; reflexivity|].
  destruct y as [fs sr cm cp tm tp im ip tf fc ut ls vs lf vf mn mx].
  cbn [sampleRate fftSize interpLengthSecs interpVarianceSecs] in *.
  subst sr fs ls vs.
  cbn [setInterpolationTime interpLengthFrames interpVarianceFrames
       interpMin interpMax].
  repeat split; vm_compute; reflexivity.
Qed.

(** C4 fails as stated: the flag of bin 0 of a new object reads 0. *)
Lemma flags_set_at_construction_fails : ~ flags_set_at_construction_claim.
Proof.
  intros H. apply (H 44100 (Some 4) [] 0); [cbn; lia | reflexivity].
Qed.

Lemma cell_repeat_nothing (n : nat) (i : nat) :
  default A_NOTHING (repeat A_NOTHING n !! i) = A_NOTHING.
Proof.
  revert i. induction n as [|n IH]; intros [|i]; cbn; auto.
Qed.

Lemma cell_interp_new (sr : Z) (pfft : option Z) (argv : list t_atom) t j :
  cell (interp_new sr pfft argv) t j = A_NOTHING.
Proof.
  unfold cell. destruct t; apply cell_repeat_nothing.
Qed.

(** C4, as amended: right after construction every atom of every table
    is the zeroed atom, which reads 0 as a float and as a long, so every
    flag is clear; it is [interp_dsp64], run when audio is started, that
    sets the flag of every bin and leaves the other tables zeroed, and the
    first block after it (indexed by position, at most [fftSize] frames)
    acquires the inputs of each of its positions as targets. *)
Theorem construction_then_dsp64 (sr : Z) (pfft : option Z)
    (argv : list t_atom) (g : rng) (samplerate : Q) :
  1 <= getFFTSize pfft ->
  let x := interp_new sr pfft argv in
  (forall t j, cell x t j = A_NOTHING /\
               atom_getfloat (cell x t j) = 0%Q /\
               atom_getlong (cell x t j) = 0) /\
  exists y,
    interp_dsp64 samplerate (x, g) = Some (tt, (y, g)) /\
    (forall j, 0 <= j < getFFTSize pfft ->
               atom_getlong (cell y UpdateTarget j) = 1) /\
    (forall t j, t <> UpdateTarget -> cell y t j = A_NOTHING) /\
    (forall blk,
       Z.of_nat (length blk) <= getFFTSize pfft ->
       indexed_by_position x 0 blk ->
       exists outs z g',
         interp_perform64 blk (y, g) = Some (outs, (z, g')) /\
         forall (k : nat) s, blk !! k = Some s ->
           cell z TargetMag (Z.of_nat k) = A_FLOAT (in_mag s) /\
           cell z TargetPhase (Z.of_nat k) = A_FLOAT (in_phase s)).
Proof.
  intros Hfs x. split.
  - intros t j. unfold x. rewrite cell_interp_new. auto.
  - destruct (interp_dsp64_runs x g samplerate (wf_interp_new sr pfft argv Hfs))
      as (y & Hrun & Hy & _ & Efs & _ & _ & _ & _ & _ & _ & Hset & Hoth).
    assert (fftSize x = getFFTSize pfft) as Ex by apply fftSize_interp_new.
    exists y. split; [exact Hrun|]. split; [|split].
    + intros j Hj. rewrite Hset; [reflexivity|]. now rewrite Ex.
    + intros t j Ht. rewrite Hoth by exact Ht. apply cell_interp_new.
    + intros blk Hlen Hidx.
      apply perform_captures_inputs; [exact Hy | rewrite Efs, Ex; exact Hlen | |].
      * now apply (indexed_by_position_fftSize x y).
      * intros j Hj. rewrite Hset by (rewrite <- Efs; exact Hj). discriminate.
Qed.

Lemma construction_then_dsp64_witness :
  let x := interp_new 44100 (Some 4) [] in
  (forall t j, cell x t j = A_NOTHING /\
               atom_getfloat (cell x t j) = 0%Q /\
               atom_getlong (cell x t j) = 0) /\
  exists y,
    interp_dsp64 44100 (x, g_zero) = Some (tt, (y, g_zero)) /\
    (forall j, 0 <= j < getFFTSize (Some 4) ->
               atom_getlong (cell y UpdateTarget j) = 1) /\
    (forall t j, t <> UpdateTarget -> cell y t j = A_NOTHING) /\
    (forall blk,
       Z.of_nat (length blk) <= getFFTSize (Some 4) ->
       indexed_by_position x 0 blk ->
       exists outs z g',
         interp_perform64 blk (y, g_zero) = Some (outs, (z, g')) /\
         forall (k : nat) s, blk !! k = Some s ->
           cell z TargetMag (Z.of_nat k) = A_FLOAT (in_mag s) /\
           cell z TargetPhase (Z.of_nat k) = A_FLOAT (in_phase s)).
Proof.
  apply (construction_then_dsp64 44100 (Some 4) [] g_zero 44100).
  vm_compute. congruence.
Defined.

(** ** Index safety *)

Section Clamping.

(** Resolving an index is truncating it and clamping the integer. *)
Lemma target_bin_clamp (x : t_interp) (q : Q) :
  1 <= fftSize x ->
  target_bin x q = Z.max 0 (Z.min (Qtrunc q) (fftSize x - 1)).
Proof.
  intros Hfs. unfold target_bin, CLAMP.
  assert (Qtrunc 0%Q = 0) as T0 by reflexivity.
  assert (Qtrunc (inject_Z (fftSize x) - 1) = fftSize x - 1) as Thi.
  { rewrite (Qtrunc_comp _ _ (inject_Z_pred _)). apply Qtrunc_inject_Z. }
  destruct (Qltb 0 q) eqn:H1.
  - apply Qltb_true in H1. apply Qlt_le_weak, Qtrunc_mono in H1.
    rewrite T0 in H1.
    destruct (Qltb q (inject_Z (fftSize x) - 1)) eqn:H2.
    + apply Qltb_true in H2. apply Qlt_le_weak, Qtrunc_mono in H2.
      rewrite Thi in H2. lia.
    + apply Qltb_false, Qtrunc_mono in H2. rewrite Thi in *. lia.
  - apply Qltb_false, Qtrunc_mono in H1. rewrite T0 in *. lia.
Qed.

Lemma step_bin_clamp (x : t_interp) (q : Q) :
  1 <= fftSize x ->
  step_bin x q = Z.max 0 (Z.min (Qtrunc q) (fftSize x - 1)).
Proof.
  intros Hfs. change (step_bin x q) with (target_bin x (inject_Z (Qtrunc q))).
  rewrite target_bin_clamp by exact Hfs. now rewrite Qtrunc_inject_Z.
Qed.

End Clamping.




Lemma cvttsd2si_int_cast (q : Q) : int_cast q (cvttsd2si q).
Proof.
  unfold int_cast, cvttsd2si, fits_int.
  destruct (Z.leb_spec INT_MIN (Qtrunc q)); destruct (Z.leb_spec (Qtrunc q) INT_MAX);
    cbn [andb]; unfold INT_MIN, INT_MAX in *; lia.
Qed.




(** ** Block size and the refresh loop *)

(** C10: on a well-formed object the refresh loop visits the tables at
    each position of the block unclamped: a single position runs without
    a fault exactly when it lies in [0, fftSize - 1], and the loop over a
    block runs without a fault exactly when the block is at most
    [fftSize] frames long. *)
Theorem refresh_needs_short_block (x : t_interp) (g : rng)
    (blk : list sample) :
  wf x ->
  (forall i s, 0 <= i ->
     (is_Some (refresh_at i s (x, g)) <-> i < fftSize x)) /\
  (is_Some (refresh_loop 0 blk (x, g)) <->
   Z.of_nat (length blk) <= fftSize x).
Proof.
  intros Hwf. split.
  - intros i s Hi. split.
    + intros [w Hw]. destruct (Z_lt_le_dec i (fftSize x)) as [H|H]; [exact H|].
      rewrite refresh_at_fault in Hw by (assumption || lia). discriminate.
    + intros H. destruct (refresh_at_runs x g i s Hwf (conj Hi H))
        as (y & g' & -> & _). now eexists.
  - rewrite (refresh_loop_runs_iff blk 0 x g Hwf ltac:(lia)). split.
    + intros [->|H]; [destruct Hwf; cbn; lia | lia].
    + intros H. right. lia.
Qed.

Lemma refresh_needs_short_block_witness :
  let blk := constant_block 5 (mk_sample 1 0 0) in
  (forall i s, 0 <= i ->
     (is_Some (refresh_at i s (x_small, g_zero)) <-> i < fftSize x_small)) /\
  (is_Some (refresh_loop 0 blk (x_small, g_zero)) <->
   Z.of_nat (length blk) <= fftSize x_small).
Proof.
  apply (refresh_needs_short_block x_small g_zero).
  apply wf_interp_new. vm_compute. congruence.
Defined.

(** ** Linear approach *)

Section Linear.

Lemma count_bin_cons x b s rest :
  count_bin x b (s :: rest) =
    if decide (step_bin x (in_index s) = b)
    then S (count_bin x b rest) else count_bin x b rest.
Proof.
  unfold count_bin. rewrite filter_cons.
  destruct (decide (step_bin x (in_index s) = b)); reflexivity.
Qed.

Lemma count_bin_config x y b blk :
  same_config x y -> count_bin y b blk = count_bin x b blk.
Proof.
  intros Hc. induction blk as [|s rest IH]; [reflexivity|].
  rewrite !count_bin_cons, (step_bin_config x y _ Hc), IH. reflexivity.
Qed.

Lemma inject_Z_succ (n : nat) :
  (inject_Z (Z.of_nat (S n)) == inject_Z (Z.of_nat n) + 1)%Q.
Proof.
  rewrite Nat2Z.inj_succ. unfold Z.succ. now rewrite inject_Z_plus.
Qed.

(** Over a block, the step loop adds the increment of a bin to its
    current value once for each frame that resolves to the bin. *)
Lemma step_loop_linear blk : forall x g b,
  wf x -> 0 <= b ->
  exists outs y,
    step_loop blk (x, g) = Some (outs, (y, g)) /\
    wf y /\ same_config x y /\
    cell y IncMag b = cell x IncMag b /\
    cell y IncPhase b = cell x IncPhase b /\
    (atom_getfloat (cell y CurrMag b) ==
       atom_getfloat (cell x CurrMag b) +
       inject_Z (Z.of_nat (count_bin x b blk)) * atom_getfloat (cell x IncMag b))%Q /\
    (atom_getfloat (cell y CurrPhase b) ==
       atom_getfloat (cell x CurrPhase b) +
       inject_Z (Z.of_nat (count_bin x b blk)) * atom_getfloat (cell x IncPhase b))%Q.
Proof.
  induction blk as [|s rest IH]; intros x g b Hwf Hb.
  - exists [], x. change (count_bin x b []) with 0%nat.
    change (inject_Z (Z.of_nat 0)) with 0%Q.
    split; [reflexivity|]. split; [exact Hwf|].
    split; [apply same_config_refl|].
    split; [reflexivity|]. split; [reflexivity|]. split; ring.
  - cbn [step_loop].
    destruct (step_frame_runs x g s Hwf)
      as (out & y1 & Hrun & Hy1 & Hc1 & Hm & Hp & _ & _ & Hoth & Hbin).
    destruct (IH y1 g b Hy1 Hb)
      as (outs & y & Hrun' & Hy & Hc & Him & Hip & Hcm & Hcp).
    exists (out :: outs), y.
    split; [unfold bind; rewrite Hrun, Hrun'; reflexivity|].
    split; [exact Hy|].
    split; [eapply same_config_trans; eassumption|].
    rewrite (count_bin_config x y1 b rest Hc1) in Hcm, Hcp.
    rewrite Him, Hip, Hcm, Hcp.
    rewrite !(Hoth IncMag), !(Hoth IncPhase) by discriminate.
    rewrite !count_bin_cons.
    destruct (decide (step_bin x (in_index s) = b)) as [E|E].
    + rewrite E in Hm, Hp. rewrite Hm, Hp. cbn [atom_getfloat].
      rewrite inject_Z_succ.
      split; [reflexivity|]. split; [reflexivity|]. split; ring.
    + rewrite !(Hbin _ b) by (assumption || congruence).
      split; [reflexivity|]. split; [reflexivity|]. split; reflexivity.
Qed.

End Linear.

(** C9, with the floating values taken as exact rationals: on a
    well-formed object whose configuration satisfies
    [1 <= interpMin <= interpMax], a leg of bin [b] opened by
    [updateTarget] has a length [T >= 1] and the increment
    [(target - initial) / T]; after a block in which [k] frames resolve to
    [b], the current magnitude and phase of [b] are
    [initial + k * increment], and when [k = T] they are the target. *)
Theorem linear_approach (x : t_interp) (g : rng) (mag phase fftBin : Q)
    (blk : list sample) :
  wf x -> 1 <= interpMin x <= interpMax x -> 0 <= g 0%nat <= RAND_MAX ->
  let b := target_bin x fftBin in
  let k := Z.of_nat (count_bin x b blk) in
  exists x1 outs x2,
    updateTarget mag phase fftBin (x, g) = Some (tt, (x1, rng_tail g)) /\
    step_loop blk (x1, rng_tail g) = Some (outs, (x2, rng_tail g)) /\
    let T := atom_getlong (cell x1 TotalFrames b) in
    let initialM := atom_getfloat (cell x CurrMag b) in
    let initialP := atom_getfloat (cell x CurrPhase b) in
    let incM := atom_getfloat (cell x1 IncMag b) in
    let incP := atom_getfloat (cell x1 IncPhase b) in
    1 <= T /\
    (incM == (mag - initialM) / inject_Z T)%Q /\
    (incP == (phase - initialP) / inject_Z T)%Q /\
    (atom_getfloat (cell x2 CurrMag b) == initialM + inject_Z k * incM)%Q /\
    (atom_getfloat (cell x2 CurrPhase b) == initialP + inject_Z k * incP)%Q /\
    (k = T ->
     (atom_getfloat (cell x2 CurrMag b) == mag)%Q /\
     (atom_getfloat (cell x2 CurrPhase b) == phase)%Q).
Proof.
  intros Hwf Hcfg Hr b k.
  pose proof (target_bin_range x fftBin (proj1 Hwf)) as Hb. fold b in Hb.
  destruct (updateTarget_runs x g mag phase fftBin Hwf)
    as (x1 & Hrun & Hx1 & Hc1 & _ & _ & HT & HiM & HiP & _ & _ & HcM & HcP & _).
  fold b in HT, HiM, HiP.
  destruct (step_loop_linear blk x1 (rng_tail g) b Hx1 (proj1 Hb))
    as (outs & x2 & Hrun2 & _ & _ & _ & _ & HM & HP).
  rewrite (count_bin_config x x1 b blk Hc1) in HM, HP. fold k in HM, HP.
  exists x1, outs, x2. split; [exact Hrun|]. split; [exact Hrun2|].
  cbv zeta. rewrite HM, HP, HiM, HiP, HT, (HcM b), (HcP b).
  cbn [atom_getfloat atom_getlong].
  pose proof (irand_bounds (g 0%nat) (interpMin x) (interpMax x) Hr
                ltac:(lia)) as HTb.
  set (T := irand (g 0%nat) (interpMin x) (interpMax x)) in *.
  assert (~ inject_Z T == 0)%Q as HT0.
  { change 0%Q with (inject_Z 0). rewrite inject_Z_injective. lia. }
  split; [lia|]. split; [reflexivity|]. split; [reflexivity|].
  split; [reflexivity|]. split; [reflexivity|].
  intros ->. split; field; exact HT0.
Qed.

Lemma linear_approach_witness :
  let b := target_bin x_small 2 in
  let blk := constant_block 3 (mk_sample 0 0 2) in
  let k := Z.of_nat (count_bin x_small b blk) in
  exists x1 outs x2,
    updateTarget 6 3 2 (x_small, g_max) = Some (tt, (x1, rng_tail g_max)) /\
    step_loop blk (x1, rng_tail g_max) = Some (outs, (x2, rng_tail g_max)) /\
    let T := atom_getlong (cell x1 TotalFrames b) in
    let initialM := atom_getfloat (cell x_small CurrMag b) in
    let initialP := atom_getfloat (cell x_small CurrPhase b) in
    let incM := atom_getfloat (cell x1 IncMag b) in
    let incP := atom_getfloat (cell x1 IncPhase b) in
    1 <= T /\
    (incM == (6 - initialM) / inject_Z T)%Q /\
    (incP == (3 - initialP) / inject_Z T)%Q /\
    (atom_getfloat (cell x2 CurrMag b) == initialM + inject_Z k * incM)%Q /\
    (atom_getfloat (cell x2 CurrPhase b) == initialP + inject_Z k * incP)%Q /\
    (k = T ->
     (atom_getfloat (cell x2 CurrMag b) == 6)%Q /\
     (atom_getfloat (cell x2 CurrPhase b) == 3)%Q).
Proof.
  apply (linear_approach x_small g_max 6 3 2
           (constant_block 3 (mk_sample 0 0 2))).
  - apply wf_interp_new. vm_compute. congruence.
  - vm_compute. split; congruence.
  - vm_compute. split; congruence.
Defined.

(** ** Leg boundaries and the refresh convention *)

Lemma wf_x_started : wf x_started.
Proof. split; [vm_compute; congruence | intros []; reflexivity]. Qed.

Lemma wf_x_midleg : wf x_midleg.
Proof. split; [vm_compute; congruence | intros []; reflexivity]. Qed.

(** How the two example objects are reached, and what they hold. *)
Example x_started_reached :
  interp_dsp64 4 (x_two, g_zero) = Some (tt, (x_started, g_zero)).
Proof. reflexivity. Qed.

Example x_midleg_reached :
  exists outs g',
    interp_perform64 [mk_sample 5 0 1] (x_started, g_zero) =
      Some (outs, (x_midleg, g')).
Proof. eexists _, _. reflexivity. Qed.

Example x_started_flags :
  tbl x_started UpdateTarget = [A_LONG 1; A_LONG 1].
Proof. reflexivity. Qed.

Example x_midleg_bin1 :
  cell x_midleg TargetMag 1 = A_FLOAT 5 /\
  (atom_getfloat (cell x_midleg CurrMag 1) == 5 # 2)%Q /\
  cell x_midleg TotalFrames 1 = A_LONG 2 /\
  cell x_midleg FrameCount 1 = A_LONG 1 /\
  cell x_midleg UpdateTarget 1 = A_LONG 0 /\
  cell x_midleg UpdateTarget 0 = A_LONG 1.
Proof. repeat split. Qed.

(** C1 fails as stated.  In [x_midleg] bin 1 is half way (at 5/2) to its
    target 5 and the flag of position 0 is still set; a frame at position 0
    with index 1 opens a new leg for bin 1, which starts from 5/2. *)
Lemma continuity_fails : ~ continuity_claim.
Proof.
  intros H.
  destruct (H x_midleg g_zero 0 (mk_sample 9 0 1) _ _ wf_x_midleg
              ltac:(vm_compute; congruence) eq_refl) as [Hm _].
  vm_compute in Hm. discriminate Hm.
Qed.

(** C2 fails as stated.  On [x_started] a frame at position 0 with index 1
    makes the code acquire the target for bin 1, the specification for
    bin 0. *)
Lemma refresh_by_position_fails : ~ refresh_by_position_claim.
Proof.
  intros H.
  specialize (H x_started g_zero 0 (mk_sample 5 0 1) wf_x_started).
  vm_compute in H. discriminate H.
Qed.

(** C2, as amended: the refresh step reads the flag at the position [i]
    itself.  When it is clear nothing changes.  When it is set, the target
    of position [i] is carried into its current value and [updateTarget]
    then acquires the inputs of position [i] for the bin that the index
    input of the position resolves to; that is the acquisition for bin [i]
    whenever the index resolves to [i]. *)
Theorem refresh_convention (x : t_interp) (g : rng) (i : Z) (s : sample) :
  wf x -> 0 <= i < fftSize x ->
  (atom_getlong (cell x UpdateTarget i) = 0 ->
   refresh_at i s (x, g) = Some (tt, (x, g))) /\
  (atom_getlong (cell x UpdateTarget i) <> 0 ->
   exists y,
     refresh_at i s (x, g) = Some (tt, (y, rng_tail g)) /\
     acquired (carry x i) (target_bin x (in_index s))
       (irand (g 0%nat) (interpMin x) (interpMax x))
       (in_mag s) (in_phase s) y) /\
  (target_bin x (in_index s) = i ->
   refresh_at i s (x, g) = refresh_at_spec i s (x, g)).
Proof.
  intros Hwf Hi. split; [|split].
  - now apply refresh_at_idle.
  - intros Hflag. rewrite refresh_at_fires by assumption.
    destruct (updateTarget_runs (carry x i) g (in_mag s) (in_phase s)
                (in_index s) (wf_carry x i Hwf)) as (y & Hrun & Hacq).
    rewrite (target_bin_config x _ _ (same_config_carry x i)) in Hacq.
    destruct (same_config_carry x i) as (_ & _ & _ & _ & _ & _ & E1 & E2).
    rewrite E1, E2 in Hacq. now exists y.
  - intros Hbin.
    destruct (Z.eq_dec (atom_getlong (cell x UpdateTarget i)) 0) as [E|E].
    + rewrite refresh_at_idle by assumption.
      unfold refresh_at_spec. run_step. now rewrite E.
    + rewrite refresh_at_fires, refresh_at_spec_fires by assumption.
      apply updateTarget_bin.
      rewrite !(target_bin_config x _ _ (same_config_carry x i)), Hbin.
      symmetry. now apply target_bin_inject.
Qed.

Lemma refresh_convention_witness :
  let s := mk_sample 9 4 0 in
  let s' := mk_sample 9 4 1 in
  (* position 1 of [x_restarted] is flagged and its index resolves to bin 0 *)
  (exists y,
     refresh_at 1 s (x_restarted, g_zero) = Some (tt, (y, rng_tail g_zero)) /\
     acquired (carry x_restarted 1) 0 2 9 4 y /\
     cell y CurrMag 1 = A_FLOAT 5 /\ cell y TargetMag 1 = A_FLOAT 5 /\
     cell y TargetMag 0 = A_FLOAT 9 /\ cell y TargetPhase 0 = A_FLOAT 4) /\
  (* position 1 of [x_midleg] is not flagged *)
  refresh_at 1 s (x_midleg, g_zero) = Some (tt, (x_midleg, g_zero)) /\
  (* position 1 of [x_restarted] with an index that resolves to bin 1 *)
  refresh_at 1 s' (x_restarted, g_zero) = refresh_at_spec 1 s' (x_restarted, g_zero).
Proof.
  assert (wf x_restarted) as Hwf
    by (split; [vm_compute; congruence | intros []; reflexivity]).
  intros s s'. split; [|split].
  - destruct (refresh_convention x_restarted g_zero 1 s Hwf
                ltac:(vm_compute; split; congruence)) as (_ & Hfire & _).
    destruct Hfire as (y & Hrun & Hacq); [vm_compute; congruence|].
    exists y. split; [exact Hrun|]. split; [exact Hacq|].
    destruct Hacq as (_ & _ & HtM & HtP & _ & _ & _ & _ & _ & HcM & _ & Hoth).
    change (target_bin x_restarted (in_index s)) with 0 in *.
    rewrite (HcM 1), (Hoth TargetMag 1), HtM, HtP by lia.
    repeat split.
  - destruct (refresh_convention x_midleg g_zero 1 s wf_x_midleg
                ltac:(vm_compute; split; congruence)) as (Hidle & _).
    apply Hidle. reflexivity.
  - destruct (refresh_convention x_restarted g_zero 1 s' Hwf
                ltac:(vm_compute; split; congruence)) as (_ & _ & Hsame).
    apply Hsame. reflexivity.
Defined.

(** * Further properties of the code *)

(** ** The random duration, end to end *)

Section Helpers.

Lemma Qtrunc_nonneg_floor (q : Q) : (0 <= q)%Q -> Qtrunc q = Qfloor q.
Proof.
  intros H. unfold Qtrunc. apply Qle_bool_iff in H. now rewrite H.
Qed.

Lemma scale_one : (inject_Z RAND_MAX / inject_Z RAND_MAX == 1)%Q.
Proof. reflexivity. Qed.

Lemma scale_zero : (inject_Z 0 / inject_Z RAND_MAX == 0)%Q.
Proof. reflexivity. Qed.

Lemma scale_below_one (r : Z) :
  r < RAND_MAX -> (inject_Z r / inject_Z RAND_MAX < 1)%Q.
Proof.
  intros H. apply Qlt_shift_div_r; [reflexivity|].
  rewrite Qmult_1_l. now rewrite <- Zlt_Qlt.
Qed.

Lemma scale_mono (r r' : Z) :
  r <= r' ->
  (inject_Z r / inject_Z RAND_MAX <= inject_Z r' / inject_Z RAND_MAX)%Q.
Proof.
  intros H. unfold Qdiv. apply Qmult_le_compat_r.
  - now rewrite <- Zle_Qle.
  - discriminate.
Qed.

End Helpers.

(** X1: with [0 <= min <= max], both below [2^24], and [random()] in
    [0, RAND_MAX], [irand] reaches both ends of its range, [min] when
    [random()] returns 0 and [max] when it returns [RAND_MAX], and it
    never decreases when the value of [random()] grows. *)
Theorem irand_reaches_both_ends (r r' min max : Z) :
  0 <= r <= r' -> r' <= RAND_MAX -> 0 <= min <= max -> max < 2 ^ 24 ->
  irand 0 min max = min /\
  irand RAND_MAX min max = max /\
  irand r min max <= irand r' min max.
Proof.
  intros Hr Hr' Hmm _.
  assert (0 <= inject_Z (max - min))%Q as Hd.
  { change 0%Q with (inject_Z 0). rewrite <- Zle_Qle. lia. }
  assert (inject_Z max == inject_Z min + 1 * inject_Z (max - min))%Q as Emax.
  { rewrite Qmult_1_l, <- inject_Z_plus. f_equiv. lia. }
  split; [|split].
  - unfold irand.
    rewrite (Qtrunc_comp _ (inject_Z min)); [apply Qtrunc_inject_Z|].
    rewrite scale_zero, Qmult_0_l. apply Qplus_0_r.
  - unfold irand.
    rewrite (Qtrunc_comp _ (inject_Z max)); [apply Qtrunc_inject_Z|].
    rewrite scale_one. symmetry. exact Emax.
  - unfold irand. apply Qtrunc_mono, Qplus_le_r.
    apply Qmult_le_compat_r; [apply scale_mono; lia | exact Hd].
Qed.

Lemma irand_reaches_both_ends_witness :
  irand 0 86 128 = 86 /\
  irand RAND_MAX 86 128 = 128 /\
  irand 1073741824 86 128 <= irand 2000000000 86 128.
Proof.
  apply (irand_reaches_both_ends 1073741824 2000000000 86 128);
    unfold RAND_MAX; lia.
Defined.

(** ** More on the configuration *)

Section Configuration.

Lemma wf_setInterpolationTime (x : t_interp) (l v : Q) :
  wf x -> wf (setInterpolationTime x l v).
Proof. destruct x. intros H. exact H. Qed.

Lemma tbl_setInterpolationTime (x : t_interp) (l v : Q) t :
  tbl (setInterpolationTime x l v) t = tbl x t.
Proof. destruct x, t; reflexivity. Qed.

Lemma fftSize_setInterpolationTime (x : t_interp) (l v : Q) :
  fftSize (setInterpolationTime x l v) = fftSize x.
Proof. destruct x; reflexivity. Qed.

Lemma sampleRate_setInterpolationTime (x : t_interp) (l v : Q) :
  sampleRate (setInterpolationTime x l v) = sampleRate x.
Proof. destruct x; reflexivity. Qed.

Lemma set_tbl_setInterpolationTime (x : t_interp) (l v : Q) t tb :
  set_tbl (setInterpolationTime x l v) t tb =
  setInterpolationTime (set_tbl x t tb) l v.
Proof. destruct x, t; reflexivity. Qed.

(** Clamping twice is clamping once. *)
Lemma CLAMP_idempotent (a lo hi : Q) :
  (lo < hi)%Q -> CLAMP (CLAMP a lo hi) lo hi = CLAMP a lo hi.
Proof.
  intros Hlh. apply Qltb_true in Hlh.
  assert (forall q, Qltb q q = false) as Hqq
    by (intros q; apply Qltb_false, Qle_refl).
  destruct (Qltb lo a) eqn:H1; [destruct (Qltb a hi) eqn:H2|].
  - assert (CLAMP a lo hi = a) as -> by (unfold CLAMP; now rewrite H1, H2).
    unfold CLAMP. now rewrite H1, H2.
  - assert (CLAMP a lo hi = hi) as -> by (unfold CLAMP; now rewrite H1, H2).
    unfold CLAMP. now rewrite Hlh, Hqq.
  - assert (CLAMP a lo hi = lo) as -> by (unfold CLAMP; now rewrite H1).
    unfold CLAMP. now rewrite Hqq.
Qed.

Lemma CLAMP_at_least (a lo hi : Q) :
  (lo < hi)%Q -> (hi <= a)%Q -> CLAMP a lo hi = hi.
Proof.
  intros Hlh Ha. unfold CLAMP.
  assert (Qltb lo a = true) as ->
    by (apply Qltb_true; eapply Qlt_le_trans; eassumption).
  assert (Qltb a hi = false) as -> by now apply Qltb_false.
  reflexivity.
Qed.

Lemma CLAMP_at_most (a lo hi : Q) : (a <= lo)%Q -> CLAMP a lo hi = lo.
Proof.
  intros Ha. unfold CLAMP.
  assert (Qltb lo a = false) as -> by now apply Qltb_false.
  reflexivity.
Qed.

(** Only the clamped seconds matter. *)
Lemma setInterpolationTime_clamped (x : t_interp) (l l' v v' : Q) :
  CLAMP l MIN_LENGTH MAX_LENGTH = CLAMP l' MIN_LENGTH MAX_LENGTH ->
  CLAMP v MIN_VARIANCE MAX_VARIANCE = CLAMP v' MIN_VARIANCE MAX_VARIANCE ->
  setInterpolationTime x l v = setInterpolationTime x l' v'.
Proof.
  intros El Ev. destruct x. cbn [setInterpolationTime]. now rewrite El, Ev.
Qed.

(** The fields that [setInterpolationTime] writes, in closed form. *)
Lemma setInterpolationTime_fields (x : t_interp) (l v : Q) :
  let y := setInterpolationTime x l v in
  interpLengthSecs y = CLAMP l 0 30 /\
  interpVarianceSecs y = CLAMP v 0 15 /\
  interpLengthFrames y = Z.max (trunc_frames x (interpLengthSecs y)) 1 /\
  interpVarianceFrames y = trunc_frames x (interpVarianceSecs y) /\
  interpMin y = Z.max (interpLengthFrames y - interpVarianceFrames y) 1 /\
  interpMax y = interpLengthFrames y + interpVarianceFrames y.
Proof.
  destruct x as [fs sr cm cp tm tp im ip tf fc ut ls vs lf vf mn mx].
  cbn [setInterpolationTime interpLengthSecs interpVarianceSecs
       interpLengthFrames interpVarianceFrames interpMin interpMax].
  unfold trunc_frames, secondsToFrames, MIN_INTERP_FRAMES.
  cbn [sampleRate fftSize].
  split; [reflexivity|]. split; [reflexivity|]. split; [|split; [reflexivity|]].
  - match goal with |- (if ?a <? 1 then _ else _) = _ =>
      destruct (Z.ltb_spec a 1); lia end.
  - split; [|reflexivity].
    match goal with |- (if ?a <=? 0 then _ else _) = _ =>
      destruct (Z.leb_spec a 0); lia end.
Qed.

Lemma secondsToFrames_zero (sr fs : Z) : secondsToFrames 0 sr fs = 0.
Proof.
  unfold secondsToFrames.
  rewrite (Qtrunc_comp _ (inject_Z 0)); [apply Qtrunc_inject_Z|].
  unfold Qdiv. rewrite !Qmult_0_l. reflexivity.
Qed.

Lemma secondsToFrames_mono (s s' : Q) (sr fs : Z) :
  0 <= sr -> 1 <= fs -> (s <= s')%Q ->
  secondsToFrames s sr fs <= secondsToFrames s' sr fs.
Proof.
  intros Hsr Hfs Hs. unfold secondsToFrames. apply Qtrunc_mono.
  unfold Qdiv. apply Qmult_le_compat_r.
  - apply Qmult_le_compat_r; [exact Hs|].
    change 0%Q with (inject_Z 0). now rewrite <- Zle_Qle.
  - apply Qinv_le_0_compat.
    change 0%Q with (inject_Z 0). rewrite <- Zle_Qle. lia.
Qed.

(** The frames of a whole number of seconds, as an integer quotient. *)
Lemma secondsToFrames_whole (n sr fs : Z) :
  0 <= n -> 0 <= sr -> 1 <= fs ->
  secondsToFrames (inject_Z n) sr fs = n * sr / fs.
Proof.
  intros Hn Hsr Hfs. unfold secondsToFrames.
  rewrite Zdiv_Qdiv, <- inject_Z_mult.
  apply Qtrunc_nonneg_floor.
  apply Qle_shift_div_l.
  - change 0%Q with (inject_Z 0). rewrite <- Zlt_Qlt. lia.
  - rewrite Qmult_0_l. change 0%Q with (inject_Z 0). rewrite <- Zle_Qle. nia.
Qed.

End Configuration.

(** X3: whatever the two arguments, the seconds that
    [setInterpolationTime] stores lie in [0, 30] and [0, 15]; a length of
    30 s or more is the same call as 30 s, a length of 0 s or less the
    same call as 0 s and gives legs of one frame, and a variance of 15 s
    or more or of 0 s or less is the same call as 15 s or 0 s. *)
Theorem seconds_saturate (x : t_interp) (l v : Q) :
  let y := setInterpolationTime x l v in
  ((0 <= interpLengthSecs y)%Q /\ (interpLengthSecs y <= 30)%Q /\
   (0 <= interpVarianceSecs y)%Q /\ (interpVarianceSecs y <= 15)%Q) /\
  ((30 <= l)%Q -> y = setInterpolationTime x 30 v) /\
  ((l <= 0)%Q -> y = setInterpolationTime x 0 v /\ interpLengthFrames y = 1) /\
  ((15 <= v)%Q -> y = setInterpolationTime x l 15) /\
  ((v <= 0)%Q -> y = setInterpolationTime x l 0 /\ interpVarianceFrames y = 0).
Proof.
  cbv zeta. split; [|split; [|split; [|split]]].
  - destruct (setInterpolationTime_fields x l v) as (-> & -> & _).
    destruct (CLAMP_range l 0 30) as [? ?]; [discriminate|].
    destruct (CLAMP_range v 0 15) as [? ?]; [discriminate|]. auto.
  - intros H. apply setInterpolationTime_clamped; [|reflexivity].
    now rewrite (CLAMP_at_least l MIN_LENGTH MAX_LENGTH eq_refl H).
  - intros H. split.
    + apply setInterpolationTime_clamped; [|reflexivity].
      now rewrite (CLAMP_at_most l MIN_LENGTH MAX_LENGTH H).
    + destruct x. cbn [setInterpolationTime interpLengthFrames].
      rewrite (CLAMP_at_most l MIN_LENGTH MAX_LENGTH H). unfold MIN_LENGTH.
      now rewrite secondsToFrames_zero.
  - intros H. apply setInterpolationTime_clamped; [reflexivity|].
    now rewrite (CLAMP_at_least v MIN_VARIANCE MAX_VARIANCE eq_refl H).
  - intros H. split.
    + apply setInterpolationTime_clamped; [reflexivity|].
      now rewrite (CLAMP_at_most v MIN_VARIANCE MAX_VARIANCE H).
    + destruct x. cbn [setInterpolationTime interpVarianceFrames].
      rewrite (CLAMP_at_most v MIN_VARIANCE MAX_VARIANCE H). unfold MIN_VARIANCE.
      now rewrite secondsToFrames_zero.
Qed.

(** X4: with a sample rate that is not negative and at least one bin,
    the base length lies in the range the durations are drawn from, the
    range is at most twice the variance wide, and no leg is longer than
    the frames of 45 s: [interpMax <= max 1 (30 * sampleRate / fftSize)
    + 15 * sampleRate / fftSize]. *)
Theorem frame_range_around_base (x : t_interp) (l v : Q) :
  0 <= sampleRate x -> 1 <= fftSize x ->
  let y := setInterpolationTime x l v in
  interpMin y <= interpLengthFrames y <= interpMax y /\
  interpMax y - interpMin y <= 2 * interpVarianceFrames y /\
  1 <= interpLengthFrames y <= Z.max 1 (30 * sampleRate x / fftSize x) /\
  0 <= interpVarianceFrames y <= 15 * sampleRate x / fftSize x /\
  interpMax y <=
    Z.max 1 (30 * sampleRate x / fftSize x) + 15 * sampleRate x / fftSize x.
Proof.
  intros Hsr Hfs y.
  destruct (setInterpolationTime_fields x l v) as (Els & Evs & EL & EV & Emn & Emx).
  fold y in Els, Evs, EL, EV, Emn, Emx.
  destruct (CLAMP_range l 0 30) as [L0 L1]; [discriminate|].
  destruct (CLAMP_range v 0 15) as [V0 V1]; [discriminate|].
  rewrite <- Els in L0, L1. rewrite <- Evs in V0, V1.
  assert (trunc_frames x (interpLengthSecs y) <= 30 * sampleRate x / fftSize x)
    as HL.
  { rewrite <- (secondsToFrames_whole 30) by lia.
    now apply secondsToFrames_mono. }
  assert (0 <= interpVarianceFrames y <= 15 * sampleRate x / fftSize x) as HV.
  { rewrite EV. split.
    - now apply secondsToFrames_nonneg.
    - rewrite <- (secondsToFrames_whole 15) by lia.
      now apply secondsToFrames_mono. }
  lia.
Qed.

Lemma frame_range_around_base_witness :
  let y := setInterpolationTime x_default 100 7 in
  interpMin y <= interpLengthFrames y <= interpMax y /\
  interpMax y - interpMin y <= 2 * interpVarianceFrames y /\
  1 <= interpLengthFrames y
    <= Z.max 1 (30 * sampleRate x_default / fftSize x_default) /\
  0 <= interpVarianceFrames y
    <= 15 * sampleRate x_default / fftSize x_default /\
  interpMax y <=
    Z.max 1 (30 * sampleRate x_default / fftSize x_default)
    + 15 * sampleRate x_default / fftSize x_default.
Proof.
  apply (frame_range_around_base x_default 100 7); vm_compute; congruence.
Defined.

(** X5: when the variance is shorter than one frame
    ([interpVarianceFrames] is 0) the range collapses to the base length,
    and on a well-formed object every leg that [updateTarget] opens lasts
    exactly [interpLengthFrames] frames, whatever [random()] returns. *)
Theorem fixed_duration_without_variance (x : t_interp) (l v : Q) (g : rng)
    (mag phase fftBin : Q) :
  wf x ->
  let y := setInterpolationTime x l v in
  interpVarianceFrames y = 0 ->
  interpMin y = interpLengthFrames y /\
  interpMax y = interpLengthFrames y /\
  exists z,
    updateTarget mag phase fftBin (y, g) = Some (tt, (z, rng_tail g)) /\
    cell z TotalFrames (target_bin y fftBin) = A_LONG (interpLengthFrames y).
Proof.
  intros Hwf y HV.
  destruct (setInterpolationTime_fields x l v) as (_ & _ & EL & _ & Emn & Emx).
  fold y in EL, Emn, Emx. rewrite HV in Emn, Emx.
  assert (interpMin y = interpLengthFrames y) as E1 by lia.
  assert (interpMax y = interpLengthFrames y) as E2 by lia.
  split; [exact E1|]. split; [exact E2|].
  destruct (updateTarget_runs y g mag phase fftBin
              (wf_setInterpolationTime x l v Hwf))
    as (z & Hrun & _ & _ & _ & _ & HT & _).
  exists z. split; [exact Hrun|].
  now rewrite HT, E1, E2, irand_degenerate.
Qed.

Lemma fixed_duration_without_variance_witness :
  let y := setInterpolationTime x_small 3 (1 # 4) in
  interpMin y = interpLengthFrames y /\
  interpMax y = interpLengthFrames y /\
  exists z,
    updateTarget 1 0 2 (y, g_max) = Some (tt, (z, rng_tail g_max)) /\
    cell z TotalFrames (target_bin y 2) = A_LONG (interpLengthFrames y).
Proof.
  apply (fixed_duration_without_variance x_small 3 (1 # 4) g_max 1 0 2).
  - apply wf_interp_new. vm_compute. congruence.
  - reflexivity.
Defined.

(** X6: a length sent to inlet 0 and a variance sent to inlet 1, in
    either order, leave the object as one call of [setInterpolationTime]
    with both does, an int is handled as the float of the same value, and
    repeating a call of [setInterpolationTime] changes nothing. *)
Theorem inlets_compose (x : t_interp) (l v : Q) (n m : Z) :
  interp_float (interp_float x 0 l) 1 v = setInterpolationTime x l v /\
  interp_float (interp_float x 1 v) 0 l = setInterpolationTime x l v /\
  interp_int (interp_int x 0 n) 1 m =
    setInterpolationTime x (inject_Z n) (inject_Z m) /\
  setInterpolationTime (setInterpolationTime x l v) l v =
    setInterpolationTime x l v.
Proof.
  assert (forall a b, interp_float (interp_float x 0 a) 1 b =
                      setInterpolationTime x a b) as H01.
  { intros a b. destruct x. unfold interp_float.
    cbn [Z.eqb Pos.eqb setInterpolationTime interpLengthSecs
         interpVarianceSecs].
    now rewrite (CLAMP_idempotent a MIN_LENGTH MAX_LENGTH eq_refl). }
  split; [apply H01|]. split; [|split; [apply H01|]].
  - destruct x. unfold interp_float.
    cbn [Z.eqb Pos.eqb setInterpolationTime interpLengthSecs
         interpVarianceSecs].
    now rewrite (CLAMP_idempotent v MIN_VARIANCE MAX_VARIANCE eq_refl).
  - destruct x. reflexivity.
Qed.

Lemma seconds_saturate_witness :
  setInterpolationTime x_default 45 (-2) = setInterpolationTime x_default 30 (-2) /\
  setInterpolationTime x_default 45 (-2) = setInterpolationTime x_default 45 0 /\
  interpVarianceFrames (setInterpolationTime x_default 45 (-2)) = 0.
Proof.
  destruct (seconds_saturate x_default 45 (-2)) as (_ & H30 & _ & _ & H0).
  split; [apply H30; discriminate|]. apply H0. discriminate.
Defined.

(** ** Running legs and a change of configuration *)

Section ConfigOnly.

(** A change [f] of the struct that leaves the tables and the FFT size
    alone. *)
Variable f : t_interp -> t_interp.
Hypothesis f_tbl : forall x t, tbl (f x) t = tbl x t.
Hypothesis f_fftSize : forall x, fftSize (f x) = fftSize x.
Hypothesis f_set_tbl : forall x t l, set_tbl (f x) t l = f (set_tbl x t l).

Lemma commutes_ret {A} (a : A) : commutes_with f (ret a).
Proof. intros x g. reflexivity. Qed.

Lemma commutes_bind {A B} (m : M A) (k : A -> M B) :
  commutes_with f m -> (forall a, commutes_with f (k a)) ->
  commutes_with f (bind m k).
Proof.
  intros Hm Hk x g. unfold bind. rewrite Hm.
  destruct (m (x, g)) as [[a [y g']]|]; [apply Hk | reflexivity].
Qed.

Lemma commutes_load t i : commutes_with f (load t i).
Proof.
  intros x g. unfold load. cbn [fst]. rewrite f_tbl.
  destruct (tbl_get (tbl x t) i); reflexivity.
Qed.

Lemma commutes_store t i a : commutes_with f (store t i a).
Proof.
  intros x g. unfold store. cbn [fst snd]. rewrite f_tbl.
  destruct (tbl_put (tbl x t) i a); [|reflexivity].
  cbn [then_config]. now rewrite f_set_tbl.
Qed.

Lemma commutes_getfloat t i : commutes_with f (getfloat t i).
Proof.
  apply commutes_bind; [apply commutes_load | intros a; apply commutes_ret].
Qed.

Lemma commutes_getlong t i : commutes_with f (getlong t i).
Proof.
  apply commutes_bind; [apply commutes_load | intros a; apply commutes_ret].
Qed.

Lemma commutes_step_frame s : commutes_with f (step_frame s).
Proof.
  intros x g. unfold step_frame. rewrite !run_this. cbv zeta.
  assert (step_bin (f x) (in_index s) = step_bin x (in_index s)) as ->
    by (unfold step_bin; now rewrite f_fftSize).
  generalize (step_bin x (in_index s)). intros bin. revert x g.
  repeat first
    [ apply commutes_ret
    | apply commutes_getfloat
    | apply commutes_getlong
    | apply commutes_store
    | apply commutes_bind; [|intros ?]
    | match goal with
      | |- commutes_with f (if ?c then _ else _) => destruct c
      end ].
Qed.

Lemma commutes_step_loop blk : commutes_with f (step_loop blk).
Proof.
  induction blk as [|s rest IH]; [apply commutes_ret|].
  cbn [step_loop]. apply commutes_bind; [apply commutes_step_frame|].
  intros o. apply commutes_bind; [exact IH|]. intros os. apply commutes_ret.
Qed.

End ConfigOnly.

(** X7: a change of the interpolation time does not reach the legs that
    are running.  Sent before a run of the step loop or after it, a float
    on inlet 0 or 1 leaves the same tables, and the loop writes the same
    values to the outlets (and faults on the same blocks). *)
Theorem step_loop_ignores_configuration (x : t_interp) (g : rng)
    (inlet : Z) (t : Q) (blk : list sample) :
  step_loop blk (interp_float x inlet t, g) =
  then_config (fun y => interp_float y inlet t) (step_loop blk (x, g)).
Proof.
  apply (commutes_step_loop (fun y => interp_float y inlet t)).
  - intros y tb. unfold interp_float.
    destruct (inlet =? 0); [apply tbl_setInterpolationTime|].
    destruct (inlet =? 1); [apply tbl_setInterpolationTime | reflexivity].
  - intros y. unfold interp_float.
    destruct (inlet =? 0); [apply fftSize_setInterpolationTime|].
    destruct (inlet =? 1); [apply fftSize_setInterpolationTime | reflexivity].
  - intros y tb l. unfold interp_float.
    assert (interpLengthSecs (set_tbl y tb l) = interpLengthSecs y
            /\ interpVarianceSecs (set_tbl y tb l) = interpVarianceSecs y)
      as [-> ->] by (destruct y, tb; split; reflexivity).
    destruct (inlet =? 0); [apply set_tbl_setInterpolationTime|].
    destruct (inlet =? 1); [apply set_tbl_setInterpolationTime | reflexivity].
Qed.

(** ** The life of one leg *)

Section Leg.

(** Two well-formed objects of one size whose tables [t] agree cell by
    cell hold the same table. *)
Lemma tbl_ext x y t :
  wf x -> wf y -> fftSize y = fftSize x ->
  (forall j, 0 <= j < fftSize x -> cell y t j = cell x t j) ->
  tbl y t = tbl x t.
Proof.
  intros [_ Hx] [_ Hy] Efs Hcell.
  apply list_eq_same_length with (Z.to_nat (fftSize x));
    [apply Hx | rewrite Hy, Efs; reflexivity |].
  intros k a b Hk Ha Hb.
  specialize (Hcell (Z.of_nat k) ltac:(lia)). unfold cell in Hcell.
  rewrite Nat2Z.id, Ha, Hb in Hcell. cbn in Hcell. congruence.
Qed.

(** The frame counter of a bin over a run of the step loop: it counts
    modulo the duration of the leg, and the flag is set when it wraps. *)
Lemma step_loop_counter blk : forall x g b,
  wf x -> 0 <= b ->
  0 <= atom_getlong (cell x FrameCount b)
    < atom_getlong (cell x TotalFrames b) ->
  exists outs y,
    step_loop blk (x, g) = Some (outs, (y, g)) /\
    cell y TotalFrames b = cell x TotalFrames b /\
    atom_getlong (cell y FrameCount b) =
      (atom_getlong (cell x FrameCount b) + Z.of_nat (count_bin x b blk))
      mod atom_getlong (cell x TotalFrames b) /\
    (atom_getlong (cell x FrameCount b) + Z.of_nat (count_bin x b blk)
       < atom_getlong (cell x TotalFrames b) ->
     cell y UpdateTarget b = cell x UpdateTarget b) /\
    (atom_getlong (cell x TotalFrames b)
       <= atom_getlong (cell x FrameCount b) + Z.of_nat (count_bin x b blk) ->
     cell y UpdateTarget b = A_LONG 1).
Proof.
  induction blk as [|s rest IH]; intros x g b Hwf Hb Hc.
  - exists [], x. change (count_bin x b []) with 0%nat.
    rewrite Z.add_0_r.
    split; [reflexivity|]. split; [reflexivity|].
    split; [now rewrite Z.mod_small|]. split; [reflexivity | lia].
  - cbn [step_loop].
    destruct (step_frame_runs x g s Hwf)
      as (out & y1 & Hrun & Hy1 & Hc1 & _ & _ & _ & Hfc & Hoth & Hbin).
    cbv zeta in Hfc. rewrite count_bin_cons.
    assert (cell y1 TotalFrames b = cell x TotalFrames b) as ET
      by (apply Hoth; discriminate).
    destruct (decide (step_bin x (in_index s) = b)) as [E|E].
    + rewrite E in Hfc. rewrite Z.geb_leb in Hfc.
      set (c := atom_getlong (cell x FrameCount b)) in *.
      set (T := atom_getlong (cell x TotalFrames b)) in *.
      destruct (Z.leb_spec T (c + 1)) as [Hge|Hlt]; destruct Hfc as [HU HF].
      * destruct (IH y1 g b Hy1 Hb) as (outs & y & Hrun' & HT & Hmod & Hk & Hs).
        { rewrite HF, ET. cbn [atom_getlong]. fold T. lia. }
        exists (out :: outs), y.
        split; [unfold bind; rewrite Hrun, Hrun'; reflexivity|].
        rewrite (count_bin_config x y1 b rest Hc1), HF, ET, HU in *.
        cbn [atom_getlong] in *. fold T in Hmod, Hk, Hs |- *.
        split; [now rewrite HT|]. split; [|split].
        -- rewrite Hmod. rewrite Nat2Z.inj_succ.
           replace (c + Z.succ (Z.of_nat (count_bin x b rest)))
             with (0 + Z.of_nat (count_bin x b rest) + 1 * T) by lia.
           now rewrite Z_mod_plus_full.
        -- lia.
        -- intros _.
           destruct (Z_lt_le_dec (0 + Z.of_nat (count_bin x b rest)) T);
             auto.
      * destruct (IH y1 g b Hy1 Hb) as (outs & y & Hrun' & HT & Hmod & Hk & Hs).
        { rewrite HF, ET. cbn [atom_getlong]. fold T. lia. }
        exists (out :: outs), y.
        split; [unfold bind; rewrite Hrun, Hrun'; reflexivity|].
        rewrite (count_bin_config x y1 b rest Hc1), HF, ET, HU in *.
        cbn [atom_getlong] in *. fold T in Hmod, Hk, Hs |- *.
        rewrite Nat2Z.inj_succ.
        replace (c + Z.succ (Z.of_nat (count_bin x b rest)))
          with (c + 1 + Z.of_nat (count_bin x b rest)) by lia.
        split; [now rewrite HT|]. split; [exact Hmod|]. split; assumption.
    + destruct (IH y1 g b Hy1 Hb) as (outs & y & Hrun' & HT & Hmod & Hk & Hs).
      { rewrite !(Hbin _ b) by (assumption || congruence). exact Hc. }
      exists (out :: outs), y.
      split; [unfold bind; rewrite Hrun, Hrun'; reflexivity|].
      rewrite (count_bin_config x y1 b rest Hc1) in *.
      rewrite !(Hbin _ b) in * by (assumption || congruence).
      split; [exact HT|]. split; [exact Hmod|]. split; assumption.
Qed.

End Leg.

(** X8: a leg lasts exactly the drawn number of step frames.  On a
    well-formed object with [1 <= interpMin <= interpMax], after
    [updateTarget] opened a leg of [T] frames for bin [b] and the step
    loop handled [n] frames that resolve to [b], the frame counter of [b]
    is [n mod T], always inside [0, T); the flag of [b] is still clear
    when [n < T] and is set once [n >= T]. *)
Theorem leg_lasts_drawn_duration (x : t_interp) (g : rng)
    (mag phase fftBin : Q) (blk : list sample) :
  wf x -> 1 <= interpMin x <= interpMax x -> 0 <= g 0%nat <= RAND_MAX ->
  let b := target_bin x fftBin in
  let n := Z.of_nat (count_bin x b blk) in
  exists x1 outs x2,
    updateTarget mag phase fftBin (x, g) = Some (tt, (x1, rng_tail g)) /\
    step_loop blk (x1, rng_tail g) = Some (outs, (x2, rng_tail g)) /\
    let T := atom_getlong (cell x1 TotalFrames b) in
    atom_getlong (cell x2 TotalFrames b) = T /\
    atom_getlong (cell x2 FrameCount b) = n mod T /\
    0 <= atom_getlong (cell x2 FrameCount b) < T /\
    (n < T -> atom_getlong (cell x2 UpdateTarget b) = 0) /\
    (T <= n -> atom_getlong (cell x2 UpdateTarget b) = 1).
Proof.
  intros Hwf Hcfg Hr b n.
  pose proof (target_bin_range x fftBin (proj1 Hwf)) as Hb. fold b in Hb.
  destruct (updateTarget_runs x g mag phase fftBin Hwf)
    as (x1 & Hrun & Hx1 & Hc1 & _ & _ & HT & _ & _ & HU & HF & _).
  fold b in HT, HU, HF.
  pose proof (irand_bounds (g 0%nat) (interpMin x) (interpMax x) Hr
                ltac:(lia)) as HTb.
  destruct (step_loop_counter blk x1 (rng_tail g) b Hx1 (proj1 Hb))
    as (outs & x2 & Hrun2 & HT2 & Hmod & Hk & Hs).
  { rewrite HF, HT. cbn [atom_getlong]. lia. }
  rewrite (count_bin_config x x1 b blk Hc1), HF, HT, HU in *.
  cbn [atom_getlong] in *. fold n in Hmod, Hk, Hs.
  exists x1, outs, x2. split; [exact Hrun|]. split; [exact Hrun2|].
  cbv zeta. rewrite HT, HT2, Hmod. cbn [atom_getlong].
  set (T := irand (g 0%nat) (interpMin x) (interpMax x)) in *.
  rewrite Z.add_0_l in *.
  split; [reflexivity|]. split; [reflexivity|].
  split; [apply Z.mod_pos_bound; lia|]. split.
  - intros H. now rewrite (Hk H).
  - intros H. now rewrite (Hs H).
Qed.

Lemma leg_lasts_drawn_duration_witness :
  let b := target_bin x_small 2 in
  let blk := constant_block 4 (mk_sample 0 0 2) in
  let n := Z.of_nat (count_bin x_small b blk) in
  exists x1 outs x2,
    updateTarget 6 3 2 (x_small, g_max) = Some (tt, (x1, rng_tail g_max)) /\
    step_loop blk (x1, rng_tail g_max) = Some (outs, (x2, rng_tail g_max)) /\
    let T := atom_getlong (cell x1 TotalFrames b) in
    atom_getlong (cell x2 TotalFrames b) = T /\
    atom_getlong (cell x2 FrameCount b) = n mod T /\
    0 <= atom_getlong (cell x2 FrameCount b) < T /\
    (n < T -> atom_getlong (cell x2 UpdateTarget b) = 0) /\
    (T <= n -> atom_getlong (cell x2 UpdateTarget b) = 1).
Proof.
  apply (leg_lasts_drawn_duration x_small g_max 6 3 2
           (constant_block 4 (mk_sample 0 0 2))).
  - apply wf_interp_new. vm_compute. congruence.
  - vm_compute. split; congruence.
  - vm_compute. split; congruence.
Defined.

(** X9: the step loop does not look at the flag.  With the floating
    values taken as exact rationals, when [T + m] frames resolve to a bin
    before the refresh loop visits it again, the bin is [m] increments
    past its target. *)
Theorem step_loop_overshoots (x : t_interp) (g : rng)
    (mag phase fftBin : Q) (blk : list sample) (m : Z) :
  wf x -> 1 <= interpMin x <= interpMax x -> 0 <= g 0%nat <= RAND_MAX ->
  let b := target_bin x fftBin in
  exists x1 outs x2,
    updateTarget mag phase fftBin (x, g) = Some (tt, (x1, rng_tail g)) /\
    step_loop blk (x1, rng_tail g) = Some (outs, (x2, rng_tail g)) /\
    (Z.of_nat (count_bin x b blk) = atom_getlong (cell x1 TotalFrames b) + m ->
     (atom_getfloat (cell x2 CurrMag b) ==
        mag + inject_Z m * atom_getfloat (cell x1 IncMag b))%Q /\
     (atom_getfloat (cell x2 CurrPhase b) ==
        phase + inject_Z m * atom_getfloat (cell x1 IncPhase b))%Q).
Proof.
  intros Hwf Hcfg Hr b.
  pose proof (target_bin_range x fftBin (proj1 Hwf)) as Hb. fold b in Hb.
  destruct (updateTarget_runs x g mag phase fftBin Hwf)
    as (x1 & Hrun & Hx1 & Hc1 & _ & _ & HT & HiM & HiP & _ & _ & HcM & HcP & _).
  fold b in HT, HiM, HiP.
  destruct (step_loop_linear blk x1 (rng_tail g) b Hx1 (proj1 Hb))
    as (outs & x2 & Hrun2 & _ & _ & _ & _ & HM & HP).
  rewrite (count_bin_config x x1 b blk Hc1) in HM, HP.
  exists x1, outs, x2. split; [exact Hrun|]. split; [exact Hrun2|].
  intros Hk. rewrite HM, HP, Hk, HiM, HiP, HT, (HcM b), (HcP b).
  cbn [atom_getfloat atom_getlong].
  pose proof (irand_bounds (g 0%nat) (interpMin x) (interpMax x) Hr
                ltac:(lia)) as HTb.
  set (T := irand (g 0%nat) (interpMin x) (interpMax x)) in *.
  assert (~ inject_Z T == 0)%Q as HT0.
  { change 0%Q with (inject_Z 0). rewrite inject_Z_injective. lia. }
  rewrite inject_Z_plus. split; field; exact HT0.
Qed.

Lemma step_loop_overshoots_witness :
  let b := target_bin x_small 2 in
  let blk := constant_block 5 (mk_sample 0 0 2) in
  exists x1 outs x2,
    updateTarget 6 3 2 (x_small, g_max) = Some (tt, (x1, rng_tail g_max)) /\
    step_loop blk (x1, rng_tail g_max) = Some (outs, (x2, rng_tail g_max)) /\
    (Z.of_nat (count_bin x_small b blk) =
       atom_getlong (cell x1 TotalFrames b) + 2 ->
     (atom_getfloat (cell x2 CurrMag b) ==
        6 + inject_Z 2 * atom_getfloat (cell x1 IncMag b))%Q /\
     (atom_getfloat (cell x2 CurrPhase b) ==
        3 + inject_Z 2 * atom_getfloat (cell x1 IncPhase b))%Q).
Proof.
  apply (step_loop_overshoots x_small g_max 6 3 2
           (constant_block 5 (mk_sample 0 0 2)) 2).
  - apply wf_interp_new. vm_compute. congruence.
  - vm_compute. split; congruence.
  - vm_compute. split; congruence.
Defined.

(** ** What an acquisition and a refresh leave alone *)

(** X10: on a well-formed object [updateTarget] never faults, uses one
    value of [random()], keeps the configuration, leaves the two tables
    of current values as they are and changes no cell of any bin other
    than the one the index resolves to. *)
Theorem updateTarget_touches_one_bin (x : t_interp) (g : rng)
    (mag phase fftBin : Q) :
  wf x ->
  exists y,
    updateTarget mag phase fftBin (x, g) = Some (tt, (y, rng_tail g)) /\
    wf y /\ same_config x y /\
    currMag y = currMag x /\ currPhase y = currPhase x /\
    (forall t j, 0 <= j -> j <> target_bin x fftBin ->
                 cell y t j = cell x t j).
Proof.
  intros Hwf.
  destruct (updateTarget_runs x g mag phase fftBin Hwf)
    as (y & Hrun & Hy & Hc & _ & _ & _ & _ & _ & _ & _ & HcM & HcP & Hoth).
  exists y. split; [exact Hrun|]. split; [exact Hy|]. split; [exact Hc|].
  split; [|split; [|exact Hoth]].
  - apply (tbl_ext x y CurrMag Hwf Hy (proj1 Hc)). intros j _. apply HcM.
  - apply (tbl_ext x y CurrPhase Hwf Hy (proj1 Hc)). intros j _. apply HcP.
Qed.

Lemma updateTarget_touches_one_bin_witness :
  exists y,
    updateTarget 6 3 2 (x_small, g_max) = Some (tt, (y, rng_tail g_max)) /\
    wf y /\ same_config x_small y /\
    currMag y = currMag x_small /\ currPhase y = currPhase x_small /\
    (forall t j, 0 <= j -> j <> target_bin x_small 2 ->
                 cell y t j = cell x_small t j).
Proof.
  apply (updateTarget_touches_one_bin x_small g_max 6 3 2).
  apply wf_interp_new. vm_compute. congruence.
Defined.

(** X11: a flagged position whose index input resolves to another bin
    keeps its flag.  The refresh step copies the target of the position
    into its current value, opens a leg for the other bin and clears the
    flag of that bin only, so the position is refreshed again by every
    later block while its own target never changes. *)
Theorem refresh_elsewhere_keeps_flag (x : t_interp) (g : rng) (i : Z)
    (s : sample) :
  wf x -> 0 <= i < fftSize x ->
  atom_getlong (cell x UpdateTarget i) <> 0 ->
  target_bin x (in_index s) <> i ->
  exists y,
    refresh_at i s (x, g) = Some (tt, (y, rng_tail g)) /\
    cell y UpdateTarget i = cell x UpdateTarget i /\
    cell y TargetMag i = cell x TargetMag i /\
    cell y TargetPhase i = cell x TargetPhase i /\
    cell y CurrMag i = A_FLOAT (atom_getfloat (cell x TargetMag i)) /\
    cell y CurrPhase i = A_FLOAT (atom_getfloat (cell x TargetPhase i)) /\
    cell y UpdateTarget (target_bin x (in_index s)) = A_LONG 0 /\
    cell y TargetMag (target_bin x (in_index s)) = A_FLOAT (in_mag s) /\
    cell y TargetPhase (target_bin x (in_index s)) = A_FLOAT (in_phase s).
Proof.
  intros Hwf Hi Hflag Hbin.
  rewrite refresh_at_fires by assumption.
  destruct (updateTarget_runs (carry x i) g (in_mag s) (in_phase s)
              (in_index s) (wf_carry x i Hwf))
    as (y & Hrun & _ & _ & HtM & HtP & _ & _ & _ & HU & _ & HcM & HcP & Hoth).
  rewrite (target_bin_config x _ _ (same_config_carry x i)) in *.
  exists y. split; [exact Hrun|].
  rewrite !(Hoth _ i) by (lia || congruence).
  rewrite HU, HtM, HtP. unfold carry. cells.
  repeat split; reflexivity.
Qed.

Lemma refresh_elsewhere_keeps_flag_witness :
  let s := mk_sample 9 0 1 in
  exists y,
    refresh_at 0 s (x_midleg, g_zero) = Some (tt, (y, rng_tail g_zero)) /\
    cell y UpdateTarget 0 = cell x_midleg UpdateTarget 0 /\
    cell y TargetMag 0 = cell x_midleg TargetMag 0 /\
    cell y TargetPhase 0 = cell x_midleg TargetPhase 0 /\
    cell y CurrMag 0 = A_FLOAT (atom_getfloat (cell x_midleg TargetMag 0)) /\
    cell y CurrPhase 0 = A_FLOAT (atom_getfloat (cell x_midleg TargetPhase 0)) /\
    cell y UpdateTarget (target_bin x_midleg (in_index s)) = A_LONG 0 /\
    cell y TargetMag (target_bin x_midleg (in_index s)) = A_FLOAT (in_mag s) /\
    cell y TargetPhase (target_bin x_midleg (in_index s)) = A_FLOAT (in_phase s).
Proof.
  apply (refresh_elsewhere_keeps_flag x_midleg g_zero 0 (mk_sample 9 0 1)).
  - exact wf_x_midleg.
  - vm_compute. split; congruence.
  - vm_compute. congruence.
  - vm_compute. congruence.
Defined.

(** ** The perform routine as a whole *)

Section Perform.

Lemma refresh_loop_total blk : forall i x g,
  wf x -> 0 <= i -> i + Z.of_nat (length blk) <= fftSize x ->
  exists y g',
    refresh_loop i blk (x, g) = Some (tt, (y, g')) /\
    wf y /\ same_config x y.
Proof.
  induction blk as [|s rest IH]; intros i x g Hwf Hi Hlen.
  - exists x, g. auto using same_config_refl.
  - cbn [length] in Hlen. cbn [refresh_loop]. unfold bind.
    destruct (refresh_at_runs x g i s Hwf ltac:(lia))
      as (y1 & g1 & -> & Hy1 & Hc1).
    destruct (IH (i + 1) y1 g1 Hy1 ltac:(lia)
                ltac:(destruct Hc1 as [-> _]; lia))
      as (y & g' & Hrun & Hy & Hc).
    exists y, g'. split; [exact Hrun|]. split; [exact Hy|].
    eapply same_config_trans; eassumption.
Qed.

Lemma step_loop_length blk : forall x g outs w,
  step_loop blk (x, g) = Some (outs, w) -> length outs = length blk.
Proof.
  induction blk as [|s rest IH]; intros x g outs w H.
  - injection H as <- _. reflexivity.
  - cbn [step_loop] in H. unfold bind in H.
    destruct (step_frame s (x, g)) as [[o [y1 g1]]|]; [|discriminate].
    destruct (step_loop rest (y1, g1)) as [[os w1]|] eqn:E; [|discriminate].
    injection H as <- _. cbn [length]. f_equal. eapply IH. exact E.
Qed.

End Perform.

(** X12: on a well-formed object [interp_perform64] runs without a fault
    exactly when the block is at most [fftSize] frames long; it then
    writes one pair to the outlets for each frame, leaves the object well
    formed and does not change the configuration. *)
Theorem perform_runs_on_short_blocks (x : t_interp) (g : rng)
    (blk : list sample) :
  wf x ->
  (is_Some (interp_perform64 blk (x, g)) <->
   Z.of_nat (length blk) <= fftSize x) /\
  (forall outs y g',
     interp_perform64 blk (x, g) = Some (outs, (y, g')) ->
     length outs = length blk /\ wf y /\ same_config x y).
Proof.
  intros Hwf. split; [split|].
  - intros [r Hr]. unfold interp_perform64, bind in Hr.
    destruct (refresh_loop 0 blk (x, g)) as [[[] w]|] eqn:E; [|discriminate].
    assert (is_Some (refresh_loop 0 blk (x, g))) as HS
      by (rewrite E; now eexists).
    apply (refresh_loop_runs_iff blk 0 x g Hwf ltac:(lia)) in HS as [->|H];
      [destruct Hwf; cbn; lia | lia].
  - intros Hlen.
    destruct (refresh_loop_total blk 0 x g Hwf ltac:(lia) ltac:(lia))
      as (y & g' & Hrun & Hy & _).
    destruct (step_loop_runs blk y g' Hy) as (outs & z & Hrun' & _).
    unfold interp_perform64, bind. rewrite Hrun, Hrun'. now eexists.
  - intros outs z g2 H.
    assert (Z.of_nat (length blk) <= fftSize x) as Hlen.
    { destruct (Z_lt_le_dec (fftSize x) (Z.of_nat (length blk))) as [C|]; [|lia].
      exfalso. unfold interp_perform64, bind in H.
      destruct (refresh_loop 0 blk (x, g)) as [[[] w]|] eqn:E; [|discriminate].
      assert (is_Some (refresh_loop 0 blk (x, g))) as HS
        by (rewrite E; now eexists).
      apply (refresh_loop_runs_iff blk 0 x g Hwf ltac:(lia)) in HS
        as [->|H']; [destruct Hwf; cbn in C; lia | lia]. }
    destruct (refresh_loop_total blk 0 x g Hwf ltac:(lia) ltac:(lia))
      as (y & g' & Hrun & Hy & Hc).
    destruct (step_loop_runs blk y g' Hy) as (outs' & z' & Hrun' & Hz & Hc' & _).
    unfold interp_perform64, bind in H. rewrite Hrun in H.
    pose proof (step_loop_length blk y g' outs (z, g2) H) as Hl.
    rewrite Hrun' in H. injection H as <- <- <-.
    split; [exact Hl|]. split; [exact Hz|].
    eapply same_config_trans; eassumption.
Qed.

Lemma perform_runs_on_short_blocks_witness :
  let blk := constant_block 5 (mk_sample 1 0 0) in
  (is_Some (interp_perform64 blk (x_small, g_zero)) <->
   Z.of_nat (length blk) <= fftSize x_small) /\
  (forall outs y g',
     interp_perform64 blk (x_small, g_zero) = Some (outs, (y, g')) ->
     length outs = length blk /\ wf y /\ same_config x_small y).
Proof.
  apply (perform_runs_on_short_blocks x_small g_zero).
  apply wf_interp_new. vm_compute. congruence.
Defined.

(** ** Blocks indexed by position *)

Section Blocks.

Lemma step_bin_target_bin x q :
  1 <= fftSize x -> step_bin x q = target_bin x q.
Proof.
  intros H. now rewrite step_bin_clamp, target_bin_clamp.
Qed.

(** Bins that agree on every table step alike. *)
Lemma stepped_bin_from x x' y b out :
  (forall t, cell x' t b = cell x t b) ->
  stepped_bin x' y b out -> stepped_bin x y b out.
Proof.
  intros E H. unfold stepped_bin in *. now rewrite !E in H.
Qed.

Lemma stepped_bin_to x y y' b out :
  (forall t, cell y' t b = cell y t b) ->
  stepped_bin x y b out -> stepped_bin x y' b out.
Proof.
  intros E H. unfold stepped_bin in *. now rewrite !E.
Qed.

Lemma stepped_stepped_bin x y b out :
  stepped x b out y -> stepped_bin x y b out.
Proof.
  intros (_ & _ & Hm & Hp & Ho & Hfc & Hoth & _).
  unfold stepped_bin. repeat (split; [assumption|]).
  repeat split; apply Hoth; discriminate.
Qed.

(** The step loop on a block indexed by position: each frame steps its
    own bin once, from the cells the block started with. *)
Lemma step_loop_by_position blk : forall i0 x g,
  wf x -> 0 <= i0 -> indexed_by_position x i0 blk ->
  exists outs y,
    step_loop blk (x, g) = Some (outs, (y, g)) /\
    wf y /\ same_config x y /\
    (forall t j, 0 <= j < i0 -> cell y t j = cell x t j) /\
    (forall (k : nat) s, blk !! k = Some s ->
       exists out, outs !! k = Some out /\
                   stepped_bin x y (i0 + Z.of_nat k) out).
Proof.
  induction blk as [|s rest IH]; intros i0 x g Hwf Hi0 Hidx.
  - exists [], x. split; [reflexivity|]. split; [exact Hwf|].
    split; [apply same_config_refl|]. split; [reflexivity|].
    intros k s Hk. discriminate Hk.
  - cbn [step_loop].
    destruct (indexed_by_position_tail x i0 s rest Hidx) as [Hbin Hrest].
    rewrite <- (step_bin_target_bin x _ (proj1 Hwf)) in Hbin.
    destruct (step_frame_runs x g s Hwf) as (out & y1 & Hrun & Hst).
    rewrite Hbin in Hst.
    pose proof (stepped_stepped_bin _ _ _ _ Hst) as Hsb.
    destruct Hst as (Hy1 & Hc1 & _ & _ & _ & _ & _ & Hoth1).
    destruct (IH (i0 + 1) y1 g Hy1 ltac:(lia)
                (indexed_by_position_config x y1 _ _ Hc1 Hrest))
      as (outs & y & Hrun' & Hy & Hc & Hlow & Hpos).
    exists (out :: outs), y.
    split; [unfold bind; rewrite Hrun, Hrun'; reflexivity|].
    split; [exact Hy|].
    split; [eapply same_config_trans; eassumption|]. split.
    + intros t j Hj. rewrite Hlow by lia. apply Hoth1; lia.
    + intros [|k] s' Hk.
      * exists out. split; [reflexivity|].
        replace (i0 + Z.of_nat 0) with i0 by lia.
        apply (stepped_bin_to x y1 y); [|exact Hsb].
        intros t. apply Hlow. lia.
      * cbn in Hk. destruct (Hpos k s' Hk) as (o & Ho & Hso).
        exists o. split; [exact Ho|].
        replace (i0 + Z.of_nat (S k)) with (i0 + 1 + Z.of_nat k) by lia.
        apply (stepped_bin_from x y1); [|exact Hso].
        intros t. apply Hoth1; lia.
Qed.

(** One block indexed by position: the object after the refresh loop,
    the object after the step loop, and what each position went through. *)
Lemma perform_by_position_cells x g blk :
  wf x -> Z.of_nat (length blk) <= fftSize x ->
  indexed_by_position x 0 blk ->
  exists outs y z g',
    refresh_loop 0 blk (x, g) = Some (tt, (y, g')) /\
    interp_perform64 blk (x, g) = Some (outs, (z, g')) /\
    wf z /\ same_config x z /\
    (forall (k : nat) s, blk !! k = Some s ->
       refreshed x y (Z.of_nat k) s /\
       exists out, outs !! k = Some out /\
                   stepped_bin y z (Z.of_nat k) out).
Proof.
  intros Hwf Hlen Hidx.
  destruct (refresh_loop_by_position blk 0 x g Hwf ltac:(lia) ltac:(lia) Hidx)
    as (y & g' & Hrun & Hy & Hc & _ & Hpos).
  destruct (step_loop_by_position blk 0 y g' Hy ltac:(lia)
              (indexed_by_position_config x y _ _ Hc Hidx))
    as (outs & z & Hrun' & Hz & Hc' & _ & Hpos').
  exists outs, y, z, g'. split; [exact Hrun|].
  split; [unfold interp_perform64, bind; now rewrite Hrun|].
  split; [exact Hz|]. split; [eapply same_config_trans; eassumption|].
  intros k s Hk. split.
  - now apply (Hpos k s Hk).
  - now apply (Hpos' k s Hk).
Qed.

End Blocks.



(** ** Any sequence of calls *)

Section Session.

Lemma engine_ok_interp_new sr pfft argv :
  0 <= sr -> 1 <= getFFTSize pfft ->
  engine_ok (getFFTSize pfft) (interp_new sr pfft argv).
Proof.
  intros Hsr Hfs. split; [now apply wf_interp_new|].
  split; [apply fftSize_interp_new|]. split; [exact Hsr|].
  destruct (interp_new_config sr pfft argv) as (l & v & x & E1 & E2 & Hc).
  destruct Hc as (_ & _ & _ & _ & _ & _ & -> & ->).
  apply setInterpolationTime_bounds; [rewrite E2 | rewrite E1]; assumption.
Qed.

Lemma engine_ok_setInterpolationTime n x l v :
  engine_ok n x -> engine_ok n (setInterpolationTime x l v).
Proof.
  intros (Hwf & Hfs & Hsr & _).
  split; [now apply wf_setInterpolationTime|].
  split; [now rewrite fftSize_setInterpolationTime|].
  split; [now rewrite sampleRate_setInterpolationTime|].
  apply setInterpolationTime_bounds; [exact Hsr | apply Hwf].
Qed.

Lemma engine_ok_interp_float n x inlet f :
  engine_ok n x -> engine_ok n (interp_float x inlet f).
Proof.
  intros H. unfold interp_float.
  destruct (inlet =? 0); [now apply engine_ok_setInterpolationTime|].
  destruct (inlet =? 1); [now apply engine_ok_setInterpolationTime | exact H].
Qed.

Lemma engine_ok_same_config n x y :
  wf y -> same_config x y -> engine_ok n x -> engine_ok n y.
Proof.
  intros Hy (E1 & E2 & _ & _ & _ & _ & E3 & E4) (_ & Hfs & Hsr & Hmm).
  split; [exact Hy|]. rewrite E1, E2, E3, E4. auto.
Qed.

(** One admissible call on an object in order. *)
Lemma dispatch_runs n c x g :
  engine_ok n x -> admissible n c ->
  exists o y g',
    dispatch c (x, g) = Some (o, (y, g')) /\
    outlets_of c o /\ engine_ok n y.
Proof.
  intros Hok Hadm. destruct c as [|inlet k|inlet f| |samplerate|blk].
  - exists [], x, g. split; [reflexivity|]. split; [reflexivity | exact Hok].
  - exists [], (interp_int x inlet k), g.
    split; [reflexivity|]. split; [reflexivity|].
    now apply engine_ok_interp_float.
  - exists [], (interp_float x inlet f), g.
    split; [reflexivity|]. split; [reflexivity|].
    now apply engine_ok_interp_float.
  - exists [], x, g. split; [reflexivity|]. split; [reflexivity | exact Hok].
  - destruct (interp_dsp64_runs x g samplerate (proj1 Hok))
      as (y & Hrun & Hy & Esr & Efs & _ & _ & _ & _ & Emn & Emx & _).
    exists [], y, g. cbn [dispatch]. unfold bind. rewrite Hrun.
    split; [reflexivity|]. split; [reflexivity|].
    destruct Hok as (_ & Hfs & _ & Hmm).
    split; [exact Hy|]. rewrite Efs, Esr, Emn, Emx.
    split; [exact Hfs|]. split; [|exact Hmm].
    rewrite <- (Qtrunc_inject_Z 0). now apply Qtrunc_mono.
  - cbn [admissible] in Hadm. destruct Hok as (Hwf & Hfs & Hrest).
    destruct (refresh_loop_total blk 0 x g Hwf ltac:(lia) ltac:(lia))
      as (y & g' & Hrun & Hy & Hc).
    destruct (step_loop_runs blk y g' Hy) as (outs & z & Hrun' & Hz & Hc' & _).
    exists outs, z, g'. cbn [dispatch]. unfold interp_perform64, bind.
    rewrite Hrun. split; [exact Hrun'|].
    split; [apply (step_loop_length blk y g' outs _ Hrun')|].
    apply (engine_ok_same_config n x z Hz); [|now split].
    eapply same_config_trans; eassumption.
Qed.

End Session.

(** X14: no sequence of calls breaks the object.  Starting from
    [interp_new] (sample rate not negative, at least one bin), any
    sequence of bang, int, float, assist, dsp64 and perform calls whose
    sample rates are not negative and whose signal vectors are at most
    [fftSize] frames long runs without a memory fault, yields a pair for
    each frame of each vector, and leaves a well-formed object with the
    same [fftSize] and [1 <= interpMin <= interpMax]. *)
Theorem session_never_faults (sr : Z) (pfft : option Z) (argv : list t_atom)
    (g : rng) (cs : list call) :
  0 <= sr -> 1 <= getFFTSize pfft ->
  Forall (admissible (getFFTSize pfft)) cs ->
  exists outs y g',
    session cs (interp_new sr pfft argv, g) = Some (outs, (y, g')) /\
    Forall2 outlets_of cs outs /\
    engine_ok (getFFTSize pfft) y.
Proof.
  intros Hsr Hfs Hadm.
  pose proof (engine_ok_interp_new sr pfft argv Hsr Hfs) as Hok.
  revert Hok. generalize (interp_new sr pfft argv). revert g.
  induction Hadm as [|c cs Hc Hcs IH]; intros g x Hok.
  - exists [], x, g. split; [reflexivity|]. split; [constructor | exact Hok].
  - destruct (dispatch_runs _ c x g Hok Hc) as (o & y1 & g1 & Hrun & Ho & Hok1).
    destruct (IH g1 y1 Hok1) as (os & y & g' & Hrun' & Hos & Hy).
    exists (o :: os), y, g'. cbn [session]. unfold bind.
    rewrite Hrun, Hrun'. split; [reflexivity|].
    split; [now constructor | exact Hy].
Qed.

Lemma session_never_faults_witness :
  let cs := [call_float 0 3; call_dsp64 48000;
             call_perform64 (constant_block 4 (mk_sample 1 0 7));
             call_int 1 (-5); call_bang;
             call_perform64 (constant_block 2 (mk_sample 2 1 (-3)))] in
  exists outs y g',
    session cs (interp_new 44100 (Some 4) [], g_max) = Some (outs, (y, g')) /\
    Forall2 outlets_of cs outs /\
    engine_ok (getFFTSize (Some 4)) y.
Proof.
  apply (session_never_faults 44100 (Some 4) [] g_max).
  - lia.
  - cbn. lia.
  - repeat constructor; cbn; (lia || discriminate).
Defined.

(** X15: starting audio keeps every table but the flags, and so abandons
    the legs that were running.  After [interp_dsp64] on a well-formed
    object, the refresh of a position whose index resolves to it sets the
    current value of the bin to the target it was heading for, wherever
    the bin was on the way, and opens a new leg from there. *)
Theorem dsp64_restarts_legs (x : t_interp) (g : rng) (samplerate : Q)
    (i : Z) (s : sample) :
  wf x -> 0 <= i < fftSize x -> target_bin x (in_index s) = i ->
  exists y z,
    interp_dsp64 samplerate (x, g) = Some (tt, (y, g)) /\
    (forall t, t <> UpdateTarget -> tbl y t = tbl x t) /\
    refresh_at i s (y, g) = Some (tt, (z, rng_tail g)) /\
    cell z CurrMag i = A_FLOAT (atom_getfloat (cell x TargetMag i)) /\
    cell z CurrPhase i = A_FLOAT (atom_getfloat (cell x TargetPhase i)) /\
    cell z TargetMag i = A_FLOAT (in_mag s) /\
    cell z TargetPhase i = A_FLOAT (in_phase s) /\
    cell z FrameCount i = A_LONG 0 /\
    cell z UpdateTarget i = A_LONG 0.
Proof.
  intros Hwf Hi Hbin.
  destruct (interp_dsp64_runs x g samplerate Hwf)
    as (y & Hrun & Hy & _ & Efs & _ & _ & _ & _ & _ & _ & Hset & Hoth).
  assert (atom_getlong (cell y UpdateTarget i) <> 0) as Hflag
    by (rewrite (Hset i Hi); discriminate).
  assert (target_bin y (in_index s) = i) as Hbin'
    by (unfold target_bin in *; now rewrite Efs).
  destruct (refresh_at_own_bin y g i s Hy ltac:(lia) Hflag Hbin')
    as (z & Hrun' & _ & _ & [_ Hfire] & _).
  destruct (Hfire Hflag) as (EcM & EcP & EtM & EtP & _ & _ & EU & EF).
  exists y, z. split; [exact Hrun|]. split.
  - intros t Ht. apply (tbl_ext x y t Hwf Hy Efs). intros j _. now apply Hoth.
  - split; [exact Hrun'|].
    rewrite (Hoth TargetMag i), (Hoth TargetPhase i) in * by discriminate.
    auto 10.
Qed.

Lemma dsp64_restarts_legs_witness :
  let s := mk_sample 9 0 1 in
  exists y z,
    interp_dsp64 4 (x_midleg, g_zero) = Some (tt, (y, g_zero)) /\
    (forall t, t <> UpdateTarget -> tbl y t = tbl x_midleg t) /\
    refresh_at 1 s (y, g_zero) = Some (tt, (z, rng_tail g_zero)) /\
    cell z CurrMag 1 = A_FLOAT (atom_getfloat (cell x_midleg TargetMag 1)) /\
    cell z CurrPhase 1 = A_FLOAT (atom_getfloat (cell x_midleg TargetPhase 1)) /\
    cell z TargetMag 1 = A_FLOAT (in_mag s) /\
    cell z TargetPhase 1 = A_FLOAT (in_phase s) /\
    cell z FrameCount 1 = A_LONG 0 /\
    cell z UpdateTarget 1 = A_LONG 0.
Proof.
  apply (dsp64_restarts_legs x_midleg g_zero 4 1 (mk_sample 9 0 1)).
  - exact wf_x_midleg.
  - vm_compute. split; congruence.
  - reflexivity.
Defined.

(** ** One leg over successive blocks *)

Section Ramp.

(** The durations that the refresh loop stores on a block indexed by
    position are values of [irand] for the range of the object. *)
Lemma refresh_loop_durations blk : forall i0 x g y g',
  wf x -> 0 <= i0 -> i0 + Z.of_nat (length blk) <= fftSize x ->
  indexed_by_position x i0 blk ->
  refresh_loop i0 blk (x, g) = Some (tt, (y, g')) ->
  forall (k : nat) s, blk !! k = Some s ->
    atom_getlong (cell x UpdateTarget (i0 + Z.of_nat k)) <> 0 ->
    exists n : nat,
      cell y TotalFrames (i0 + Z.of_nat k) =
        A_LONG (irand (g n) (interpMin x) (interpMax x)).
Proof.
  induction blk as [|s rest IH]; intros i0 x g y g' Hwf Hi0 Hlen Hidx Hrun k s' Hk;
    [discriminate Hk|].
  cbn [length] in Hlen. cbn [refresh_loop] in Hrun. unfold bind in Hrun.
  destruct (indexed_by_position_tail x i0 s rest Hidx) as [Hbin Hrest].
  destruct (Z.eq_dec (atom_getlong (cell x UpdateTarget i0)) 0) as [E|E].
  - rewrite refresh_at_idle in Hrun by (assumption || lia).
    destruct k as [|k]; intros Hflag.
    + replace (i0 + Z.of_nat 0) with i0 in Hflag by lia. contradiction.
    + cbn in Hk.
      replace (i0 + Z.of_nat (S k)) with (i0 + 1 + Z.of_nat k) in * by lia.
      apply (IH (i0 + 1) x g y g' Hwf ltac:(lia) ltac:(lia) Hrest Hrun k s' Hk
               Hflag).
  - rewrite refresh_at_fires in Hrun by (assumption || lia).
    destruct (updateTarget_runs (carry x i0) g (in_mag s) (in_phase s)
                (in_index s) (wf_carry x i0 Hwf))
      as (y1 & Hrun1 & Hy1 & Hc1 & _ & _ & HT & _ & _ & _ & _ & _ & _ & Hoth).
    rewrite Hrun1 in Hrun.
    rewrite (target_bin_config x _ _ (same_config_carry x i0)), Hbin in *.
    pose proof (same_config_trans _ _ _ (same_config_carry x i0) Hc1) as Hc.
    assert (interpMin (carry x i0) = interpMin x
            /\ interpMax (carry x i0) = interpMax x) as [Emn Emx]
      by (destruct (same_config_carry x i0) as (_&_&_&_&_&_&?&?); auto).
    rewrite Emn, Emx in HT.
    destruct (refresh_loop_by_position rest (i0 + 1) y1 (rng_tail g) Hy1
                ltac:(lia) ltac:(destruct Hc as [-> _]; lia)
                (indexed_by_position_config x y1 _ _ Hc Hrest))
      as (y' & g'' & Hrun' & _ & _ & Hlow & _).
    destruct k as [|k]; intros Hflag.
    + exists 0%nat. replace (i0 + Z.of_nat 0) with i0 by lia.
      rewrite Hrun' in Hrun. injection Hrun as <- _.
      rewrite Hlow by lia. exact HT.
    + cbn in Hk.
      replace (i0 + Z.of_nat (S k)) with (i0 + 1 + Z.of_nat k) in * by lia.
      assert (forall t, cell y1 t (i0 + 1 + Z.of_nat k)
                        = cell x t (i0 + 1 + Z.of_nat k)) as E1.
      { intros t. rewrite Hoth by lia. unfold carry. now cells. }
      destruct (IH (i0 + 1) y1 (rng_tail g) y g' Hy1 ltac:(lia)
                  ltac:(destruct Hc as [-> _]; lia)
                  (indexed_by_position_config x y1 _ _ Hc Hrest) Hrun k s' Hk)
        as (n & Hn).
      { now rewrite E1. }
      exists (S n). destruct Hc as (_ & _ & _ & _ & _ & _ & <- & <-).
      exact Hn.
Qed.

Lemma block_with_config x y k blk :
  same_config x y -> block_with x k blk -> block_with y k blk.
Proof.
  intros Hc (H1 & H2 & H3). split; [destruct Hc as [-> _]; exact H1|].
  split; [now apply (indexed_by_position_config x y) | exact H3].
Qed.

(** One step of a bin that is [c] frames into its leg. *)
Lemma midleg_step x z j m0 p0 m p T c out :
  midleg x j m0 p0 m p T c -> 0 <= c < T ->
  stepped_bin x z j out ->
  on_ramp m0 p0 m p T (c + 1) out /\
  (c + 1 < T -> midleg z j m0 p0 m p T (c + 1)) /\
  (c + 1 = T -> leg_done z j m p).
Proof.
  intros (HtM & HtP & HT & HiM & HiP & HcM & HcP & HF & HU) Hc
         (EcM & EcP & -> & Hfc & EtM & EtP & EiM & EiP & ET).
  rewrite HiM in EcM, EiM. rewrite HiP in EcP, EiP.
  rewrite HT, HF in Hfc. rewrite HT in ET. rewrite HtM in EtM.
  rewrite HtP in EtP. rewrite HiM, HiP.
  cbn [atom_getlong atom_getfloat] in *.
  assert (~ inject_Z T == 0)%Q as HT0.
  { change 0%Q with (inject_Z 0). rewrite inject_Z_injective. lia. }
  assert ((atom_getfloat (cell x CurrMag j) + (m - m0) / inject_Z T ==
           m0 + inject_Z (c + 1) * ((m - m0) / inject_Z T))%Q) as RM.
  { rewrite HcM, inject_Z_plus. ring. }
  assert ((atom_getfloat (cell x CurrPhase j) + (p - p0) / inject_Z T ==
           p0 + inject_Z (c + 1) * ((p - p0) / inject_Z T))%Q) as RP.
  { rewrite HcP, inject_Z_plus. ring. }
  split; [split; assumption|].
  rewrite Z.geb_leb in Hfc.
  destruct (Z.leb_spec T (c + 1)) as [Hge|Hlt]; destruct Hfc as [EU EF].
  - split; [lia|]. intros E.
    unfold leg_done. rewrite EtM, EtP, EcM, EcP, EU, EF.
    cbn [atom_getfloat]. rewrite RM, RP, E.
    split; [reflexivity|]. split; [reflexivity|].
    split; [field; exact HT0|]. split; [field; exact HT0|].
    split; reflexivity.
  - split; [|lia]. intros _.
    unfold midleg. rewrite EtM, EtP, ET, EiM, EiP, EcM, EcP, EU, EF.
    cbn [atom_getfloat atom_getlong].
    repeat (split; [reflexivity|]). split; [exact RM|]. split; [exact RP|].
    split; [reflexivity | exact HU].
Qed.

(** A bin in the middle of its leg, over one more block. *)
Lemma perform_midleg x g k blk m0 p0 m p T c :
  wf x -> block_with x k blk ->
  midleg x (Z.of_nat k) m0 p0 m p T c -> 0 <= c < T ->
  exists outs z g',
    interp_perform64 blk (x, g) = Some (outs, (z, g')) /\
    wf z /\ same_config x z /\
    (exists out, outs !! k = Some out /\ on_ramp m0 p0 m p T (c + 1) out) /\
    (c + 1 < T -> midleg z (Z.of_nat k) m0 p0 m p T (c + 1)) /\
    (c + 1 = T -> leg_done z (Z.of_nat k) m p).
Proof.
  intros Hwf (Hlen & Hidx & Hk) Hmid Hc.
  destruct (perform_by_position_cells x g blk Hwf Hlen Hidx)
    as (outs & y & z & g' & _ & Hrun & Hz & Hcz & Hpos).
  destruct (lookup_lt_is_Some_2 blk k Hk) as [s Hs].
  destruct (Hpos k s Hs) as ([Hidle _] & out & Ho & Hst).
  assert (forall t, cell y t (Z.of_nat k) = cell x t (Z.of_nat k)) as E
    by (apply Hidle; apply Hmid).
  apply (stepped_bin_from x y z) in Hst; [|exact E].
  destruct (midleg_step x z _ m0 p0 m p T c out Hmid Hc Hst) as (Hr & H1 & H2).
  exists outs, z, g'. split; [exact Hrun|]. split; [exact Hz|].
  split; [exact Hcz|]. split; [now exists out|]. now split.
Qed.

(** A bin in the middle of its leg, over the blocks that are left. *)
Lemma session_midleg more : forall x g k m0 p0 m p T c,
  wf x -> Forall (block_with x k) more ->
  midleg x (Z.of_nat k) m0 p0 m p T c -> 0 <= c < T ->
  c + Z.of_nat (length more) <= T ->
  exists outss z g',
    session (map call_perform64 more) (x, g) = Some (outss, (z, g')) /\
    (forall (r : nat) o, outss !! r = Some o ->
       exists out, o !! k = Some out /\
                   on_ramp m0 p0 m p T (c + Z.of_nat r + 1) out) /\
    (c + Z.of_nat (length more) < T ->
     midleg z (Z.of_nat k) m0 p0 m p T (c + Z.of_nat (length more))) /\
    (c + Z.of_nat (length more) = T -> leg_done z (Z.of_nat k) m p).
Proof.
  induction more as [|blk rest IH];
    intros x g k m0 p0 m p T c Hwf Hall Hmid Hc Hlen.
  - exists [], x, g. cbn [length] in *. rewrite Z.add_0_r.
    split; [reflexivity|]. split; [intros r o Hr; discriminate Hr|].
    split; [intros _; exact Hmid | lia].
  - apply Forall_cons in Hall as [Hblk Hall]. cbn [length] in Hlen.
    destruct (perform_midleg x g k blk m0 p0 m p T c Hwf Hblk Hmid Hc)
      as (outs & z1 & g1 & Hrun & Hz1 & Hc1 & (out & Ho & Hramp) & Hm1 & Hd1).
    cbn [map session dispatch]. unfold bind. rewrite Hrun.
    destruct (Z_lt_le_dec (c + 1) T) as [Hlt|Hge].
    + destruct (IH z1 g1 k m0 p0 m p T (c + 1) Hz1) as
        (outss & z & g' & Hrun' & Hout & Hm & Hd);
        [ eapply Forall_impl; [exact Hall|];
          intros b; apply block_with_config; exact Hc1
        | now apply Hm1 | lia | lia |].
      rewrite Hrun'. exists (outs :: outss), z, g'.
      split; [reflexivity|]. split; [|split].
      * intros [|r] o Hr.
        -- injection Hr as <-. exists out. split; [exact Ho|].
           now rewrite Z.add_0_r.
        -- destruct (Hout r o Hr) as (out' & Ho' & Hr').
           exists out'. split; [exact Ho'|].
           now replace (c + Z.of_nat (S r) + 1)
             with (c + 1 + Z.of_nat r + 1) by lia.
      * intros H. cbn [length] in H |- *.
        replace (c + Z.of_nat (S (length rest)))
          with (c + 1 + Z.of_nat (length rest)) by lia.
        apply Hm. lia.
      * intros H. apply Hd. cbn [length] in H. lia.
    + assert (rest = []) as -> by (destruct rest; [reflexivity | cbn in Hlen; lia]).
      exists [outs], z1, g1. cbn [map session length].
      split; [reflexivity|]. split; [|split].
      * intros [|r] o Hr; [|destruct r; discriminate Hr].
        injection Hr as <-. exists out. split; [exact Ho|].
        now rewrite Z.add_0_r.
      * lia.
      * intros _. apply Hd1. lia.
Qed.


End Ramp.





(** ** Leg boundaries over successive blocks *)

Section Boundary.

Lemma rng_in_range_tail g : rng_in_range g -> rng_in_range (rng_tail g).
Proof. intros H n. apply (H (S n)). Qed.

Lemma refresh_loop_rng blk : forall i x g y g',
  wf x -> 0 <= i -> i + Z.of_nat (length blk) <= fftSize x ->
  refresh_loop i blk (x, g) = Some (tt, (y, g')) ->
  rng_in_range g -> rng_in_range g'.
Proof.
  induction blk as [|s rest IH]; intros i x g y g' Hwf Hi Hlen Hrun Hg.
  - injection Hrun as _ <-. exact Hg.
  - cbn [length] in Hlen. cbn [refresh_loop] in Hrun. unfold bind in Hrun.
    destruct (Z.eq_dec (atom_getlong (cell x UpdateTarget i)) 0) as [E|E].
    + rewrite refresh_at_idle in Hrun by (assumption || lia).
      apply (IH (i + 1) x g y g' Hwf ltac:(lia) ltac:(lia) Hrun Hg).
    + rewrite refresh_at_fires in Hrun by (assumption || lia).
      destruct (updateTarget_runs (carry x i) g (in_mag s) (in_phase s)
                  (in_index s) (wf_carry x i Hwf))
        as (y1 & Hrun1 & Hy1 & Hc1 & _).
      rewrite Hrun1 in Hrun.
      pose proof (same_config_trans _ _ _ (same_config_carry x i) Hc1) as Hc.
      apply (IH (i + 1) y1 (rng_tail g) y g' Hy1 ltac:(lia)
               ltac:(destruct Hc as [-> _]; lia) Hrun).
      now apply rng_in_range_tail.
Qed.

(** What a signal vector that fits the tables keeps. *)
Lemma perform_keeps x g blk outs z g' :
  wf x -> Z.of_nat (length blk) <= fftSize x ->
  interp_perform64 blk (x, g) = Some (outs, (z, g')) ->
  wf z /\ same_config x z /\ (rng_in_range g -> rng_in_range g').
Proof.
  intros Hwf Hlen H.
  destruct (refresh_loop_total blk 0 x g Hwf ltac:(lia) ltac:(lia))
    as (y & g1 & Hrun & Hy & Hc).
  destruct (step_loop_runs blk y g1 Hy) as (outs' & z' & Hrun' & Hz & Hc' & _).
  unfold interp_perform64, bind in H. rewrite Hrun, Hrun' in H.
  injection H as <- <- <-.
  split; [exact Hz|]. split; [eapply same_config_trans; eassumption|].
  apply (refresh_loop_rng blk 0 x g y g1 Hwf ltac:(lia) ltac:(lia) Hrun).
Qed.

Lemma session_performs_keep more : forall x g outss z g',
  wf x -> Forall (fun b => Z.of_nat (length b) <= fftSize x) more ->
  session (map call_perform64 more) (x, g) = Some (outss, (z, g')) ->
  wf z /\ same_config x z /\ length outss = length more /\
  (rng_in_range g -> rng_in_range g').
Proof.
  induction more as [|blk rest IH]; intros x g outss z g' Hwf Hall H.
  - injection H as <- <- <-.
    split; [exact Hwf|]. split; [apply same_config_refl|]. now split.
  - apply Forall_cons in Hall as [Hblk Hall].
    cbn [map session dispatch] in H. unfold bind in H.
    destruct (interp_perform64 blk (x, g)) as [[o [z1 g1]]|] eqn:E1;
      [|discriminate].
    destruct (session (map call_perform64 rest) (z1, g1))
      as [[os [z2 g2]]|] eqn:E2; [|discriminate].
    injection H as <- <- <-.
    destruct (perform_keeps x g blk o z1 g1 Hwf Hblk E1) as (Hz1 & Hc1 & Hg1).
    destruct (IH z1 g1 os z2 g2 Hz1) as (Hz & Hc & Hl & Hg); [|exact E2|].
    { eapply Forall_impl; [exact Hall|]. intros b Hb.
      destruct Hc1 as [-> _]. exact Hb. }
    split; [exact Hz|]. split; [eapply same_config_trans; eassumption|].
    split; [cbn [length]; now rewrite Hl | auto].
Qed.

(** The block in which the refresh loop opens the leg, with the object
    between the two loops. *)
Lemma opens_leg_cells x g k blk s :
  wf x -> 1 <= interpMin x <= interpMax x -> rng_in_range g ->
  block_with x k blk -> blk !! k = Some s ->
  atom_getlong (cell x UpdateTarget (Z.of_nat k)) <> 0 ->
  let m0 := atom_getfloat (cell x TargetMag (Z.of_nat k)) in
  let p0 := atom_getfloat (cell x TargetPhase (Z.of_nat k)) in
  exists T outs y z g',
    interpMin x <= T <= interpMax x /\
    refresh_loop 0 blk (x, g) = Some (tt, (y, g')) /\
    interp_perform64 blk (x, g) = Some (outs, (z, g')) /\
    leg_opened x y (Z.of_nat k) s T /\
    (exists out, outs !! k = Some out /\
                 on_ramp m0 p0 (in_mag s) (in_phase s) T 1 out) /\
    (1 < T -> midleg z (Z.of_nat k) m0 p0 (in_mag s) (in_phase s) T 1) /\
    (1 = T -> leg_done z (Z.of_nat k) (in_mag s) (in_phase s)).
Proof.
  intros Hwf Hcfg Hg (Hlen & Hidx & Hk) Hs Hflag m0 p0.
  destruct (perform_by_position_cells x g blk Hwf Hlen Hidx)
    as (outs & y & z & g' & Hrefresh & Hrun & Hz & Hcz & Hpos).
  destruct (Hpos k s Hs) as ([_ Hfire] & out & Ho & Hst).
  destruct (Hfire Hflag) as (EcM & EcP & EtM & EtP & EiM & EiP & EU & EF).
  destruct (refresh_loop_durations blk 0 x g y g' Hwf ltac:(lia) ltac:(lia)
              Hidx Hrefresh k s Hs Hflag) as (n & HT).
  rewrite Z.add_0_l in HT.
  pose proof (irand_bounds (g n) (interpMin x) (interpMax x) (Hg n)
                ltac:(lia)) as HTb.
  set (T := irand (g n) (interpMin x) (interpMax x)) in *.
  rewrite HT in EiM, EiP. cbn [atom_getlong] in EiM, EiP.
  assert (midleg y (Z.of_nat k) m0 p0 (in_mag s) (in_phase s) T 0) as Hmid.
  { unfold midleg. rewrite EtM, EtP, HT, EiM, EiP, EcM, EcP, EU, EF.
    cbn [atom_getfloat atom_getlong].
    repeat split; try reflexivity; unfold m0, p0; ring. }
  destruct (midleg_step y z _ m0 p0 _ _ T 0 out Hmid ltac:(lia) Hst)
    as (Hr & H1 & H2).
  exists T, outs, y, z, g'. split; [lia|]. split; [exact Hrefresh|].
  split; [exact Hrun|]. split.
  { unfold leg_opened. rewrite EcM, EcP, EtM, EtP, HT, EiM, EiP, EU, EF.
    repeat split. }
  split; [now exists out|]. split; [exact H1 | exact H2].
Qed.

(** The leg that the first block opens, run to its last frame. *)
Lemma leg_to_completion x g k blk s more :
  wf x -> 1 <= interpMin x <= interpMax x -> rng_in_range g ->
  block_with x k blk -> blk !! k = Some s ->
  atom_getlong (cell x UpdateTarget (Z.of_nat k)) <> 0 ->
  Forall (block_with x k) more ->
  let m0 := atom_getfloat (cell x TargetMag (Z.of_nat k)) in
  let p0 := atom_getfloat (cell x TargetPhase (Z.of_nat k)) in
  exists T y g0,
    interpMin x <= T <= interpMax x /\
    refresh_loop 0 blk (x, g) = Some (tt, (y, g0)) /\
    leg_opened x y (Z.of_nat k) s T /\
    (Z.of_nat (length more) = T - 1 ->
     exists outss z g1 o last,
       session (map call_perform64 (blk :: more)) (x, g) =
         Some (outss, (z, g1)) /\
       wf z /\ same_config x z /\ rng_in_range g1 /\
       outss !! Z.to_nat (T - 1) = Some o /\ o !! k = Some last /\
       on_ramp m0 p0 (in_mag s) (in_phase s) T T last /\
       leg_done z (Z.of_nat k) (in_mag s) (in_phase s)).
Proof.
  intros Hwf Hcfg Hg Hblk Hs Hflag Hall m0 p0.
  destruct (opens_leg_cells x g k blk s Hwf Hcfg Hg Hblk Hs Hflag)
    as (T & outs & y & z1 & g1 & HT & Hrefresh & Hrun & Hopen
          & (out & Ho & Hramp) & Hm1 & Hd1).
  fold m0 p0 in Hramp, Hm1.
  exists T, y, g1. split; [exact HT|]. split; [exact Hrefresh|].
  split; [exact Hopen|]. intros Hlen.
  destruct (perform_keeps x g blk outs z1 g1 Hwf ltac:(apply Hblk) Hrun)
    as (Hz1 & Hc1 & Hg1).
  cbn [map session dispatch]. unfold bind. rewrite Hrun.
  destruct (Z_lt_le_dec 1 T) as [Hlt|Hge].
  - assert (Forall (block_with z1 k) more) as Hall1.
    { eapply Forall_impl; [exact Hall|].
      intros b; apply block_with_config; exact Hc1. }
    destruct (session_midleg more z1 g1 k m0 p0 (in_mag s) (in_phase s) T 1
                Hz1 Hall1 (Hm1 Hlt) ltac:(lia) ltac:(lia))
      as (outss & z & g2 & Hrun' & Hout & _ & Hd).
    destruct (session_performs_keep more z1 g1 outss z g2 Hz1) as
      (Hz & Hc & Hl & Hg2); [|exact Hrun'|].
    { eapply Forall_impl; [exact Hall1|]. intros b Hb. apply Hb. }
    assert (is_Some (outss !! Z.to_nat (T - 2))) as [o Hlook]
      by (apply lookup_lt_is_Some_2; lia).
    destruct (Hout _ o Hlook) as (last & Hlast & Hr).
    rewrite Hrun'. exists (outs :: outss), z, g2, o, last.
    split; [reflexivity|]. split; [exact Hz|].
    split; [eapply same_config_trans; eassumption|].
    split; [auto|]. split.
    { replace (Z.to_nat (T - 1)) with (S (Z.to_nat (T - 2))) by lia.
      exact Hlook. }
    split; [exact Hlast|]. split.
    { now replace (1 + Z.of_nat (Z.to_nat (T - 2)) + 1) with T in Hr by lia. }
    apply Hd. lia.
  - assert (T = 1) as -> by lia.
    assert (more = []) as -> by (destruct more; [reflexivity | cbn in Hlen; lia]).
    exists [outs], z1, g1, outs, out. cbn [map session].
    split; [reflexivity|]. split; [exact Hz1|]. split; [exact Hc1|].
    split; [auto|]. split; [reflexivity|]. split; [exact Ho|].
    split; [exact Hramp | now apply Hd1].
Qed.

Lemma on_ramp_end m0 p0 m p T out :
  1 <= T -> on_ramp m0 p0 m p T T out ->
  (fst out == m)%Q /\ (snd out == p)%Q.
Proof.
  intros HT [Hm Hp].
  assert (~ inject_Z T == 0)%Q as HT0.
  { change 0%Q with (inject_Z 0). rewrite inject_Z_injective. lia. }
  rewrite Hm, Hp. split; field; exact HT0.
Qed.

End Boundary.

(** C1, as amended: continuity at leg boundaries on signal vectors that
    fit the tables and whose index input carries the position of each
    frame (it resolves to the position and fits an [int]).  Take a
    well-formed object with [1 <= interpMin <= interpMax] and values of
    [random()] in [0, RAND_MAX].  Whenever the flag of a
    position [k] is set, the refresh loop opens a leg of some [T] frames
    in [interpMin, interpMax] whose current value is the target that the
    bin had before, with increments derived from that value.  When the
    leg completes, [T] vectors later, the value emitted at [k] by its last
    frame is its target, the bin asks for a new target, and the next
    vector opens the next leg from that same value: its first frame emits
    the last value of the completed leg plus one increment of the new
    leg (floating values as exact rationals). *)
Theorem continuity_at_leg_boundary (x : t_interp) (g : rng) (k : nat)
    (blk : list sample) (s : sample) :
  wf x -> 1 <= interpMin x <= interpMax x -> rng_in_range g ->
  block_with x k blk -> int_indexed blk -> blk !! k = Some s ->
  atom_getlong (cell x UpdateTarget (Z.of_nat k)) <> 0 ->
  let j := Z.of_nat k in
  exists T y g0,
    interpMin x <= T <= interpMax x /\
    refresh_loop 0 blk (x, g) = Some (tt, (y, g0)) /\
    continuous_boundary x y j /\ leg_opened x y j s T /\
    forall more next s',
      Forall (block_with x k) more -> Forall int_indexed more ->
      Z.of_nat (length more) = T - 1 ->
      block_with x k next -> int_indexed next -> next !! k = Some s' ->
      exists outss z g1 o last T' y' g2 outs' z' first,
        session (map call_perform64 (blk :: more)) (x, g) =
          Some (outss, (z, g1)) /\
        outss !! Z.to_nat (T - 1) = Some o /\ o !! k = Some last /\
        (fst last == in_mag s)%Q /\ (snd last == in_phase s)%Q /\
        leg_done z j (in_mag s) (in_phase s) /\
        interpMin x <= T' <= interpMax x /\
        refresh_loop 0 next (z, g1) = Some (tt, (y', g2)) /\
        continuous_boundary z y' j /\ leg_opened z y' j s' T' /\
        cell y' CurrMag j = A_FLOAT (in_mag s) /\
        cell y' CurrPhase j = A_FLOAT (in_phase s) /\
        interp_perform64 next (z, g1) = Some (outs', (z', g2)) /\
        outs' !! k = Some first /\
        (fst first - fst last == (in_mag s' - in_mag s) / inject_Z T')%Q /\
        (snd first - snd last == (in_phase s' - in_phase s) / inject_Z T')%Q.
Proof.
  intros Hwf Hcfg Hg Hblk _ Hs Hflag j. subst j.
  destruct (leg_to_completion x g k blk s [] Hwf Hcfg Hg Hblk Hs Hflag
              ltac:(constructor)) as (T & y & g0 & HT & Hrefresh & Hopen & _).
  exists T, y, g0. split; [exact HT|]. split; [exact Hrefresh|].
  split.
  { destruct Hopen as (EcM & EcP & _). unfold continuous_boundary.
    rewrite EcM, EcP. split; reflexivity. }
  split; [exact Hopen|].
  intros more next s' Hall _ Hlen Hnext _ Hs'.
  destruct (leg_to_completion x g k blk s more Hwf Hcfg Hg Hblk Hs Hflag Hall)
    as (T1 & y1 & g01 & _ & Hrefresh1 & Hopen1 & Hdone).
  rewrite Hrefresh in Hrefresh1. injection Hrefresh1 as <- <-.
  assert (T1 = T) as ->.
  { destruct Hopen as (_ & _ & _ & _ & E & _).
    destruct Hopen1 as (_ & _ & _ & _ & E1 & _). congruence. }
  destruct (Hdone Hlen)
    as (outss & z & g1 & o & last & Hrun & Hz & Hc & Hg1 & Ho & Hlast
          & Hramp & Hd).
  destruct (on_ramp_end _ _ _ _ T last ltac:(lia) Hramp) as [ElM ElP].
  pose proof Hd as (EtM & EtP & _ & _ & EU & _).
  assert (interpMin z = interpMin x /\ interpMax z = interpMax x) as [Emn Emx]
    by (destruct Hc as (_ & _ & _ & _ & _ & _ & ? & ?); auto).
  destruct (opens_leg_cells z g1 k next s' Hz ltac:(lia) Hg1
              (block_with_config x z k next Hc Hnext) Hs')
    as (T' & outs' & y' & z' & g2 & HT' & Hrefresh' & Hrun' & Hopen'
          & (first & Hfirst & HrM & HrP) & _).
  { rewrite EU. discriminate. }
  rewrite EtM in HrM. rewrite EtP in HrP. cbn [atom_getfloat] in HrM, HrP.
  exists outss, z, g1, o, last, T', y', g2, outs', z', first.
  split; [exact Hrun|]. split; [exact Ho|]. split; [exact Hlast|].
  split; [exact ElM|]. split; [exact ElP|]. split; [exact Hd|].
  split; [lia|]. split; [exact Hrefresh'|].
  pose proof Hopen' as (EcM & EcP & _).
  rewrite EtM in EcM. rewrite EtP in EcP. cbn [atom_getfloat] in EcM, EcP.
  split.
  { unfold continuous_boundary. rewrite EcM, EcP, EtM, EtP.
    split; reflexivity. }
  split; [exact Hopen'|]. split; [exact EcM|]. split; [exact EcP|].
  split; [exact Hrun'|]. split; [exact Hfirst|].
  rewrite HrM, HrP, ElM, ElP. change (inject_Z 1) with 1%Q.
  split; ring.
Qed.

Lemma continuity_at_leg_boundary_witness :
  let blk := [mk_sample 1 0 0; mk_sample 6 2 1] in
  let more := [[mk_sample 0 0 0; mk_sample 0 0 1]] in
  let next := [mk_sample 0 0 0; mk_sample 10 0 1] in
  exists y g0,
    refresh_loop 0 blk (x_restarted, g_zero) = Some (tt, (y, g0)) /\
    continuous_boundary x_restarted y 1 /\
    leg_opened x_restarted y 1 (mk_sample 6 2 1) 2 /\
    (* bin 1 was at 5/2, half way to its target 5 *)
    cell y CurrMag 1 = A_FLOAT 5 /\
    exists outss z g1 o last T' y' g2 outs' z' first,
      session (map call_perform64 (blk :: more)) (x_restarted, g_zero) =
        Some (outss, (z, g1)) /\
      outss !! 1%nat = Some o /\ o !! 1%nat = Some last /\
      (fst last == 6)%Q /\ (snd last == 2)%Q /\
      leg_done z 1 6 2 /\
      2 <= T' <= 2 /\
      refresh_loop 0 next (z, g1) = Some (tt, (y', g2)) /\
      continuous_boundary z y' 1 /\
      leg_opened z y' 1 (mk_sample 10 0 1) T' /\
      cell y' CurrMag 1 = A_FLOAT 6 /\
      cell y' CurrPhase 1 = A_FLOAT 2 /\
      interp_perform64 next (z, g1) = Some (outs', (z', g2)) /\
      outs' !! 1%nat = Some first /\
      (fst first - fst last == (10 - 6) / inject_Z T')%Q /\
      (snd first - snd last == (0 - 2) / inject_Z T')%Q.
Proof.
  intros blk more next.
  assert (forall b i, b = [mk_sample 0 0 0; mk_sample i 0 1] \/
                      b = [mk_sample 1 0 0; mk_sample i 2 1] ->
                      block_with x_restarted 1 b) as Hblock.
  { intros b i Hb. split; [destruct Hb as [-> | ->]; vm_compute; congruence|].
    split; [|destruct Hb as [-> | ->]; cbn; lia].
    destruct Hb as [-> | ->]; intros [|[|n]] s Hn; cbn in Hn;
      try discriminate; injection Hn as <-; reflexivity. }
  destruct (continuity_at_leg_boundary x_restarted g_zero 1 blk
              (mk_sample 6 2 1))
    as (T & y & g0 & HT & Hrefresh & Hcb & Hopen & Hnext).
  - split; [vm_compute; congruence | intros []; reflexivity].
  - vm_compute. split; congruence.
  - intros n. unfold g_zero, RAND_MAX. lia.
  - apply (Hblock blk 6%Q). now right.
  - repeat constructor; vm_compute; congruence.
  - reflexivity.
  - vm_compute. congruence.
  - assert (T = 2) as -> by (change (2 <= T <= 2) in HT; lia).
    exists y, g0. split; [exact Hrefresh|]. split; [exact Hcb|].
    split; [exact Hopen|]. split; [apply Hopen|].
    apply (Hnext more next (mk_sample 10 0 1)).
    + constructor; [|constructor]. apply (Hblock _ 0%Q). now left.
    + repeat constructor; vm_compute; congruence.
    + reflexivity.
    + apply (Hblock next 10%Q). now left.
    + repeat constructor; vm_compute; congruence.
    + reflexivity.
Defined.
